(** * A shallow embedding of [public/script_audi.js]

    The script is a VPAID 2.0 creative: the [VpaidVideoPlayer] object that the
    ad wrapper drives, and, inside [startAd], the [createEvent] closure that
    sends tracking pixels and guards the redirect of the overlay anchor.

    JavaScript values are modelled as follows.
    - Numbers are exact rationals extended with [NaN] and the two infinities,
      and sums and differences are exact.  Where the script rounds or
      compares the result of a multiplication and a division (the percent
      played of line 155, the position of line 459) the arithmetic is that
      of IEEE 754 binary64, on the doubles nearest to the numbers.
    - An object used as a dictionary ([eventsCallbacks_], [eventAlreadyFired])
      is a [gmap] of its own properties; the [in] operator and property reads
      also see the names every plain object inherits from [Object.prototype].
    - An object whose keys are enumerated ([params], [constant_params]) is an
      association list in insertion order.
    - A function of the script is a computation in the monad [M S], which
      threads the mutable state [S], collects the observable effects and
      completes normally or by a thrown error; state written before a throw
      stays written, as in JavaScript.
    - Callbacks of the wrapper are opaque: calling one is an effect, and the
      callback is assumed to return without calling back into the ad.
    - The payload and the point of interest come parsed: a failure of
      [JSON.parse] or [decodeURIComponent] is an input that makes the method
      throw.  The text of the tracker URLs and the output of [console.log]
      are not modelled.
    - The browser runs the listeners and timers that the script installs:
      each run of one is an input of the session, whether or not the script
      has installed it yet, so that a session covers every interleaving. *)

From Stdlib Require Import ZArith QArith Qround Qminmax Lia Lqa.
From Stdlib Require Import SpecFloat.
From Stdlib Require Import DecimalString.
From stdpp Require Import base gmap strings list.

Local Open Scope Z_scope.
Local Open Scope string_scope.
Local Open Scope list_scope.

(** ** Numbers *)

Inductive num :=
| NaN
| Inf (negative : bool)
| Fin (q : Q).

Definition Qneg_b (q : Q) : bool := (Qnum q <? 0)%Z.
Definition Qzero_b (q : Q) : bool := (Qnum q =? 0)%Z.

Definition num_of_Z (z : Z) : num := Fin (inject_Z z).

Definition num_neg (a : num) : num :=
  match a with
  | NaN => NaN
  | Inf b => Inf (negb b)
  | Fin q => Fin (Qred (- q))
  end.

Definition num_add (a b : num) : num :=
  match a, b with
  | NaN, _ | _, NaN => NaN
  | Inf x, Inf y => if Bool.eqb x y then Inf x else NaN
  | Inf x, Fin _ => Inf x
  | Fin _, Inf y => Inf y
  | Fin p, Fin q => Fin (Qred (p + q))
  end.

Definition num_sub (a b : num) : num := num_add a (num_neg b).

Definition num_div (a b : num) : num :=
  match a, b with
  | NaN, _ | _, NaN => NaN
  | Inf _, Inf _ => NaN
  | Inf x, Fin q => Inf (xorb x (Qneg_b q))
  | Fin _, Inf _ => Fin 0%Q
  | Fin p, Fin q =>
      if Qzero_b q then (if Qzero_b p then NaN else Inf (Qneg_b p))
      else Fin (Qred (p / q))
  end.

(** [a < b], [a <= b] and [a == b] on numbers; every comparison with [NaN]
    is false. *)
Definition num_ltb (a b : num) : bool :=
  match a, b with
  | NaN, _ | _, NaN => false
  | Inf x, Inf y => x && negb y
  | Inf x, Fin _ => x
  | Fin _, Inf y => negb y
  | Fin p, Fin q => negb (Qle_bool q p)
  end.

Definition num_eqb (a b : num) : bool :=
  match a, b with
  | NaN, _ | _, NaN => false
  | Inf x, Inf y => Bool.eqb x y
  | Fin p, Fin q => Qeq_bool p q
  | _, _ => false
  end.

Definition num_leb (a b : num) : bool := num_ltb a b || num_eqb a b.
Definition num_gtb (a b : num) : bool := num_ltb b a.

(** [Math.round]: the nearest integer, a tie going up. *)
Definition Math_round (a : num) : num :=
  match a with
  | Fin q => num_of_Z (Qfloor (q + (1 # 2))%Q)
  | _ => a
  end.

(** A number in a condition: [0] and [NaN] are falsy. *)
Definition num_truthy (a : num) : bool :=
  match a with
  | NaN => false
  | Inf _ => true
  | Fin q => negb (Qzero_b q)
  end.

Definition string_of_Z (z : Z) : string := NilZero.string_of_int (Z.to_int z).

(** The string of an integral number, as [+] with a string makes it: used on
    the results of [Math.round] only (below 1e21, where JavaScript prints
    all digits). *)
Definition num_to_string (a : num) : string :=
  match a with
  | NaN => "NaN"
  | Inf false => "Infinity"
  | Inf true => "-Infinity"
  | Fin q => string_of_Z (Qfloor q)
  end.

(** ** Doubles

    The numbers of JavaScript are the doubles of IEEE 754 binary64:
    [spec_float] at precision 53, with the operations of the Standard
    Library, which round to the nearest double, a tie going to the even
    one. *)

Definition double : Type := spec_float.

Definition double_mul : double -> double -> double := SFmul 53 1024.
Definition double_div : double -> double -> double := SFdiv 53 1024.

(** The double of an integer: the integer itself up to [2^53]. *)
Definition double_of_Z (z : Z) : double := binary_normalize 53 1024 z 0 false.

(** [a >= b] on doubles; it is false when one of them is [NaN]. *)
Definition double_geb (a b : double) : bool := SFleb b a.

(** The double that a number stands for: the number itself when it is a
    double, and otherwise the double nearest to it, as for a numeric
    literal (numerator and denominator up to [2^53]). *)
Definition to_double (a : num) : double :=
  match a with
  | NaN => S754_nan
  | Inf negative => S754_infinity negative
  | Fin q => double_div (double_of_Z (Qnum q)) (double_of_Z (Zpos (Qden q)))
  end.

(** The number that a double is, exactly; the sign of a zero is dropped. *)
Definition of_double (d : double) : num :=
  match d with
  | S754_nan => NaN
  | S754_infinity negative => Inf negative
  | S754_zero _ => Fin 0
  | S754_finite negative m e =>
      Fin (Qred (inject_Z (cond_Zopp negative (Zpos m)) * Qpower 2 e))
  end.

(** ** Values, errors and plain objects *)

Inductive jsval :=
| VUndefined
| VNum (n : num)
| VStr (s : string).

Inductive error :=
| TypeError
| ReferenceError
| SyntaxError
| IndexSizeError.

(** The property names a plain object [{}] inherits from [Object.prototype]. *)
Definition Object_prototype : list string :=
  [ "constructor"; "hasOwnProperty"; "isPrototypeOf"; "propertyIsEnumerable";
    "toLocaleString"; "toString"; "valueOf"; "__proto__";
    "__defineGetter__"; "__defineSetter__"; "__lookupGetter__";
    "__lookupSetter__" ].

Definition inherited (name : string) : bool :=
  bool_decide (name ∈ Object_prototype).

(** [name in obj] for an object created by [{}]. *)
Definition js_in {V} (name : string) (obj : gmap string V) : bool :=
  bool_decide (is_Some (obj !! name)) || inherited name.

(** Objects whose keys are enumerated: [obj[k] = v] keeps the place of an
    existing key and appends a new one. *)
Definition object := list (string * jsval).

Fixpoint obj_set (k : string) (v : jsval) (o : object) : object :=
  match o with
  | [] => [(k, v)]
  | (k', v') :: o' =>
      if String.eqb k k' then (k, v) :: o' else (k', v') :: obj_set k v o'
  end.

Fixpoint obj_get (k : string) (o : object) : jsval :=
  match o with
  | [] => VUndefined
  | (k', v') :: o' => if String.eqb k k' then v' else obj_get k o'
  end.

(** [mergeTwoObjects(toObject, fromObject)], lines 386-393: both arguments
    are objects at every call of the script. *)
Definition mergeTwoObjects (toObject fromObject : object) : object :=
  fold_left (fun acc kv => obj_set (fst kv) (snd kv) acc) fromObject toObject.

(** ** Effects and the execution monad *)

(** A callback the wrapper passed to [subscribe], already bound to its
    context. *)
Definition callback := nat.

(** What [event.loadPixel] requests.  The text of a tracker URL is built by
    regular-expression substitutions that no property below observes, so an
    event pixel is kept as its parts: [EventPixel name query] stands for
    [trackerEventUrl] with ["/click?"] replaced by ["/" + name + "?"],
    followed by ["&p_" + k + "=" + encodeURIComponent(v)] for each entry of
    [query] in order; [ConfirmPixel url] is the request of
    [config.macro.gClick]. *)
Inductive pixel :=
| EventPixel (eventName : string) (query : object)
| ConfirmPixel (url : string).

(** What the ad object does to the page and to the wrapper. *)
Inductive ad_effect :=
| Invoke (eventName : string) (cb : callback)
| Play
| Pause
| SetTimeout (ms : Z)
| SetInterval (id : nat) (ms : Z)
| ClearInterval (id : nat).

(** What a tracking closure does. *)
Inductive tracker_effect :=
| LoadPixel (px : pixel)
| PreventDefault.

Inductive completion (A : Type) :=
| Normal (a : A)
| Throw (e : error).
Arguments Normal {A} a.
Arguments Throw {A} e.

Record result (S E A : Type) := Result {
  post : S;
  emitted : list E;
  outcome : completion A
}.
Arguments Result {S E A} post emitted outcome.
Arguments post {S E A} r.
Arguments emitted {S E A} r.
Arguments outcome {S E A} r.

(** A computation on the state [S] with effects in [E]. *)
Definition M (S E A : Type) : Type := S -> result S E A.

Definition ret {S E A} (a : A) : M S E A := fun s => Result s [] (Normal a).

Definition bind {S E A B} (m : M S E A) (k : A -> M S E B) : M S E B :=
  fun s =>
    let r := m s in
    match outcome r with
    | Normal a =>
        let r' := k a (post r) in
        Result (post r') (emitted r ++ emitted r') (outcome r')
    | Throw e => Result (post r) (emitted r) (Throw e)
    end.

Definition throw {S E A} (e : error) : M S E A := fun s => Result s [] (Throw e).
Definition get {S E} : M S E S := fun s => Result s [] (Normal s).
Definition modify {S E} (f : S -> S) : M S E unit :=
  fun s => Result (f s) [] (Normal tt).
Definition emit {S E} (e : E) : M S E unit := fun s => Result s [e] (Normal tt).

(** [try { m } catch (e) {}] *)
Definition try_catch {S E} (m : M S E unit) : M S E unit :=
  fun s => let r := m s in Result (post r) (emitted r) (Normal tt).

Declare Scope js_scope.
Delimit Scope js_scope with js.
Notation "x <- m ;; k" := (bind m (fun x => k))
  (at level 100, m at next level, right associativity) : js_scope.
Notation "m ;;; k" := (bind m (fun _ => k))
  (at level 100, right associativity) : js_scope.
Local Open Scope js_scope.

(** Running handlers one after the other, as the event loop does: a handler
    that throws ends alone, the next one starts from the state it left. *)
Fixpoint run_all {S E} (hs : list (M S E unit)) (s : S) : S * list E :=
  match hs with
  | [] => (s, [])
  | h :: hs' =>
      let r := h s in
      let '(s', es) := run_all hs' (post r) in
      (s', emitted r ++ es)
  end.

(** ** The tracking closure [createEvent], lines 261-536 *)

(** [config.macro] of the creative payload. *)
Record macro := Macro {
  url : string;
  timestamp : string;
  gClick : string
}.

(** What the [href] of the overlay anchor holds; the text of the tracker URL
    is not interpreted. *)
Inductive href :=
| HrefOfPage
| HrefTrackerClickUrl
| HrefRedirect (target : string) (clickPixel : list string) (query : object).

(** The variables of the closure.  [trackerClickUrl], [trackerEventUrl],
    [urlRedirectionDashboard] and [nbCallsInUrl] hold URL text only and are
    left out; [aElement] is [None] until [init_load] has run. *)
Record tracker := Tracker {
  config : macro;
  allowRedirect : bool;
  aElement : option href;
  alreadyClicked : bool;
  pos_interact : string;
  constant_params : object;
  eventAlreadyFired : gmap string object;
  timeStart : Z;
  screenX : num;
  screenY : num
}.

Definition set_allowRedirect (b : bool) (t : tracker) : tracker :=
  Tracker (config t) b (aElement t) (alreadyClicked t) (pos_interact t)
    (constant_params t) (eventAlreadyFired t) (timeStart t) (screenX t) (screenY t).
Definition set_aElement (a : option href) (t : tracker) : tracker :=
  Tracker (config t) (allowRedirect t) a (alreadyClicked t) (pos_interact t)
    (constant_params t) (eventAlreadyFired t) (timeStart t) (screenX t) (screenY t).
Definition set_alreadyClicked (b : bool) (t : tracker) : tracker :=
  Tracker (config t) (allowRedirect t) (aElement t) b (pos_interact t)
    (constant_params t) (eventAlreadyFired t) (timeStart t) (screenX t) (screenY t).
Definition set_pos_interact (p : string) (t : tracker) : tracker :=
  Tracker (config t) (allowRedirect t) (aElement t) (alreadyClicked t) p
    (constant_params t) (eventAlreadyFired t) (timeStart t) (screenX t) (screenY t).
Definition set_constant_params (c : object) (t : tracker) : tracker :=
  Tracker (config t) (allowRedirect t) (aElement t) (alreadyClicked t) (pos_interact t)
    c (eventAlreadyFired t) (timeStart t) (screenX t) (screenY t).
Definition set_eventAlreadyFired (m : gmap string object) (t : tracker) : tracker :=
  Tracker (config t) (allowRedirect t) (aElement t) (alreadyClicked t) (pos_interact t)
    (constant_params t) m (timeStart t) (screenX t) (screenY t).

(** The state [createEvent(config)] starts from, lines 262-275; [now] is the
    clock read by [new Date()], [screenX] and [screenY] the viewport size the
    window reports.  [init()], line 532, only rewrites URL text. *)
Definition createEvent (config : macro) (now : Z) (screenX screenY : num) : tracker :=
  {| config := config;
     allowRedirect := false;
     aElement := None;
     alreadyClicked := false;
     pos_interact := "1_1";
     constant_params := [];
     eventAlreadyFired := ∅;
     timeStart := now;
     screenX := screenX;
     screenY := screenY |}.

(** [event.loadPixel(url)], lines 279-283. *)
Definition loadPixel (px : pixel) : M tracker tracker_effect unit := emit (LoadPixel px).

(** The number a property holds when it is read by [<] or [++]:
    [undefined] reads as [NaN]; no string reaches these operators. *)
Definition to_number (v : jsval) : num :=
  match v with
  | VNum n => n
  | _ => NaN
  end.

(** [event.addParams(eventType, oParams)], lines 398-430; the result is the
    object whose entries the loop of lines 426-428 writes into the query
    string. *)
Definition addParams (eventType : string) (oParams : object) (now : Z)
  : M tracker tracker_effect object :=
  t <- get ;;
  let oParams :=
    obj_set "t" (VNum (num_div (num_of_Z (now - timeStart t)) (num_of_Z 1000)))
      oParams in
  let oParams :=
    if num_gtb (to_number (obj_get "t" oParams)) (num_of_Z 3000)
    then obj_set "t" (VNum (num_of_Z 3000)) oParams
    else oParams in
  let oParams :=
    obj_set "t" (VNum (Math_round (to_number (obj_get "t" oParams)))) oParams in
  let oParams := obj_set "et" (VStr eventType) oParams in
  let oParams :=
    if String.eqb eventType "i"
    then obj_set "p" (VStr (pos_interact t)) oParams
    else oParams in
  ret (mergeTwoObjects oParams (constant_params t)).

(** What [eventAlreadyFired[eventName]] reads: the own record, else the
    member of [Object.prototype] of that name, else [undefined]. *)
Inductive property :=
| Own (record : object)
| Inherited
| Missing.

Definition read_property (name : string) (obj : gmap string object) : property :=
  match obj !! name with
  | Some r => Own r
  | None => if inherited name then Inherited else Missing
  end.

(** [eventAlreadyFired[eventName][key]]: a member of [Object.prototype] has
    no property ["et"] or ["ni"]. *)
Definition fired_field (name key : string) (obj : gmap string object) : jsval :=
  match read_property name obj with
  | Own r => obj_get key r
  | _ => VUndefined
  end.

(** The condition of line 297. *)
Definition may_fire (eventName : string) (t : tracker) : bool :=
  (String.eqb eventName "click" && negb (alreadyClicked t))
  || (negb (String.eqb eventName "click")
      && (negb (js_in eventName (eventAlreadyFired t))
          || (match fired_field eventName "et" (eventAlreadyFired t) with
              | VStr s => String.eqb s "i"
              | _ => false
              end
              && num_ltb (to_number (fired_field eventName "ni" (eventAlreadyFired t)))
                   (num_of_Z 30)))).

(** Lines 300-316: the record of the event is created or its count grows. *)
Definition record_fire (eventName eventType : string) (t : tracker) : tracker :=
  match read_property eventName (eventAlreadyFired t) with
  | Missing =>
      let r := [("et", VStr eventType)] in
      if String.eqb eventName "click" then
        set_eventAlreadyFired
          (<[eventName := obj_set "ni" (VNum (num_of_Z 30)) r]> (eventAlreadyFired t))
          (set_alreadyClicked true t)
      else if String.eqb eventType "i" then
        set_eventAlreadyFired
          (<[eventName := obj_set "ni" (VNum (num_of_Z 1)) r]> (eventAlreadyFired t)) t
      else
        set_eventAlreadyFired (<[eventName := r]> (eventAlreadyFired t)) t
  | Own r =>
      let ni := num_add (to_number (obj_get "ni" r)) (num_of_Z 1) in
      set_eventAlreadyFired
        (<[eventName := obj_set "ni" (VNum ni) r]> (eventAlreadyFired t)) t
  | Inherited =>
      (* the count would be written on the inherited member, not on
         [eventAlreadyFired] *)
      t
  end.

(** [eventType || "t"], line 291: [None] stands for an argument left out. *)
Definition effective_type (eventType : option string) : string :=
  match eventType with
  | Some s => if String.eqb s "" then "t" else s
  | None => "t"
  end.

(** [event.trigger(eventName, eventType, params)], lines 289-322. *)
Definition trigger (eventName : string) (eventType : option string)
    (params : option object) (now : Z) : M tracker tracker_effect unit :=
  let params := default [] params in
  let eventType := effective_type eventType in
  t <- get ;;
  if may_fire eventName t then
    modify (record_fire eventName eventType) ;;;
    t' <- get ;;
    let record :=
      match read_property eventName (eventAlreadyFired t') with
      | Own r => r
      | _ => []
      end in
    query <- addParams eventType (mergeTwoObjects params record) now ;;
    loadPixel (EventPixel eventName query)
  else ret tt.

(** A DOM event as [getPosition] reads it: a mouse event has the
    coordinates and no [targetTouches], a touch event has [targetTouches]
    and no coordinates of its own; [None] is [undefined]. *)
Record touch := Touch {
  touch_clientX : option num;
  touch_clientY : option num
}.

Record dom_event := DomEvent {
  clientX : option num;
  clientY : option num;
  targetTouches : option (list touch)
}.

Definition coord_truthy (c : option num) : bool :=
  match c with
  | Some n => num_truthy n
  | None => false
  end.

(** [isNaN(c)] *)
Definition isNaN (c : option num) : bool :=
  match c with
  | Some NaN | None => true
  | Some _ => false
  end.

(** [own || evt.targetTouches[0].field], lines 456-457: reading index [0]
    of [undefined], or a property of the [undefined] an empty list yields,
    throws. *)
Definition coordinate {S E} (own : option num) (touches : option (list touch))
    (field : touch -> option num) : M S E (option num) :=
  if coord_truthy own then ret own
  else match touches with
       | Some (t :: _) => ret (field t)
       | Some [] | None => throw TypeError
       end.

(** [pos / screen * 100], line 459, in doubles. *)
Definition percent_of (pos screen : num) : double :=
  double_mul (double_div (to_double pos) (to_double screen)) (double_of_Z 100).

(** [getPosition(evt)], lines 455-463. *)
Definition getPosition (evt : dom_event) : M tracker tracker_effect unit :=
  xPos <- coordinate (clientX evt) (targetTouches evt) touch_clientX ;;
  yPos <- coordinate (clientY evt) (targetTouches evt) touch_clientY ;;
  if negb (isNaN xPos || isNaN yPos) then
    modify (fun t =>
      let x := default NaN xPos in
      let y := default NaN yPos in
      set_pos_interact
        (num_to_string (Math_round (of_double (percent_of x (screenX t))))
         +:+ "_" +:+
         num_to_string (Math_round (of_double (percent_of y (screenY t)))))
        t)
  else
    modify (set_pos_interact "0_0").

(** [s.indexOf(sub) === -1] *)
Definition not_found (sub s : string) : bool :=
  match String.index 0 sub s with
  | None => true
  | Some _ => false
  end.

(** [handleRedirection(evt)], lines 464-475. *)
Definition handleRedirection : M tracker tracker_effect unit :=
  t <- get ;;
  if allowRedirect t && negb (alreadyClicked t) then
    modify (set_alreadyClicked true) ;;;
    modify (set_allowRedirect false) ;;;
    if not_found "CLICK_URL_UNESC" (gClick (config t))
    then loadPixel (ConfirmPixel (gClick (config t)))
    else ret tt
  else
    emit PreventDefault.

(** The identifiers bound where the body of [triggerRedirection] runs: its
    own name, the parameters of [eventClickCustom], the declarations of
    [createEvent] and of [startAd], and the globals of the script.  The
    name [addParams] of the function expression of line 398 is bound inside
    that function only, and the script declares no other [addParams]; a
    host page is taken to define none either. *)
Definition scope_of_triggerRedirection : list string :=
  [ "redirect"; "triggerRedirection";
    "url"; "cssElement"; "params"; "clickPixel"; "eventClickCustom";
    "config"; "allowRedirect"; "aElement"; "event"; "trackerClickUrl";
    "trackerEventUrl"; "urlRedirectionDashboard"; "alreadyClicked";
    "pos_interact"; "constant_params"; "eventAlreadyFired"; "nbCallsInUrl";
    "timeStart"; "screenX"; "screenY"; "mergeTwoObjects";
    "updateQueryStringParameter"; "captureInteraction"; "getPosition";
    "handleRedirection"; "getParameterByName"; "init"; "init_load";
    "creativeDataAdm"; "poiList"; "POIAdm"; "poiId"; "audioToUse"; "rndInt";
    "changeAudioByPoi"; "videoFV"; "configAdm"; "ccCD"; "createEvent";
    "events";
    "VpaidVideoPlayer"; "getVPAIDAd" ].

(** Evaluating an identifier: a [ReferenceError] when nothing binds it. *)
Definition reference {S E} (x : string) (scope : list string) : M S E unit :=
  if bool_decide (x ∈ scope) then ret tt else throw ReferenceError.

(** The listener [triggerRedirection] that [event.clickCustom] puts on the
    click of [cssElement], lines 330-335.  [event.buildUrl], lines 346-358,
    only builds URL text from [url] and [clickPixel]. *)
Definition triggerRedirection (url : string) (params : option object)
    (clickPixel : list string) (now : Z) : M tracker tracker_effect unit :=
  reference "addParams" scope_of_triggerRedirection ;;;
  query <- addParams "i" (default [] params) now ;;
  t <- get ;;
  match aElement t with
  | Some _ =>
      modify (set_aElement (Some (HrefRedirect url clickPixel query))) ;;;
      modify (set_allowRedirect true)
  | None => throw TypeError
  end.

(** [init_load()], lines 513-531, run on [DOMContentLoaded]: [found] tells
    whether the page has an element [#adm-redirect].  The listeners it
    installs are [getPosition] and [handleRedirection]. *)
Definition init_load (found : bool) : M tracker tracker_effect unit :=
  modify (fun t =>
    set_constant_params
      (mergeTwoObjects (constant_params t)
         [("w", VNum (screenX t)); ("h", VNum (screenY t))]) t) ;;;
  modify (set_aElement (Some (if found then HrefOfPage else HrefTrackerClickUrl))).

(** The arguments a call of [event.clickCustom] binds in its listener. *)
Record redirection := Redirection {
  redirect_url : string;
  redirect_params : option object;
  redirect_clickPixel : list string
}.

(** One closure made by [createEvent], with the listeners its
    [event.clickCustom] has put on elements of the creative. *)
Record closure := Closure {
  vars : tracker;
  listeners : list redirection
}.

(** [event.clickCustom(url, cssElement, params, clickPixel)], lines 329-336,
    and [event.click], line 364. *)
Definition clickCustom (url : string) (params : option object)
    (clickPixel : list string) (c : closure) : closure :=
  Closure (vars c) (listeners c ++ [Redirection url params clickPixel]).

Definition click : option object -> list string -> closure -> closure :=
  clickCustom "".

(** ** The ad object [VpaidVideoPlayer] *)

(** [this.attributes_], lines 33-46. *)
Record attributes := Attributes {
  companions : string;
  desiredBitrate : num;
  duration : num;
  expanded : bool;
  height : num;
  icons : bool;
  linear : bool;
  remainingTime : num;
  skippableState : bool;
  viewMode : string;
  width : num;
  volume : num
}.

Definition set_size (w h : num) (vm : string) (a : attributes) : attributes :=
  Attributes (companions a) (desiredBitrate a) (duration a) (expanded a) h
    (icons a) (linear a) (remainingTime a) (skippableState a) vm w (volume a).
Definition set_desiredBitrate (b : num) (a : attributes) : attributes :=
  Attributes (companions a) b (duration a) (expanded a) (height a)
    (icons a) (linear a) (remainingTime a) (skippableState a) (viewMode a)
    (width a) (volume a).
Definition set_duration (d : num) (a : attributes) : attributes :=
  Attributes (companions a) (desiredBitrate a) d (expanded a) (height a)
    (icons a) (linear a) (remainingTime a) (skippableState a) (viewMode a)
    (width a) (volume a).
Definition set_expanded (e : bool) (a : attributes) : attributes :=
  Attributes (companions a) (desiredBitrate a) (duration a) e (height a)
    (icons a) (linear a) (remainingTime a) (skippableState a) (viewMode a)
    (width a) (volume a).
Definition set_remainingTime (r : num) (a : attributes) : attributes :=
  Attributes (companions a) (desiredBitrate a) (duration a) (expanded a) (height a)
    (icons a) (linear a) r (skippableState a) (viewMode a)
    (width a) (volume a).
Definition set_volume (v : num) (a : attributes) : attributes :=
  Attributes (companions a) (desiredBitrate a) (duration a) (expanded a) (height a)
    (icons a) (linear a) (remainingTime a) (skippableState a) (viewMode a)
    (width a) v.

(** The media element: the [src], [width] and [height] attributes
    ([None]: not set; [setAttribute] stores the string of the value it is
    given, ["undefined"] for [undefined]), the pixel sizes of its style and
    its [volume] property. *)
Record video := Video {
  src : option jsval;
  attr_width : option num;
  attr_height : option num;
  style_width : option num;
  style_height : option num;
  video_volume : num
}.

(** [document.createElement('video')] *)
Definition createElement_video : video :=
  Video None None None None None (num_of_Z 1).

Definition set_src (v : jsval) (e : video) : video :=
  Video (Some v) (attr_width e) (attr_height e) (style_width e) (style_height e)
    (video_volume e).
Definition set_video_size (w h : num) (e : video) : video :=
  Video (src e) (Some w) (Some h) (Some w) (Some h) (video_volume e).
Definition set_video_volume (v : num) (e : video) : video :=
  Video (src e) (attr_width e) (attr_height e) (style_width e) (style_height e) v.

(** An entry of [videos] in the payload. *)
Record candidate := Candidate {
  candidate_url : string;
  mimetype : string
}.

(** [decodeURIComponent(parameters_.poi) || "{}"] parsed as JSON and read
    at [.id], lines 231-233: either one of these steps throws (as for a
    payload without [poi], whose decoding is the text ["undefined"]), or
    the identifier is a string or [undefined]. *)
Inductive poi_field :=
| PoiThrows (e : error)
| PoiId (id : option string).

(** [this.parameters_]: the payload parsed from
    [creativeData['AdParameters']].  [payload_config] is [config.macro];
    [None] when the payload has no [config] or no [macro] in it. *)
Record parameters := Parameters {
  videos : option (list candidate);
  poi : poi_field;
  payload_config : option macro
}.

(** [eventsCallbacks_] maps an event name to the bound callback, or to
    [null] ([None]) once [unsubscribe] has run. *)
Record player := Player {
  slot_ : bool;
  videoSlot_ : option video;
  eventsCallbacks_ : gmap string (option callback);
  attributes_ : attributes;
  intervalId_ : option nat;
  lastQuartileIndex_ : nat;
  parameters_ : parameters
}.

Definition set_slots (s : bool) (v : option video) (p : player) : player :=
  Player s v (eventsCallbacks_ p) (attributes_ p) (intervalId_ p)
    (lastQuartileIndex_ p) (parameters_ p).
Definition set_videoSlot (v : option video) (p : player) : player :=
  Player (slot_ p) v (eventsCallbacks_ p) (attributes_ p) (intervalId_ p)
    (lastQuartileIndex_ p) (parameters_ p).
Definition set_eventsCallbacks (m : gmap string (option callback)) (p : player) : player :=
  Player (slot_ p) (videoSlot_ p) m (attributes_ p) (intervalId_ p)
    (lastQuartileIndex_ p) (parameters_ p).
Definition set_attributes (a : attributes) (p : player) : player :=
  Player (slot_ p) (videoSlot_ p) (eventsCallbacks_ p) a (intervalId_ p)
    (lastQuartileIndex_ p) (parameters_ p).
Definition set_intervalId (i : option nat) (p : player) : player :=
  Player (slot_ p) (videoSlot_ p) (eventsCallbacks_ p) (attributes_ p) i
    (lastQuartileIndex_ p) (parameters_ p).
Definition set_lastQuartileIndex (i : nat) (p : player) : player :=
  Player (slot_ p) (videoSlot_ p) (eventsCallbacks_ p) (attributes_ p) (intervalId_ p)
    i (parameters_ p).
Definition set_parameters (q : parameters) (p : player) : player :=
  Player (slot_ p) (videoSlot_ p) (eventsCallbacks_ p) (attributes_ p) (intervalId_ p)
    (lastQuartileIndex_ p) q.

Definition update_attributes (f : attributes -> attributes) : M player ad_effect unit :=
  modify (fun p => set_attributes (f (attributes_ p)) p).

(** [this.quartileEvents_], lines 59-66. *)
Definition quartileEvents_ : list (string * num) :=
  [ ("AdVideoStart", num_of_Z 0);
    ("AdVideoFirstQuartile", num_of_Z 25);
    ("AdVideoMidpoint", num_of_Z 50);
    ("AdVideoThirdQuartile", num_of_Z 75);
    ("AdVideoComplete", num_of_Z 100) ].

(** The constructor, lines 4-81. *)
Definition VpaidVideoPlayer : player :=
  {| slot_ := false;
     videoSlot_ := None;
     eventsCallbacks_ := ∅;
     attributes_ :=
       {| companions := ""; desiredBitrate := num_of_Z 256;
          duration := num_of_Z 30; expanded := false; height := num_of_Z 50;
          icons := false; linear := true; remainingTime := num_of_Z 13;
          skippableState := false; viewMode := "normal";
          width := num_of_Z 50; volume := num_of_Z 1 |};
     intervalId_ := None;
     lastQuartileIndex_ := 0;
     parameters_ := Parameters None (PoiThrows SyntaxError) None |}.

(** Calling a member of [Object.prototype] without arguments:
    [__proto__] is not a function, and [__defineGetter__] and
    [__defineSetter__] reject the missing accessor; the others return. *)
Definition call_inherited {S E} (name : string) : M S E unit :=
  if bool_decide (name ∈ ["__proto__"; "__defineGetter__"; "__defineSetter__"])
  then throw TypeError
  else ret tt.

(** [this.eventsCallbacks_[name]()]: calling [null] or [undefined] throws. *)
Definition call_callback (name : string) : M player ad_effect unit :=
  p <- get ;;
  match eventsCallbacks_ p !! name with
  | Some (Some cb) => emit (Invoke name cb)
  | Some None => throw TypeError
  | None => if inherited name then call_inherited name else throw TypeError
  end.

(** [callEvent_(eventType)], lines 780-784. *)
Definition callEvent_ (eventType : string) : M player ad_effect unit :=
  p <- get ;;
  if js_in eventType (eventsCallbacks_ p) then call_callback eventType
  else ret tt.

(** [subscribe(aCallback, eventName, aContext)], lines 688-695, and
    [unsubscribe(eventName)], lines 703-706.  (The name [__proto__], whose
    assignment replaces the prototype of the object, is not modelled.) *)
Definition subscribe (aCallback : callback) (eventName : string) : M player ad_effect unit :=
  modify (fun p =>
    set_eventsCallbacks (<[eventName := Some aCallback]> (eventsCallbacks_ p)) p).

Definition unsubscribe (eventName : string) : M player ad_effect unit :=
  modify (fun p =>
    set_eventsCallbacks (<[eventName := None]> (eventsCallbacks_ p)) p).

(** [this.videoSlot_] where a property or method of it is used: a
    [TypeError] when it is [null]. *)
Definition the_videoSlot : M player ad_effect video :=
  p <- get ;;
  match videoSlot_ p with
  | Some v => ret v
  | None => throw TypeError
  end.

Definition update_videoSlot (f : video -> video) : M player ad_effect unit :=
  v <- the_videoSlot ;;
  modify (set_videoSlot (Some (f v))).

(** An entry of [poiList], line 229: a city, its geohash and three audio
    files. *)
Record poi_entry := PoiEntry {
  c : string;
  entry_poi : string;
  lom1 : string;
  lom2 : string;
  lom3 : string
}.

(** The one audio file that every entry of the table names three times. *)
Definition agen_lom1 : string :=
  "https://assets.adotmob.com/Audi/111023/audio/AGEN+-+AUDI+JMA+A3+TFSIE+25%2B5+LOM1+29.09.23.mp3".

Definition entry (c poi : string) : poi_entry :=
  PoiEntry c poi agen_lom1 agen_lom1 agen_lom1.

(** [poiList], line 229, in the order of the source. *)
Definition poiList : list poi_entry :=
  [ entry "AGEN" "spb7mc5cxgfp";
    entry "AIX EN PROVENCE" "speze074p4bt";
    entry "ALBI" "spc9b9qetsuy";
    entry "ALENCON" "u085dennpuq8";
    entry "ANGERS" "gbrw1fjfn2qt";
    entry "ANGOULEME" "u005uhg9gw0s";
    entry "ANNECY" "u0hkccc4tj6k";
    entry "ANNEMASSE" "u0hqydzb34j2";
    entry "ARLES" "spg29se8wsw0";
    entry "AUBAGNE" "speyr2fjgvx3";
    entry "AUXERRE" "u06xcp594zeu";
    entry "AVIGNON" "spg3yhrm1pvv";
    entry "BASTIA" "spwdqtzu9zgh";
    entry "BAYONNE" "ezwzjzxwem1q";
    entry "BEAUVAIS" "u0c9201gzs5n";
    entry "BELFORT" "u0kzh880cyk3";
    entry "BESANCON" "u0khx6gcfyhy";
    entry "BEZIERS" "spdqd5ke9yew";
    entry "BLOIS" "u02yyk2344nm";
    entry "BORDEAUX" "ezzxk832b5xr";
    entry "BORDEAUX" "ezzx02hqdf66";
    entry "BOULOGNE SUR MER" "u110kskk4fh1";
    entry "BOURG EN BRESSE" "u05wxfrztdw3";
    entry "BOURGES" "u03sn12y6n4u";
    entry "BOURGOIN JALLIEU" "u05erdv9xr70";
    entry "BREST" "gbsg6mc3xzyr";
    entry "BRIE COMTE ROBERT" "u09v51v66rb8";
    entry "BRIVE LA GAILLARDE" "u010c6ruuger";
    entry "BRUAY LA BUISSIERE" "u0cz68zv5p5u";
    entry "CAEN" "gbxz86ugjhtv";
    entry "CANNES" "spubne6g0svu";
    entry "CARCASSONNE" "sp9tud85qr61";
    entry "CASTRES" "sp9xfpmn0672";
    entry "CESSY" "u0hr6n6ptbsg";
    entry "CHALON SUR SAONE" "u076ndj35ukn";
    entry "CHAMBERY" "u0h5mzmbbkvk";
    entry "CHAMBOURCY" "u09qnx4gyseh";
    entry "CHANGE" "u0952ynqfk6m";
    entry "CHARTRES" "u034pn2kcdnr";
    entry "CHATEAUROUX" "u0e9t44u4gsc";
    entry "CHAUMONT" "gbr7e1w2we6d";
    entry "CHOLET" "u04hr92fm2zu";
    entry "CLERMONT FERRAND" "u0t1xvv47f1q";
    entry "COLMAR" "u0ccp4743pm8";
    entry "COMPIEGNE" "u0cb0490424f";
    entry "CREIL" "ezz0z0wgmer8";
    entry "DAX" "u07t41nzps3q";
    entry "DIJON" "u0fnquts8kez";
    entry "DOUAI" "u08vq9h4npbm";
    entry "DREUX" "u11dm8wbr989";
    entry "DUNKERQUE" "u0sd5p05xm6r";
    entry "EPINAL" "u08ygj13uywd";
    entry "EVREUX" "u09grp0k9wv2";
    entry "FONTAINEBLEAU" "spsz0mfehnn6";
    entry "FREJUS" "spume42hvv5x";
    entry "GAP" "u0h0cgw5puz1";
    entry "GRENOBLE" "u0tt9dcwv33v";
    entry "HAGUENAU" "u11b96mx6wsb";
    entry "HAZEBROUCK" "gbqcz97u1h98";
    entry "LA ROCHE SUR YON" "gbpnw01cjg4k";
    entry "LA ROCHELLE" "gbtt1zee3zkn";
    entry "LANNION" "u0fd51zexqbr";
    entry "LAON" "gbx3wfwd2v42";
    entry "Le Havre" "u0b1e6kmwz1h";
    entry "LE MANS" "u080v1rzbnbq";
    entry "LE PUY EN VELAY" "u04b645v4pd4";
    entry "LENS" "u0cyxzn8mn09";
    entry "LES ULIS" "u09scvq45sk6";
    entry "LILLE" "u140p54kuxev";
    entry "LIMOGES" "u00vj16yfqp3";
    entry "LIMONEST" "u05ksd6wufep";
    entry "LONS LE SAUNIER" "u07cx0c7td5e";
    entry "LORIENT" "gbmxu48c137k";
    entry "LYON" "u05kn6hkpbrs";
    entry "MACON" "u05rm6hhqjz9";
    entry "MARNE LA VALLEE" "u09vuy8sw8r5";
    entry "MARSEILLE" "speyk1nmw3qf";
    entry "MEAUX" "u0dn3kng2bkz";
    entry "MELUN" "u09uk18vdgk5";
    entry "METZ" "u0sr5jfpjxpu";
    entry "MONACO" "spv2b8y2y2fd";
    entry "MONT DE MARSAN" "ezz9vuh05t43";
    entry "MONTARGIS" "u09by5xmrtft";
    entry "MONTAUBAN" "spbfq2hns1b3";
    entry "MONTIGNY LE BRETONNE" "u09mmz52w1kt";
    entry "MONTPELLIER" "spdzbjj456sg";
    entry "MONTROUGE" "u09tszm1get1";
    entry "MORLAIX" "gbtk262p2160";
    entry "MULHOUSE" "u0mpzcvcxt4h";
    entry "NANCY" "u0skgxbm0u4w";
    entry "NANTES" "gbqug4fkbctq";
    entry "NARBONNE" "spdjefvu6wr5";
    entry "NEVERS" "u065r49z3v5q";
    entry "NICE" "spv0t4wqznfv";
    entry "NICE" "spv0ech3fd2j";
    entry "NIMES" "spg168jkp49n";
    entry "ORLEANS" "u092ejjv8zr4";
    entry "PAMIERS" "sp9jjp7w2c1n";
    entry "PARIS" "u09tyu2ceec2";
    entry "PARIS 15" "u09tu4vy0h01";
    entry "PARIS 16" "u09tg6gmtqn3";
    entry "PARIS 17" "u09wh6svjbhc";
    entry "PAU" "ezxwqp00d3kc";
    entry "PERIGUEUX" "u0094jp8m8d9";
    entry "PERPIGNAN" "spd4cbhqe0nn";
    entry "POITIERS" "u020z48y1pvr";
    entry "PONTARLIER" "u0kdbk1fu9dk";
    entry "PONTOISE" "u09qzrguvryd";
    entry "QUIMPER" "gbt0unvgwp6y";
    entry "REIMS" "u0fbhgjgr7er";
    entry "RENNES" "gbwcejnqdz47";
    entry "RIVERY" "u0cevq1jhwz0";
    entry "ROANNE" "u04vv1sv81g7";
    entry "RODEZ" "spcu3yk02cc2";
    entry "ROISSY EN FRANCE" "u09y9r7w9pxf";
    entry "ROUEN" "u0bc23tp699g";
    entry "ROYAN" "gbp7bbkhcd9r";
    entry "RUEIL MALMAISON" "u09w1g5234ts";
    entry "SAINT MALO" "gbw5cy9m2zty";
    entry "SAINT NAZAIRE" "u054etxv57kd";
    entry "SAINT OUEN" "gbxpr60j3jt4";
    entry "SAINT VICTORET" "gbwsdg3xdnuu";
    entry "SARREGUEMINES" "u09v8m4kfspq";
    entry "ST BRIEUC" "gbqmnqcmkm8y";
    entry "ST MAUR DES FOSSES" "u09wjr2c4h7m";
    entry "ST PRIEST EN JAREZ" "spexp042nmvf";
    entry "STLO" "u0tp3kxf7h30";
    entry "STRASBOURG" "u0tkxg5tkudn";
    entry "TARBES" "sp8jcgyubw7r";
    entry "THIONVILLE" "u0u2snt3jz0s";
    entry "TOULON" "spsm3htxnkj5";
    entry "TOULOUSE" "sp9pdf7zp6hg";
    entry "TOULOUSE" "spc00x9x1vms";
    entry "TOURS" "u02mz4kxdy31";
    entry "TROYES" "u0dfs5qrqzwm";
    entry "VALENCE" "spgx84jwbrh3";
    entry "VALENCIENNES" "u0fw8v2g6yr6";
    entry "VANNES" "gbqp0tg83kdk";
    entry "VELIZY VILLACOUBLAY" "u09t98r9xhex";
    entry "VESOUL" "u0krh06e0gc7";
    entry "VICHY" "u04qmdyjbs8u";
    entry "VILLEFRANCHE SUR SAONE" "u05meuv2mnhd";
    entry "VIRE" "gbxmupekgu50";
    entry "VIRY CHATILLON" "u09syjwph181" ].

(** [elem["lom" + rndInt]] *)
Definition lom (rndInt : Z) (elem : poi_entry) : jsval :=
  match rndInt with
  | 1 => VStr (lom1 elem)
  | 2 => VStr (lom2 elem)
  | 3 => VStr (lom3 elem)
  | _ => VUndefined
  end.

(** [elem.poi == poiId] *)
Definition poi_matches (elem : poi_entry) (poiId : option string) : bool :=
  match poiId with
  | Some id => String.eqb (entry_poi elem) id
  | None => false
  end.

(** [changeAudioByPoi()], lines 241-247, over a table: the value left in
    [audioToUse], which starts [undefined]. *)
Definition changeAudioByPoi (table : list poi_entry) (poiId : option string)
    (rndInt : Z) : jsval :=
  fold_left
    (fun audioToUse elem =>
       if poi_matches elem poiId then lom rndInt elem else audioToUse)
    table VUndefined.

(** The page: the ad object and the closures that its [startAd] calls have
    made, which live on in the listeners and timers of the page. *)
Record page := Page {
  ad : player;
  closures : list closure
}.

(** The effects of a page, each with its origin. *)
Inductive effect :=
| OfAd (e : ad_effect)
| OfClosure (i : nat) (e : tracker_effect).

Definition lift_ad {A} (m : M player ad_effect A) : M page effect A :=
  fun s =>
    let r := m (ad s) in
    Result (Page (post r) (closures s)) (map OfAd (emitted r)) (outcome r).

(** A handler of the [i]-th closure; nothing runs when there is none. *)
Definition on_closure (i : nat) (m : M tracker tracker_effect unit) : M page effect unit :=
  fun s =>
    match closures s !! i with
    | Some c =>
        let r := m (vars c) in
        Result (Page (ad s) (<[i := Closure (post r) (listeners c)]> (closures s)))
          (map (OfClosure i) (emitted r)) (outcome r)
    | None => Result s [] (Normal tt)
    end.

Section Methods.

(** [canPlayType] of the media elements of the browser. *)
Variable canPlayType : string -> string.

(** The loop of lines 182-189: the first video with a supported mimetype. *)
Fixpoint first_supported (videos : list candidate) : option candidate :=
  match videos with
  | [] => None
  | v :: rest =>
      if negb (String.eqb (canPlayType (mimetype v)) "") then Some v
      else first_supported rest
  end.

(** [updateVideoSlot_()], lines 171-194. *)
Definition updateVideoSlot_ : M player ad_effect unit :=
  p <- get ;;
  (match videoSlot_ p with
   | None =>
       modify (set_videoSlot (Some createElement_video)) ;;;
       if slot_ p then ret tt else throw TypeError
   | Some _ => ret tt
   end) ;;;
  p <- get ;;
  match first_supported (default [] (videos (parameters_ p))) with
  | Some v => update_videoSlot (set_src (VStr (candidate_url v)))
  | None => callEvent_ "AdError"
  end.

(** [environmentVars]: whether a slot is given, and the video slot. *)
Record environmentVars := EnvironmentVars {
  env_slot : bool;
  env_videoSlot : option video
}.

(** [initAd], lines 96-130; [creativeData] is what [JSON.parse] makes of
    [creativeData['AdParameters']], [None] when it throws. *)
Definition initAd (width height : num) (viewMode : string) (desiredBitrate : num)
    (creativeData : option parameters) (env : environmentVars) : M player ad_effect unit :=
  update_attributes (set_size width height viewMode) ;;;
  update_attributes (set_desiredBitrate desiredBitrate) ;;;
  modify (set_slots (env_slot env) (env_videoSlot env)) ;;;
  match creativeData with
  | None => throw SyntaxError
  | Some q =>
      modify (set_parameters q) ;;;
      updateVideoSlot_ ;;;
      callEvent_ "AdLoaded"
  end.

(** [overlayOnClick_()], lines 137-141. *)
Definition overlayOnClick_ : M player ad_effect unit :=
  p <- get ;;
  if js_in "AdClickThru" (eventsCallbacks_ p) then call_callback "AdClickThru"
  else ret tt.

(** [currentTime * 100.0 / duration], line 155, in doubles. *)
Definition percentPlayed (currentTime video_duration : num) : double :=
  double_div (double_mul (to_double currentTime) (double_of_Z 100))
    (to_double video_duration).

(** [timeUpdateHandler_()], lines 148-165, with the [currentTime] and
    [duration] that [this.videoSlot_] shows when it runs. *)
Definition timeUpdateHandler_ (currentTime video_duration : num) : M player ad_effect unit :=
  the_videoSlot ;;;
  update_attributes (set_remainingTime (num_sub video_duration currentTime)) ;;;
  p <- get ;;
  if (length quartileEvents_ <=? lastQuartileIndex_ p)%nat then ret tt
  else
    let percent := percentPlayed currentTime video_duration in
    (match quartileEvents_ !! lastQuartileIndex_ p with
     | Some (lastQuartileEvent, value) =>
         if double_geb percent (to_double value) then
           call_callback lastQuartileEvent ;;;
           modify (fun p => set_lastQuartileIndex (lastQuartileIndex_ p + 1) p)
         else ret tt
     | None => throw TypeError
     end) ;;;
    p <- get ;;
    if negb (num_eqb (duration (attributes_ p)) video_duration) then
      update_attributes (set_duration video_duration) ;;;
      callEvent_ "AdDurationChange"
    else ret tt.

(** [updateVideoPlayerSize_()], lines 201-208. *)
Definition updateVideoPlayerSize_ : M player ad_effect unit :=
  try_catch
    (p <- get ;;
     update_videoSlot
       (set_video_size (width (attributes_ p)) (height (attributes_ p)))).

(** [startAd()], lines 224-547.  [random] is what [Math.random()] returns,
    [created] and [fired] the clock when [createEvent] starts and when its
    first event is sent, [screenX] and [screenY] the viewport. *)
Definition startAd (random : Q) (created fired : Z) (screenX screenY : num)
    : M page effect unit :=
  s <- get ;;
  poiId <- match poi (parameters_ (ad s)) with
           | PoiThrows e => throw e
           | PoiId id => ret id
           end ;;
  let rndInt := (Qfloor (random * 3) + 1)%Z in
  let audioToUse := changeAudioByPoi poiList poiId rndInt in
  lift_ad (update_videoSlot (set_src audioToUse)) ;;;
  lift_ad (the_videoSlot ;;; emit Play) ;;;
  match payload_config (parameters_ (ad s)) with
  | None => throw TypeError
  | Some configAdm =>
      modify (fun s =>
        Page (ad s)
          (closures s ++ [Closure (createEvent configAdm created screenX screenY) []])) ;;;
      on_closure (length (closures s)) (trigger "loaded_imp" (Some "i") None fired) ;;;
      lift_ad (callEvent_ "AdStarted") ;;;
      lift_ad (callEvent_ "AdImpression")
  end.

(** [stopAd()], lines 553-562, and what its timeout runs 75 ms later:
    [callEvent_(['AdStopped'])], whose array argument reads as the name. *)
Definition stopAd : M player ad_effect unit :=
  p <- get ;;
  (match intervalId_ p with
   | Some id => if (id =? 0)%nat then ret tt else emit (ClearInterval id)
   | None => ret tt
   end) ;;;
  emit (SetTimeout 75).

Definition stopAd_timeout : M player ad_effect unit := callEvent_ "AdStopped".

(** [setAdVolume(value)], lines 568-573.  The [volume] property of a media
    element refuses a value outside [0, 1] with an [IndexSizeError], and a
    value that is not finite with a [TypeError]. *)
Definition assign_volume (v : num) : M player ad_effect unit :=
  the_videoSlot ;;;
  match v with
  | Fin _ =>
      if num_leb (num_of_Z 0) v && num_leb v (num_of_Z 1)
      then update_videoSlot (set_video_volume v)
      else throw IndexSizeError
  | _ => throw TypeError
  end.

Definition setAdVolume (value : num) : M player ad_effect unit :=
  update_attributes (set_volume value) ;;;
  assign_volume (num_div value (num_of_Z 100)) ;;;
  callEvent_ "AdVolumeChange".

(** [getAdVolume()], lines 579-582. *)
Definition getAdVolume (p : player) : num := volume (attributes_ p).

(** [resizeAd], lines 590-597. *)
Definition resizeAd (width height : num) (viewMode : string) : M player ad_effect unit :=
  update_attributes (set_size width height viewMode) ;;;
  updateVideoPlayerSize_ ;;;
  callEvent_ "AdSizeChange".

(** [pauseAd()], lines 603-610; it is also the listener of [ended]. *)
Definition pauseAd : M player ad_effect unit :=
  the_videoSlot ;;;
  emit Pause ;;;
  callEvent_ "AdPaused" ;;;
  p <- get ;;
  match intervalId_ p with
  | Some id => if (id =? 0)%nat then ret tt else emit (ClearInterval id)
  | None => ret tt
  end.

(** [resumeAd()], lines 616-625: [id] is what [setInterval] returns; and
    the callback the interval runs every 250 ms. *)
Definition resumeAd (id : nat) : M player ad_effect unit :=
  the_videoSlot ;;;
  emit Play ;;;
  callEvent_ "AdPlaying" ;;;
  emit (SetInterval id 250) ;;;
  modify (set_intervalId (Some id)).

Definition resumeAd_interval : M player ad_effect unit :=
  p <- get ;;
  update_attributes
    (set_remainingTime (num_sub (remainingTime (attributes_ p)) (Fin (1 # 4)))) ;;;
  callEvent_ "AdRemainingTimeChange".

(** [expandAd()], lines 631-638: nothing binds [elem]. *)
Definition expandAd : M player ad_effect unit :=
  update_attributes (set_expanded true) ;;;
  reference "elem" ["VpaidVideoPlayer"; "getVPAIDAd"] ;;;
  callEvent_ "AdExpanded".

(** [collapseAd()], lines 664-667, and [skipAd()], lines 673-679. *)
Definition collapseAd : M player ad_effect unit :=
  update_attributes (set_expanded false).

Definition skipAd : M player ad_effect unit :=
  p <- get ;;
  if skippableState (attributes_ p) then callEvent_ "AdSkipped" else ret tt.

(** [muteButtonOnClick_()], lines 791-800. *)
Definition muteButtonOnClick_ : M player ad_effect unit :=
  p <- get ;;
  (if num_eqb (volume (attributes_ p)) (num_of_Z 0) then
     update_attributes (set_volume (num_of_Z 1)) ;;;
     assign_volume (num_of_Z 1)
   else
     update_attributes (set_volume (num_of_Z 0)) ;;;
     assign_volume (num_of_Z 0)) ;;;
  callEvent_ "AdVolumeChange".

(** [videoResume_()], lines 807-809, the listener of [play]. *)
Definition videoResume_ : M player ad_effect unit := ret tt.

End Methods.

(** ** The session *)

(** What can happen to the page: a call of the wrapper on the ad, or the
    browser running a listener or a timer the script has installed.  The
    getters of the ad change nothing and are left out. *)
Inductive input :=
| Call_initAd (width height : num) (viewMode : string) (desiredBitrate : num)
    (creativeData : option parameters) (env : environmentVars)
| Call_startAd (random : Q) (created fired : Z) (screenX screenY : num)
| Call_stopAd
| Call_setAdVolume (value : num)
| Call_resizeAd (width height : num) (viewMode : string)
| Call_pauseAd
| Call_resumeAd (id : nat)
| Call_expandAd
| Call_collapseAd
| Call_skipAd
| Call_subscribe (aCallback : callback) (eventName : string)
| Call_unsubscribe (eventName : string)
| On_timeupdate (currentTime video_duration : num)
| On_ended
| On_play
| On_stopAd_timeout
| On_resumeAd_interval
| On_overlayClick
| On_muteButtonClick
| On_DOMContentLoaded (i : nat) (found : bool)
| On_interaction (i : nat) (evt : dom_event)
| On_anchorClick (i : nat)
| On_elementClick (i k : nat) (now : Z).

(** A click on the element of the [k]-th listener of the [i]-th closure. *)
Definition elementClick (i k : nat) (now : Z) : M page effect unit :=
  s <- get ;;
  match closures s !! i with
  | Some c =>
      match listeners c !! k with
      | Some r =>
          on_closure i
            (triggerRedirection (redirect_url r) (redirect_params r)
               (redirect_clickPixel r) now)
      | None => ret tt
      end
  | None => ret tt
  end.

Definition handle (canPlayType : string -> string) (i : input) : M page effect unit :=
  match i with
  | Call_initAd w h vm br cd env => lift_ad (initAd canPlayType w h vm br cd env)
  | Call_startAd random created fired sx sy => startAd random created fired sx sy
  | Call_stopAd => lift_ad stopAd
  | Call_setAdVolume v => lift_ad (setAdVolume v)
  | Call_resizeAd w h vm => lift_ad (resizeAd w h vm)
  | Call_pauseAd => lift_ad pauseAd
  | Call_resumeAd id => lift_ad (resumeAd id)
  | Call_expandAd => lift_ad expandAd
  | Call_collapseAd => lift_ad collapseAd
  | Call_skipAd => lift_ad skipAd
  | Call_subscribe cb name => lift_ad (subscribe cb name)
  | Call_unsubscribe name => lift_ad (unsubscribe name)
  | On_timeupdate ct d => lift_ad (timeUpdateHandler_ ct d)
  | On_ended => lift_ad pauseAd
  | On_play => lift_ad videoResume_
  | On_stopAd_timeout => lift_ad stopAd_timeout
  | On_resumeAd_interval => lift_ad resumeAd_interval
  | On_overlayClick => lift_ad overlayOnClick_
  | On_muteButtonClick => lift_ad muteButtonOnClick_
  | On_DOMContentLoaded i found => on_closure i (init_load found)
  | On_interaction i evt => on_closure i (getPosition evt)
  | On_anchorClick i => on_closure i handleRedirection
  | On_elementClick i k now => elementClick i k now
  end.

(** The page when [getVPAIDAd()] has returned a new ad. *)
Definition getVPAIDAd : page := Page VpaidVideoPlayer [].

Definition session (canPlayType : string -> string) (inputs : list input)
    (s : page) : page * list effect :=
  run_all (map (handle canPlayType) inputs) s.

(** The handlers of one closure, for sessions seen from inside it. *)
Inductive closure_op :=
| Trigger (eventName : string) (eventType : option string)
    (params : option object) (now : Z)
| GetPosition (evt : dom_event)
| HandleRedirection
| Init_load (found : bool)
| TriggerRedirection (url : string) (params : option object)
    (clickPixel : list string) (now : Z).

Definition closure_handle (op : closure_op) : M tracker tracker_effect unit :=
  match op with
  | Trigger name ty params now => trigger name ty params now
  | GetPosition evt => getPosition evt
  | HandleRedirection => handleRedirection
  | Init_load found => init_load found
  | TriggerRedirection url params clickPixel now =>
      triggerRedirection url params clickPixel now
  end.

(** ** Vocabulary of the properties *)

(** The names of the quartile events that a trace shows were called. *)
Definition is_quartile (name : string) : bool :=
  bool_decide (name ∈ map fst quartileEvents_).

Fixpoint fired_quartiles (es : list effect) : list string :=
  match es with
  | [] => []
  | OfAd (Invoke name _) :: es' =>
      if is_quartile name then name :: fired_quartiles es' else fired_quartiles es'
  | _ :: es' => fired_quartiles es'
  end.


Definition is_timeupdate (i : input) : bool :=
  match i with
  | On_timeupdate _ _ => true
  | _ => false
  end.

(** The events [from] to [to] (excluded) of the quartile table. *)
Definition quartiles_between (from to : nat) : list string :=
  map fst (take (to - from) (drop from quartileEvents_)).

(** The specification's [onProgress], in its words: while the cursor is
    within bounds and the percent has reached the threshold under it,
    dispatch that event and advance. *)
Fixpoint spec_dispatch (percent : double) (thresholds : list (string * num))
    : list string :=
  match thresholds with
  | [] => []
  | (event, value) :: rest =>
      if double_geb percent (to_double value) then event :: spec_dispatch percent rest
      else []
  end.

Definition spec_onProgress (currentTime video_duration : num) (cursor : nat)
    : list string :=
  spec_dispatch (percentPlayed currentTime video_duration)
    (drop cursor quartileEvents_).

(** The confirmation pixels in a trace of a closure. *)
Definition is_confirm (e : tracker_effect) : bool :=
  match e with
  | LoadPixel (ConfirmPixel _) => true
  | _ => false
  end.

Definition confirmations (es : list tracker_effect) : nat :=
  length (filter (fun e => is_confirm e = true) es).

Definition is_confirm_of_page (e : effect) : bool :=
  match e with
  | OfClosure _ e' => is_confirm e'
  | OfAd _ => false
  end.

(** [z] is the integer nearest to [x], the upper one at a tie. *)
Definition nearest_integer (x : Q) (z : Z) : Prop :=
  (inject_Z z - (1 # 2) <= x)%Q /\ (x < inject_Z z + (1 # 2))%Q.

(** The seconds from [start] to [now], both in milliseconds, clamped. *)
Definition clamped_seconds (start now : Z) : Q :=
  Qmin (inject_Z (now - start) / 1000) 3000.

(** A number of the interval [0, 1]. *)
Definition in_unit_interval (n : num) : bool :=
  num_leb (num_of_Z 0) n && num_leb n (num_of_Z 1).

(** The stored volume that an input leaves, from the one it finds:
    [setAdVolume] and the mute button are the two that write it. *)
Definition volume_after (i : input) (volume : num) : num :=
  match i with
  | Call_setAdVolume value => value
  | On_muteButtonClick =>
      if num_eqb volume (num_of_Z 0) then num_of_Z 1 else num_of_Z 0
  | _ => volume
  end.

(** No subscription of the event was cleared by [unsubscribe]. *)
Definition not_cleared (name : string) (p : player) : Prop :=
  eventsCallbacks_ p !! name <> Some None.


(** The identifier has no entry in the table. *)
Definition no_entry (table : list poi_entry) (poiId : option string) : Prop :=
  forall elem, elem ∈ table -> poi_matches elem poiId = false.

(** [m] keeps the invariant [I] of the state, whether it returns or throws,
    and all the effects it has satisfy [X]. *)
Definition hoare {S E A} (I : S -> Prop) (X : E -> Prop) (m : M S E A) : Prop :=
  forall s, I s -> I (post (m s)) /\ Forall X (emitted (m s)).

(** Whether an object has the key. *)
Definition has_key (k : string) (o : object) : bool :=
  existsb (fun kv => String.eqb k (fst kv)) o.

(** The event pixels of one name in a trace of a closure. *)
Definition is_event_pixel (name : string) (e : tracker_effect) : bool :=
  match e with
  | LoadPixel (EventPixel name' _) => String.eqb name name'
  | _ => false
  end.

Definition event_pixels (name : string) (es : list tracker_effect) : nat :=
  length (filter (fun e => is_event_pixel name e = true) es).

(** The elapsed-time parameter of an event pixel is the integer nearest
    to the clamped seconds between [start] and [now]. *)
Definition elapsed_time_ok (start now : Z) (e : tracker_effect) : Prop :=
  match e with
  | LoadPixel (EventPixel _ query) =>
      exists z, obj_get "t" query = VNum (num_of_Z z) /\
                nearest_integer (clamped_seconds start now) z
  | _ => True
  end.

(** The calls of [event.trigger] for one name among the handlers run. *)
Definition is_trigger_of (name : string) (op : closure_op) : bool :=
  match op with
  | Trigger name' _ _ _ => String.eqb name name'
  | _ => false
  end.

Definition occurrences (name : string) (ops : list closure_op) : nat :=
  length (filter (fun op => is_trigger_of name op = true) ops).

(** The event type that the first call of [event.trigger] for the name
    passes among the handlers run; the record of the event keeps it. *)
Fixpoint first_type (name : string) (ops : list closure_op) : option string :=
  match ops with
  | [] => None
  | Trigger name' eventType _ _ :: ops' =>
      if String.eqb name name' then Some (effective_type eventType)
      else first_type name ops'
  | _ :: ops' => first_type name ops'
  end.

(** Every call of [event.trigger] for the name passes this event type. *)
Definition all_of_type (name ty : string) (ops : list closure_op) : Prop :=
  forall name' eventType params now,
    Trigger name' eventType params now ∈ ops -> name' = name ->
    effective_type eventType = ty.

(** The elapsed-time parameter of an event pixel is [z]. *)
Definition elapsed_time_is (z : Z) (e : tracker_effect) : Prop :=
  match e with
  | LoadPixel (EventPixel _ query) => obj_get "t" query = VNum (num_of_Z z)
  | _ => True
  end.

(** How many times an event of the type may fire: line 297. *)
Definition fire_limit (ty : string) : nat :=
  if String.eqb ty "i" then 30 else 1.

(** What [eventAlreadyFired] holds of an event of type [ty] that was
    triggered [k] times. *)
Definition counted (name ty : string) (k : nat) (t : tracker) : Prop :=
  match k with
  | O => eventAlreadyFired t !! name = None
  | S _ =>
      exists r, eventAlreadyFired t !! name = Some r /\
                obj_get "et" r = VStr ty /\
                (ty = "i" ->
                 obj_get "ni" r = VNum (num_of_Z (Z.of_nat (Nat.min k 30))))
  end.

(** The clicks the gate may still let through: one until it is consumed. *)
Definition unconsumed (t : tracker) : nat :=
  if alreadyClicked t then 0 else 1.

(** No closure of the page is armed, and none has an arming listener. *)
Definition all_idle (s : page) : Prop :=
  Forall (fun c => allowRedirect (vars c) = false /\ listeners c = []) (closures s).

(** An effect of the ad that is not the call of a quartile event. *)
Definition no_quartile (e : ad_effect) : Prop :=
  match e with
  | Invoke name _ => is_quartile name = false
  | _ => True
  end.

(** The computation neither moves the quartile cursor nor calls a
    quartile event. *)
Definition quiet {A} (m : M player ad_effect A) : Prop :=
  forall n, hoare (fun p => lastQuartileIndex_ p = n) no_quartile m.

(** The same, for an effect of the page. *)
Definition no_quartile_of_page (e : effect) : Prop :=
  match e with
  | OfAd e' => no_quartile e'
  | OfClosure _ _ => True
  end.

(** The quartile events called, in a trace of the ad alone. *)
Fixpoint fired_ad (es : list ad_effect) : list string :=
  match es with
  | [] => []
  | Invoke name _ :: es' =>
      if is_quartile name then name :: fired_ad es' else fired_ad es'
  | _ :: es' => fired_ad es'
  end.

(** From the cursor [a] a computation has moved the cursor by at most one
    and called exactly the quartile events it has passed. *)
Definition advanced {A} (a : nat) (r : result player ad_effect A) : Prop :=
  fired_ad (emitted r) = quartiles_between a (lastQuartileIndex_ (post r)) /\
  (a <= lastQuartileIndex_ (post r) <= a + 1)%nat.

(** The number of progress ticks among the inputs. *)
Definition ticks (inputs : list input) : nat :=
  length (filter (fun i => is_timeupdate i = true) inputs).


(** An effect of the page that is not the call of the named event. *)
Definition not_invoking (name : string) (e : effect) : Prop :=
  match e with
  | OfAd (Invoke name' _) => String.eqb name name' = false
  | _ => True
  end.

(** As long as the latch [alreadyClicked] is open, no click was recorded. *)
Definition latch_open (t : tracker) : Prop :=
  alreadyClicked t = false -> eventAlreadyFired t !! "click" = None.

(** An effect of the page that is not the load of a confirmation pixel. *)
Definition no_confirmation (e : effect) : Prop := is_confirm_of_page e = false.

(** The quartile cursor of the ad of the page is [n]. *)
Definition cursor_at (n : nat) (s : page) : Prop := lastQuartileIndex_ (ad s) = n.

(** The stored volume is in [0, 1]. *)
Definition volume_ok (p : player) : Prop :=
  in_unit_interval (volume (attributes_ p)) = true.


(** ** The getters of the ad and the other members of the closure *)

(** The getters, lines 645-658 and 712-762. *)
Definition getAdExpanded (p : player) : bool := expanded (attributes_ p).
Definition getAdSkippableState (p : player) : bool := skippableState (attributes_ p).
Definition getAdWidth (p : player) : num := width (attributes_ p).
Definition getAdHeight (p : player) : num := height (attributes_ p).
Definition getAdRemainingTime (p : player) : num := remainingTime (attributes_ p).
Definition getAdDuration (p : player) : num := duration (attributes_ p).
Definition getAdCompanions (p : player) : string := companions (attributes_ p).
Definition getAdIcons (p : player) : bool := icons (attributes_ p).
Definition getAdLinear (p : player) : bool := linear (attributes_ p).

(** [event.setParam(fromObject)], line 381: [mergeTwoObjects] bound to
    [constant_params], which it extends in place and returns. *)
Definition setParam (fromObject : object) : M tracker tracker_effect object :=
  modify (fun t =>
    set_constant_params (mergeTwoObjects (constant_params t) fromObject) t) ;;;
  t <- get ;;
  ret (constant_params t).

(** [event.setTimer(interval)], lines 369-378: the timeouts it sets, each
    with its delay in milliseconds and the callback that the timeout runs,
    at the time [now].  [None] stands for an argument left out (or falsy);
    the intervals are whole numbers of seconds (below 1e21, where
    JavaScript prints all the digits of a number). *)
Definition setTimer (interval : option (list Z))
    : list (Z * (Z -> M tracker tracker_effect unit)) :=
  map
    (fun x =>
       (x * 1000,
        fun now => trigger ("time-" +:+ string_of_Z x +:+ "s") (Some "t") None now))
    (default [3; 6; 9; 12; 20] interval).

(** ** Vocabulary of the further properties *)

(** The keys of an object, in the order [for (key in object)] visits them. *)
Definition keys (o : object) : list string := map fst o.

(** A key that starts with a digit (a character of code 48 to 57).
    [for (key in object)] visits the keys that are array indices first, in
    numeric order, and then the others in the order of their creation,
    which is the order the lists of [object] keep: the order of the keys is
    read from the list only when no key starts with a digit. *)
Definition index_like (k : string) : bool :=
  match k with
  | String c _ =>
      (48 <=? Ascii.nat_of_ascii c)%nat && (Ascii.nat_of_ascii c <=? 57)%nat
  | EmptyString => false
  end.

Definition no_index (o : object) : Prop :=
  Forall (fun k => index_like k = false) (keys o).

(** What dispatching an event shows to the wrapper: the call of the
    callback bound to the name, if one is. *)
Definition dispatched (name : string) (p : player) : list ad_effect :=
  match eventsCallbacks_ p !! name with
  | Some (Some cb) => [Invoke name cb]
  | _ => []
  end.





(** The attributes that no method writes. *)
Definition fixed_attributes (p : player) : Prop :=
  getAdSkippableState p = false /\ getAdLinear p = true /\
  getAdIcons p = false /\ getAdCompanions p = "".

(** An effect of the ad that is the call of neither event. *)
Definition neither (name name' : string) (e : ad_effect) : Prop :=
  not_invoking name (OfAd e) /\ not_invoking name' (OfAd e).

(** A property of the effects of the ad, for the effects of the page. *)
Definition of_the_ad (X : ad_effect -> Prop) (e : effect) : Prop :=
  match e with
  | OfAd e' => X e'
  | OfClosure _ _ => True
  end.

Definition of_the_closures (X : tracker_effect -> Prop) (e : effect) : Prop :=
  match e with
  | OfClosure _ e' => X e'
  | OfAd _ => True
  end.

(** The registry that the calls of [subscribe] and [unsubscribe] among the
    inputs leave, from the registry [m]: each name with its last
    subscription, or [null]. *)
Definition subscriptions (inputs : list input) (m : gmap string (option callback))
    : gmap string (option callback) :=
  fold_left
    (fun m i =>
       match i with
       | Call_subscribe aCallback eventName => <[eventName := Some aCallback]> m
       | Call_unsubscribe eventName => <[eventName := None]> m
       | _ => m
       end)
    inputs m.

(** The callback was given to [subscribe] for the event, in the session. *)
Definition subscribed (inputs : list input) (name : string) (cb : callback) : Prop :=
  Call_subscribe cb name ∈ inputs.

Definition registry_subscribed (inputs : list input) (p : player) : Prop :=
  forall name cb, eventsCallbacks_ p !! name = Some (Some cb) -> subscribed inputs name cb.

(** An effect of the ad that, if it is the call of a callback, calls one
    that was subscribed for the event. *)
Definition invokes_subscribed (inputs : list input) (e : ad_effect) : Prop :=
  match e with
  | Invoke name cb => subscribed inputs name cb
  | _ => True
  end.

(** A call of [subscribe] or [unsubscribe] for the name [__proto__], whose
    assignment replaces the prototype of the registry instead of adding a
    property to it. *)
Definition names_proto (i : input) : bool :=
  match i with
  | Call_subscribe _ eventName | Call_unsubscribe eventName =>
      String.eqb eventName "__proto__"
  | _ => false
  end.

(** An effect of the ad that is not the clearing of the interval. *)
Definition not_clearing (id : nat) (e : ad_effect) : Prop := e <> ClearInterval id.

(** The interval is not the one the ad remembers. *)
Definition not_current (id : nat) (p : player) : Prop := intervalId_ p <> Some id.

(** An event pixel has the parameter [k], with the value [v]. *)
Definition carries (k : string) (v : jsval) (e : tracker_effect) : Prop :=
  match e with
  | LoadPixel (EventPixel _ query) => obj_get k query = v
  | _ => True
  end.

(** The constant parameters have [k], with the value [v]; the screen size
    is what [init_load] writes as ["w"] and ["h"]. *)
Definition constant (k : string) (v : jsval) (t : tracker) : Prop :=
  NoDup (keys (constant_params t)) /\
  has_key k (constant_params t) = true /\
  obj_get k (constant_params t) = v /\
  (k = "w" -> v = VNum (screenX t)) /\
  (k = "h" -> v = VNum (screenY t)).

(** The records of the events fired have no key twice. *)
Definition records_wf (t : tracker) : Prop :=
  forall name r, eventAlreadyFired t !! name = Some r -> NoDup (keys r).

(** A mouse event at the point, or a touch event whose first target touch
    is at the point. *)
Definition at_point (x y : Q) (evt : dom_event) : Prop :=
  (clientX evt = Some (Fin x) /\ clientY evt = Some (Fin y)) \/
  (clientX evt = None /\ clientY evt = None /\
   exists rest,
     targetTouches evt = Some (Touch (Some (Fin x)) (Some (Fin y)) :: rest)).

(** The events that a call of the wrapper, or a listener or timer of the
    ad, may dispatch. *)
Definition events_of (i : input) : list string :=
  match i with
  | Call_initAd _ _ _ _ _ _ => ["AdError"; "AdLoaded"]
  | Call_startAd _ _ _ _ _ => ["AdStarted"; "AdImpression"]
  | Call_setAdVolume _ | On_muteButtonClick => ["AdVolumeChange"]
  | Call_resizeAd _ _ _ => ["AdSizeChange"]
  | Call_pauseAd | On_ended => ["AdPaused"]
  | Call_resumeAd _ => ["AdPlaying"]
  | Call_skipAd => ["AdSkipped"]
  | On_timeupdate _ _ => map fst quartileEvents_ ++ ["AdDurationChange"]
  | On_stopAd_timeout => ["AdStopped"]
  | On_resumeAd_interval => ["AdRemainingTimeChange"]
  | On_overlayClick => ["AdClickThru"]
  | _ => []
  end.

(** An effect of the ad that, if it is the call of a callback, is for one
    of the events. *)
Definition dispatches_among (names : list string) (e : ad_effect) : Prop :=
  match e with
  | Invoke name _ => name ∈ names
  | _ => True
  end.

(** An effect of a closure that, if it is the load of an event pixel,
    loads the one of the impression. *)
Definition impression_event (e : tracker_effect) : Prop :=
  match e with
  | LoadPixel (EventPixel name _) => name = "loaded_imp"
  | _ => True
  end.

(** An effect of the page that, if it is the load of a pixel, loads the
    impression pixel. *)
Definition loads_impression_only (e : effect) : Prop :=
  match e with
  | OfClosure _ (LoadPixel (EventPixel name _)) => name = "loaded_imp"
  | OfClosure _ (LoadPixel (ConfirmPixel _)) => False
  | _ => True
  end.

(** * Properties *)

(** ** The execution monad *)

Section Hoare.
Context {S E : Type} (I : S -> Prop) (X : E -> Prop).

Lemma hoare_ret {A} (a : A) : hoare I X (ret a).
Proof. intros s Hs. split; [exact Hs | constructor]. Qed.

Lemma hoare_throw {A} (e : error) : hoare I X (throw (A := A) e).
Proof. intros s Hs. split; [exact Hs | constructor]. Qed.

Lemma hoare_get : hoare I X get.
Proof. intros s Hs. split; [exact Hs | constructor]. Qed.

Lemma hoare_emit (e : E) : X e -> hoare I X (emit e).
Proof. intros He s Hs. split; [exact Hs | repeat constructor; exact He]. Qed.

Lemma hoare_modify (f : S -> S) :
  (forall s, I s -> I (f s)) -> hoare I X (modify f).
Proof. intros Hf s Hs. split; [apply Hf, Hs | constructor]. Qed.

Lemma hoare_bind {A B} (m : M S E A) (k : A -> M S E B) :
  hoare I X m -> (forall a, hoare I X (k a)) -> hoare I X (bind m k).
Proof.
  intros Hm Hk s Hs. unfold bind.
  destruct (Hm s Hs) as [Hpost Hem].
  destruct (outcome (m s)) as [a|e]; simpl.
  - destruct (Hk a _ Hpost) as [Hpost' Hem']. split; [exact Hpost'|].
    apply Forall_app; split; assumption.
  - split; assumption.
Qed.

Lemma hoare_try_catch (m : M S E unit) : hoare I X m -> hoare I X (try_catch m).
Proof. intros Hm s Hs. exact (Hm s Hs). Qed.

Lemma hoare_reference (x : string) (scope : list string) :
  hoare I X (reference x scope).
Proof. unfold reference. case_bool_decide; [apply hoare_ret | apply hoare_throw]. Qed.

Lemma hoare_call_inherited (name : string) : hoare I X (call_inherited name).
Proof.
  unfold call_inherited. case_bool_decide; [apply hoare_throw | apply hoare_ret].
Qed.

Lemma hoare_coordinate own touches field :
  hoare I X (coordinate own touches field).
Proof.
  unfold coordinate. destruct (coord_truthy own); [apply hoare_ret|].
  destruct touches as [[|t ts]|];
    [apply hoare_throw | apply hoare_ret | apply hoare_throw].
Qed.

(** A session keeps what each of its handlers keeps. *)
Lemma hoare_run_all (hs : list (M S E unit)) :
  Forall (hoare I X) hs ->
  forall s, I s -> I (fst (run_all hs s)) /\ Forall X (snd (run_all hs s)).
Proof.
  induction 1 as [|h hs Hh _ IH]; intros s Hs; simpl.
  - split; [exact Hs | constructor].
  - destruct (Hh s Hs) as [Hpost Hem].
    destruct (IH _ Hpost) as [Hfin Hes].
    destruct (run_all hs (post (h s))) as [s' es]; simpl in *.
    split; [exact Hfin | apply Forall_app; split; assumption].
Qed.
End Hoare.

(** One step of the structural rules, chosen by the head of the
    computation. *)
Ltac hoare_step :=
  lazymatch goal with
  | |- hoare _ _ (bind _ _) => apply hoare_bind; [ | intros ? ]
  | |- hoare _ _ (ret _) => apply hoare_ret
  | |- hoare _ _ (throw _) => apply hoare_throw
  | |- hoare _ _ get => apply hoare_get
  | |- hoare _ _ (reference _ _) => apply hoare_reference
  | |- hoare _ _ (call_inherited _) => apply hoare_call_inherited
  | |- hoare _ _ (coordinate _ _ _) => apply hoare_coordinate
  | |- hoare _ _ (try_catch _) => apply hoare_try_catch
  | |- hoare _ _ (match ?x with _ => _ end) => destruct x eqn:?
  | |- hoare _ _ (let _ := _ in _) => cbv zeta
  end.

(** ** The event dispatcher *)

Lemma inherited_false_in {V} (name : string) (obj : gmap string V) :
  inherited name = false -> js_in name obj = bool_decide (is_Some (obj !! name)).
Proof. intros H. unfold js_in. rewrite H. apply orb_false_r. Qed.

(** A bound callback is called, once. *)
Lemma callEvent_bound (p : player) (name : string) (cb : callback) :
  eventsCallbacks_ p !! name = Some (Some cb) ->
  callEvent_ name p = Result p [Invoke name cb] (Normal tt).
Proof.
  intros H. unfold callEvent_, call_callback, bind, get, js_in; simpl.
  rewrite H; simpl. rewrite H. reflexivity.
Qed.

(** An event nobody subscribed to is skipped, unless its name is one that
    the registry inherits. *)
Lemma callEvent_unbound (p : player) (name : string) :
  eventsCallbacks_ p !! name = None -> inherited name = false ->
  callEvent_ name p = Result p [] (Normal tt).
Proof.
  intros H Hi. unfold callEvent_, bind, get; simpl.
  rewrite inherited_false_in by exact Hi. rewrite H.
  rewrite bool_decide_eq_false_2 by (intros [? ?]; discriminate). reflexivity.
Qed.

(** A cleared subscription is still [in] the registry, and calling the
    [null] it holds throws. *)
Lemma callEvent_cleared (p : player) (name : string) :
  eventsCallbacks_ p !! name = Some None ->
  callEvent_ name p = Result p [] (Throw TypeError).
Proof.
  intros H. unfold callEvent_, call_callback, bind, get, js_in; simpl.
  rewrite H; simpl. rewrite H. reflexivity.
Qed.

(** C5, on the code: after [subscribe(cb, 'AdPaused')] and
    [unsubscribe('AdPaused')] no callback is bound to the event, and yet
    dispatching it with [callEvent_('AdPaused')] is not a no-op: it throws
    a [TypeError], because [unsubscribe] stores [null] under the name, the
    [in] test of [callEvent_] still finds the name, and [null] is called. *)
Theorem callEvent_after_unsubscribe_throws (p : player) (aCallback : callback) :
  let cleared :=
    post (unsubscribe "AdPaused" (post (subscribe aCallback "AdPaused" p))) in
  callEvent_ "AdPaused" cleared = Result cleared [] (Throw TypeError).
Proof.
  intros cleared. apply callEvent_cleared.
  unfold cleared, unsubscribe, subscribe, modify; simpl.
  apply lookup_insert_eq.
Qed.

(** ** The position of an interaction *)

(** A mouse or touch event that carries its coordinates: the position is
    the rounded percentage of the viewport. *)
Lemma getPosition_of_coordinates (t : tracker) (x y : num) touches :
  num_truthy x = true -> num_truthy y = true ->
  let r := getPosition (DomEvent (Some x) (Some y) touches) t in
  outcome r = Normal tt /\
  pos_interact (post r) =
    num_to_string (Math_round (of_double (percent_of x (screenX t))))
    +:+ "_" +:+
    num_to_string (Math_round (of_double (percent_of y (screenY t)))).
Proof.
  intros Hx Hy. unfold getPosition, coordinate, bind. cbn [clientX clientY coord_truthy].
  rewrite Hx, Hy. cbn [ret outcome post emitted].
  destruct x; try discriminate; destruct y; try discriminate;
    cbn [isNaN orb negb modify outcome post default pos_interact set_pos_interact];
    auto.
Qed.

(** A touch whose first target touch has no coordinates falls back. *)
Lemma getPosition_fallback (t : tracker) (touches : list touch) :
  let r := getPosition (DomEvent None None (Some (Touch None None :: touches))) t in
  outcome r = Normal tt /\ pos_interact (post r) = "0_0".
Proof. split; reflexivity. Qed.

(** C9, on the code: [getPosition] throws a [TypeError], and leaves the
    cached position as it was, on a mouse event at the left edge of the
    viewport ([clientX] is [0], which [||] takes for a missing coordinate,
    and a mouse event has no [targetTouches]) and on a touch event whose
    [targetTouches] is empty; the claim has the position recomputed, or
    set to ["0_0"], and no throw. *)
Theorem getPosition_throws_without_touches (t : tracker) (y : num) :
  let left_edge := DomEvent (Some (num_of_Z 0)) (Some y) None in
  let no_touch := DomEvent None None (Some []) in
  getPosition left_edge t = Result t [] (Throw TypeError) /\
  getPosition no_touch t = Result t [] (Throw TypeError).
Proof. split; reflexivity. Qed.

(** ** Running a computation *)

Lemma result_eta {S E A} (r : result S E A) :
  Result (post r) (emitted r) (outcome r) = r.
Proof. destruct r; reflexivity. Qed.

Lemma bind_get {S E B} (k : S -> M S E B) (s : S) : bind get k s = k s s.
Proof. unfold bind, get; simpl. apply result_eta. Qed.

Lemma bind_ret {S E A B} (a : A) (k : A -> M S E B) (s : S) :
  bind (ret a) k s = k a s.
Proof. unfold bind, ret; simpl. apply result_eta. Qed.

Lemma bind_modify {S E B} (f : S -> S) (k : unit -> M S E B) (s : S) :
  bind (modify f) k s = k tt (f s).
Proof. unfold bind, modify; simpl. apply result_eta. Qed.

Lemma bind_emit {S E B} (e : E) (k : unit -> M S E B) (s : S) :
  bind (emit e) k s =
  Result (post (k tt s)) (e :: emitted (k tt s)) (outcome (k tt s)).
Proof. reflexivity. Qed.

Lemma bind_throw {S E A B} (e : error) (k : A -> M S E B) (s : S) :
  bind (throw e) k s = Result s [] (Throw e).
Proof. reflexivity. Qed.

Lemma bind_result {S E A B} (m : M S E A) (k : A -> M S E B) (s s' : S) es a :
  m s = Result s' es (Normal a) ->
  bind m k s =
  Result (post (k a s')) (es ++ emitted (k a s')) (outcome (k a s')).
Proof. intros H. unfold bind. rewrite H. reflexivity. Qed.

Lemma bind_thrown {S E A B} (m : M S E A) (k : A -> M S E B) (s s' : S) es e :
  m s = Result s' es (Throw e) -> bind m k s = Result s' es (Throw e).
Proof. intros H. unfold bind. rewrite H. reflexivity. Qed.

Lemma bind_assoc {S E A B C} (m : M S E A) (k : A -> M S E B) (k' : B -> M S E C)
    (s : S) :
  bind (bind m k) k' s = bind m (fun a => bind (k a) k') s.
Proof.
  unfold bind. destruct (m s) as [s1 es1 [a|e]]; cbn; [|reflexivity].
  destruct (k a s1) as [s2 es2 [b|e]]; cbn; [|reflexivity].
  by rewrite app_assoc.
Qed.

(** ** Objects with enumerated keys *)

Lemma obj_get_set_eq (k : string) (v : jsval) (o : object) :
  obj_get k (obj_set k v o) = v.
Proof.
  induction o as [|[k' v'] o IH]; simpl.
  - by rewrite String.eqb_refl.
  - destruct (String.eqb k k') eqn:Hk; simpl; rewrite ?String.eqb_refl, ?Hk; auto.
Qed.

Lemma obj_get_set_ne (k k' : string) (v : jsval) (o : object) :
  k <> k' -> obj_get k (obj_set k' v o) = obj_get k o.
Proof.
  intros Hne. apply String.eqb_neq in Hne.
  induction o as [|[k'' v''] o IH]; simpl.
  - by rewrite Hne.
  - destruct (String.eqb k' k'') eqn:Hk; simpl.
    + apply String.eqb_eq in Hk; subst k''. by rewrite Hne.
    + destruct (String.eqb k k''); auto.
Qed.

Lemma has_key_set (k k' : string) (v : jsval) (o : object) :
  has_key k (obj_set k' v o) = String.eqb k k' || has_key k o.
Proof.
  induction o as [|[k'' v''] o IH]; simpl.
  - reflexivity.
  - destruct (String.eqb k' k'') eqn:Hk; simpl.
    + apply String.eqb_eq in Hk; subst k''.
      destruct (String.eqb k k'); reflexivity.
    + rewrite IH. destruct (String.eqb k k''), (String.eqb k k'); reflexivity.
Qed.

Lemma has_key_merge (k : string) (from to : object) :
  has_key k (mergeTwoObjects to from) = has_key k to || has_key k from.
Proof.
  unfold mergeTwoObjects. revert to.
  induction from as [|[k' v'] from IH]; intros to; simpl.
  - by rewrite orb_false_r.
  - rewrite IH, has_key_set. simpl.
    destruct (String.eqb k k'), (has_key k to); reflexivity.
Qed.

Lemma merge_get_absent (k : string) (from to : object) :
  has_key k from = false ->
  obj_get k (mergeTwoObjects to from) = obj_get k to.
Proof.
  unfold mergeTwoObjects. revert to.
  induction from as [|[k' v'] from IH]; intros to H; simpl in *.
  - reflexivity.
  - apply orb_false_iff in H as [Hk Hfrom].
    rewrite IH by exact Hfrom. apply obj_get_set_ne.
    by apply String.eqb_neq.
Qed.

(** ** The elapsed time of a pixel *)

(** Division by 1000, the clamp at 3000 and [Math.round], lines 408-412. *)
Lemma round_clamped (d : Z) :
  let t := num_div (num_of_Z d) (num_of_Z 1000) in
  exists z,
    Math_round (if num_gtb t (num_of_Z 3000) then num_of_Z 3000 else t) = num_of_Z z /\
    nearest_integer (Qmin (inject_Z d / 1000) 3000) z.
Proof.
  cbv zeta. unfold num_div, num_of_Z, num_gtb, num_ltb.
  change (Qzero_b (inject_Z 1000)) with false. cbv iota.
  assert (Hred : Qred (inject_Z d / inject_Z 1000) == inject_Z d / 1000)
    by apply Qred_correct.
  set (t := Qred (inject_Z d / inject_Z 1000)) in *.
  destruct (Q.min_spec (inject_Z d / 1000) 3000) as [[Hlt Hmin]|[Hle Hmin]];
    unfold nearest_integer.
  - assert (Hb : Qle_bool t (inject_Z 3000) = true).
    { apply Qle_bool_iff. rewrite Hred. apply Qlt_le_weak, Hlt. }
    rewrite Hb. simpl. exists (Qfloor (t + (1 # 2))). split; [reflexivity|].
    pose proof (Qfloor_le (t + (1 # 2))) as H1.
    pose proof (Qlt_floor (t + (1 # 2))) as H2.
    rewrite inject_Z_plus in H2. change (inject_Z 1) with 1%Q in H2.
    rewrite Hmin, <- Hred. clearbody t. split; lra.
  - destruct (Qle_bool t (inject_Z 3000)) eqn:Hb; simpl.
    + apply Qle_bool_iff in Hb. rewrite Hred in Hb.
      exists (Qfloor (t + (1 # 2))). split; [reflexivity|].
      pose proof (Qfloor_le (t + (1 # 2))) as H1.
      pose proof (Qlt_floor (t + (1 # 2))) as H2.
      rewrite inject_Z_plus in H2. change (inject_Z 1) with 1%Q in H2.
      assert (Heq : t == 3000).
      { rewrite Hred. apply Qle_antisym; assumption. }
      rewrite Hmin. clearbody t. split; lra.
    + exists 3000. split; [reflexivity|]. rewrite Hmin.
      change (inject_Z 3000) with 3000%Q. split; lra.
Qed.

(** [event.addParams] returns, changes nothing, and sets ["t"] as above
    unless a constant parameter of that name overwrites it. *)
Lemma addParams_spec (eventType : string) (oParams : object) (now : Z) (t : tracker) :
  exists query,
    addParams eventType oParams now t = Result t [] (Normal query) /\
    (has_key "t" (constant_params t) = false ->
     exists z, obj_get "t" query = VNum (num_of_Z z) /\
               nearest_integer (clamped_seconds (timeStart t) now) z).
Proof.
  unfold addParams, bind, get, ret.
  cbv beta iota zeta delta [post outcome emitted]. cbn [app].
  eexists; split; [reflexivity|]. intros Hc.
  rewrite merge_get_absent by exact Hc.
  destruct (round_clamped (now - timeStart t)) as (z & Hz & Hn).
  exists z. split; [|exact Hn].
  rewrite <- Hz.
  assert (Hp : forall o : object,
    obj_get "t" (if String.eqb eventType "i"
                 then obj_set "p" (VStr (pos_interact t)) (obj_set "et" (VStr eventType) o)
                 else obj_set "et" (VStr eventType) o) = obj_get "t" o).
  { intros o. destruct (String.eqb eventType "i");
      rewrite ?(obj_get_set_ne "t" "p"), ?(obj_get_set_ne "t" "et") by discriminate;
      reflexivity. }
  rewrite Hp, !obj_get_set_eq. cbn [to_number].
  destruct (num_gtb _ _); rewrite obj_get_set_eq; reflexivity.
Qed.

(** ** [event.trigger] *)

Lemma trigger_suppressed name eventType params now (t : tracker) :
  may_fire name t = false ->
  trigger name eventType params now t = Result t [] (Normal tt).
Proof. intros H. unfold trigger. rewrite bind_get, H. reflexivity. Qed.

Lemma record_fire_frame name eventType (t : tracker) :
  let t' := record_fire name eventType t in
  config t' = config t /\ allowRedirect t' = allowRedirect t /\
  aElement t' = aElement t /\ pos_interact t' = pos_interact t /\
  constant_params t' = constant_params t /\ timeStart t' = timeStart t /\
  screenX t' = screenX t /\ screenY t' = screenY t.
Proof.
  unfold record_fire.
  destruct (read_property _ _); [| |destruct (String.eqb name "click");
    [|destruct (String.eqb _ "i")]]; repeat split; reflexivity.
Qed.

Lemma trigger_fired name eventType params now (t : tracker) :
  may_fire name t = true ->
  exists query,
    trigger name eventType params now t =
      Result (record_fire name (effective_type eventType) t)
        [LoadPixel (EventPixel name query)] (Normal tt) /\
    (has_key "t" (constant_params t) = false ->
     exists z, obj_get "t" query = VNum (num_of_Z z) /\
               nearest_integer (clamped_seconds (timeStart t) now) z).
Proof.
  intros H. unfold trigger. fold (effective_type eventType).
  rewrite bind_get, H, bind_modify, bind_get.
  set (t' := record_fire name (effective_type eventType) t).
  destruct (record_fire_frame name (effective_type eventType) t)
    as (_ & _ & _ & _ & Hconst & Hstart & _). fold t' in Hconst, Hstart.
  match goal with |- context [addParams ?ty ?o now] =>
    destruct (addParams_spec ty o now t') as (query & Heq & Hq) end.
  rewrite (bind_result _ _ _ _ _ _ Heq).
  exists query. split; [reflexivity|].
  rewrite <- Hstart, <- Hconst. exact Hq.
Qed.

Create HintDb js discriminated.
#[local] Hint Unfold trigger addParams loadPixel getPosition handleRedirection
  triggerRedirection init_load closure_handle : js.

(** The rules applied throughout a handler; [side] proves that a write
    keeps the invariant and that an effect is allowed. *)
Ltac hoare_go side :=
  repeat first
    [ hoare_step
    | lazymatch goal with
      | |- hoare _ _ (modify _) => apply hoare_modify; side
      | |- hoare _ _ (emit _) => apply hoare_emit; side
      end
    | progress autounfold with js ].

Ltac frame_side :=
  first
    [ intros ? ?;
      match goal with
      | |- context [record_fire ?n ?ty ?s] =>
          destruct (record_fire_frame n ty s) as (? & ? & ? & ? & ? & ? & ? & ?)
      end; simpl in *; congruence
    | intros ? ?; simpl in *; congruence
    | exact I
    | simpl; congruence ].

(** No handler of a closure ever adds a constant parameter ["t"]. *)
Lemma closure_keeps_no_t (op : closure_op) :
  hoare (fun t => has_key "t" (constant_params t) = false) (fun _ => True)
    (closure_handle op).
Proof.
  destruct op; hoare_go frame_side.
  apply hoare_modify. intros s Hs. unfold set_constant_params; cbn [constant_params].
  rewrite has_key_merge, Hs. reflexivity.
Qed.

Lemma nearest_integer_unique (x : Q) (z z' : Z) :
  nearest_integer x z -> nearest_integer x z' -> z = z'.
Proof.
  unfold nearest_integer. intros [H1 H2] [H1' H2'].
  assert (Ha : (inject_Z z < inject_Z (z' + 1))%Q)
    by (rewrite inject_Z_plus; change (inject_Z 1) with 1%Q; lra).
  assert (Hb : (inject_Z z' < inject_Z (z + 1))%Q)
    by (rewrite inject_Z_plus; change (inject_Z 1) with 1%Q; lra).
  rewrite <- Zlt_Qlt in Ha, Hb. lia.
Qed.

Lemma elapsed_time_value (start now z : Z) (es : list tracker_effect) :
  nearest_integer (clamped_seconds start now) z ->
  Forall (elapsed_time_ok start now) es -> Forall (elapsed_time_is z) es.
Proof.
  intros Hz H. eapply Forall_impl; [exact H|]. intros [[name q|u]|]; simpl; auto.
  intros (z' & Hq & Hz'). by rewrite (nearest_integer_unique _ _ _ Hz Hz').
Qed.

Lemma reachable_no_t cfg created sx sy (ops : list closure_op) :
  let t := fst (run_all (map closure_handle ops) (createEvent cfg created sx sy)) in
  has_key "t" (constant_params t) = false /\ timeStart t = created.
Proof.
  pose proof (hoare_run_all
    (fun t => has_key "t" (constant_params t) = false /\ timeStart t = created)
    (fun _ => True) (map closure_handle ops)) as H.
  apply H; [|split; reflexivity].
  apply Forall_fmap, Forall_forall. intros op _. unfold compose.
  destruct op; hoare_go ltac:(first [ exact I | intros ? [? ?]; split;
    first [ match goal with
            | |- context [record_fire ?n ?ty ?s] =>
                destruct (record_fire_frame n ty s) as (? & ? & ? & ? & ? & ? & ? & ?)
            end; simpl in *; congruence
          | simpl in *; congruence ] ]).
  apply hoare_modify.
  intros s [Hs Ht]; split; [|exact Ht].
  unfold set_constant_params; cbn [constant_params].
  rewrite has_key_merge, Hs. reflexivity.
Qed.

Lemma trigger_elapsed_time name eventType params now (t : tracker) :
  has_key "t" (constant_params t) = false ->
  Forall (elapsed_time_ok (timeStart t) now)
    (emitted (trigger name eventType params now t)).
Proof.
  intros Hc. destruct (may_fire name t) eqn:Hf.
  - destruct (trigger_fired name eventType params now t Hf) as (q & -> & Hq).
    repeat constructor. exact (Hq Hc).
  - rewrite trigger_suppressed by exact Hf. constructor.
Qed.

(** C7: whatever the handlers of a closure have run since [createEvent],
    every pixel that [event.trigger] fires carries as ["t"] the integer
    nearest (a tie going up) to the seconds elapsed since [createEvent],
    clamped above at 3000 in seconds: [5] when 5000 ms have elapsed, [3000]
    when 3500 s have; and the first event of a closure, sent 5000 ms after
    its start, is fired with [t = 5]. *)
Theorem elapsed_time_parameter cfg (created : Z) sx sy (ops : list closure_op)
    name eventType params (now : Z) :
  let t := fst (run_all (map closure_handle ops) (createEvent cfg created sx sy)) in
  Forall (elapsed_time_ok created now) (emitted (trigger name eventType params now t)) /\
  Forall (elapsed_time_is 5)
    (emitted (trigger name eventType params (created + 5000) t)) /\
  Forall (elapsed_time_is 3000)
    (emitted (trigger name eventType params (created + 3500 * 1000) t)) /\
  exists query,
    emitted (trigger "loaded_imp" (Some "i") None (created + 5000)
               (createEvent cfg created sx sy))
      = [LoadPixel (EventPixel "loaded_imp" query)] /\
    obj_get "t" query = VNum (num_of_Z 5).
Proof.
  intros t.
  destruct (reachable_no_t cfg created sx sy ops) as [Hc Hstart]. fold t in Hc, Hstart.
  assert (Hall : forall now',
    Forall (elapsed_time_ok created now') (emitted (trigger name eventType params now' t))).
  { intros now'. rewrite <- Hstart. apply trigger_elapsed_time, Hc. }
  assert (H5 : nearest_integer (clamped_seconds created (created + 5000)) 5).
  { unfold nearest_integer, clamped_seconds.
    replace (created + 5000 - created) with 5000 by lia.
    split; vm_compute; congruence. }
  assert (H3000 : nearest_integer (clamped_seconds created (created + 3500 * 1000)) 3000).
  { unfold nearest_integer, clamped_seconds.
    replace (created + 3500 * 1000 - created) with 3500000 by lia.
    split; vm_compute; congruence. }
  split; [apply Hall|]. split; [exact (elapsed_time_value _ _ _ _ H5 (Hall _))|].
  split; [exact (elapsed_time_value _ _ _ _ H3000 (Hall _))|].
  destruct (trigger_fired "loaded_imp" (Some "i") None (created + 5000)
              (createEvent cfg created sx sy) eq_refl) as (q & Heq & Hq).
  exists q. rewrite Heq. split; [reflexivity|].
  destruct (Hq eq_refl) as (z & Hz & Hn). simpl in Hn.
  by rewrite Hz, (nearest_integer_unique _ _ _ Hn H5).
Qed.

(** ** The firing policy of [event.trigger] *)

Lemma inherited_not_click (name : string) :
  inherited name = true -> String.eqb name "click" = false.
Proof.
  intros H. destruct (String.eqb name "click") eqn:E; [|reflexivity].
  apply String.eqb_eq in E. subst name. discriminate.
Qed.

(** An event named as a member of [Object.prototype] is taken for one
    that has fired already, of a type that is not ["i"]. *)
Lemma may_fire_inherited (name : string) (t : tracker) :
  inherited name = true -> eventAlreadyFired t !! name = None ->
  may_fire name t = false.
Proof.
  intros Hi Hn. unfold may_fire, js_in, fired_field, read_property.
  rewrite (inherited_not_click name Hi), Hi, Hn, orb_true_r. reflexivity.
Qed.

(** The function on its own, given the name of a member of
    [Object.prototype]: an event named ["constructor"] would never fire
    its pixel, whatever its type, because [eventName in eventAlreadyFired]
    holds for a name that the object inherits.  No call of the script
    passes such a name: the names are ["loaded_imp"] (line 540) and
    ["time-<x>s"] (line 375). *)
Lemma trigger_of_inherited_name cfg created sx sy
    (calls : list (option string * option object * Z)) :
  let start := createEvent cfg created sx sy in
  run_all
    (map (fun call : option string * option object * Z =>
            trigger "constructor" (fst (fst call)) (snd (fst call)) (snd call))
       calls) start
  = (start, []).
Proof.
  intros start. induction calls as [|[[ty ps] now] calls IH]; [reflexivity|].
  cbn [map run_all fst snd].
  rewrite trigger_suppressed by (apply may_fire_inherited; reflexivity).
  cbn [post emitted]. rewrite IH. reflexivity.
Qed.

Lemma Qred_inject_Z (z : Z) : Qred (inject_Z z) = inject_Z z.
Proof. apply Qcanon.Qred_iff. simpl. apply Z.gcd_1_r. Qed.

Lemma num_add_of_Z (a b : Z) : num_add (num_of_Z a) (num_of_Z b) = num_of_Z (a + b).
Proof.
  unfold num_add, num_of_Z. f_equal.
  rewrite <- (Qred_inject_Z (a + b)). apply Qred_complete.
  rewrite inject_Z_plus. reflexivity.
Qed.

Lemma num_ltb_of_Z (a b : Z) : num_ltb (num_of_Z a) (num_of_Z b) = (a <? b)%Z.
Proof.
  unfold num_ltb, num_of_Z, Qle_bool; simpl. rewrite !Z.mul_1_r.
  destruct (Z.leb_spec b a), (Z.ltb_spec a b); simpl; auto; lia.
Qed.

Lemma record_fire_other (name name' ty : string) (t : tracker) :
  name <> name' ->
  eventAlreadyFired (record_fire name' ty t) !! name = eventAlreadyFired t !! name.
Proof.
  intros Hne. unfold record_fire.
  destruct (read_property _ _); [| |destruct (String.eqb name' "click");
    [|destruct (String.eqb _ "i")]]; simpl; rewrite ?lookup_insert_ne by congruence;
    reflexivity.
Qed.

(** What is not a call of [event.trigger] for the name neither fires its
    pixel nor touches its record. *)
Lemma closure_other_event (name : string) (op : closure_op) (v : option object) :
  is_trigger_of name op = false ->
  hoare (fun t => eventAlreadyFired t !! name = v)
    (fun e => is_event_pixel name e = false) (closure_handle op).
Proof.
  intros Hop.
  assert (Hside : forall (f : tracker -> tracker),
    (forall s, eventAlreadyFired (f s) = eventAlreadyFired s) ->
    forall s, eventAlreadyFired s !! name = v -> eventAlreadyFired (f s) !! name = v)
    by (intros f Hf s Hs; rewrite Hf; exact Hs).
  destruct op; simpl in Hop;
    hoare_go ltac:(first
      [ apply Hside; reflexivity
      | intros ? ?; rewrite record_fire_other by (apply String.eqb_neq; exact Hop);
        assumption
      | simpl; first [ exact Hop | reflexivity ] ]).
Qed.

Lemma event_pixels_one (name : string) (q : object) :
  event_pixels name [LoadPixel (EventPixel name q)] = 1%nat.
Proof.
  unfold event_pixels. rewrite filter_cons, decide_True; [reflexivity|].
  simpl. apply String.eqb_refl.
Qed.

Lemma event_pixels_app (name : string) (es es' : list tracker_effect) :
  event_pixels name (es ++ es') = (event_pixels name es + event_pixels name es')%nat.
Proof. unfold event_pixels. by rewrite filter_app, length_app. Qed.

Lemma event_pixels_none (name : string) (es : list tracker_effect) :
  Forall (fun e => is_event_pixel name e = false) es -> event_pixels name es = 0%nat.
Proof.
  unfold event_pixels. induction 1 as [|e es' He _ IH]; [reflexivity|].
  rewrite filter_cons, decide_False by (rewrite He; discriminate). exact IH.
Qed.

Lemma occurrences_cons (name : string) (op : closure_op) (ops : list closure_op) :
  occurrences name (op :: ops) =
  ((if is_trigger_of name op then 1 else 0) + occurrences name ops)%nat.
Proof.
  unfold occurrences. rewrite filter_cons.
  destruct (is_trigger_of name op);
    [rewrite decide_True by reflexivity | rewrite decide_False by discriminate];
    reflexivity.
Qed.

Section Policy.
Variables name ty : string.
Hypothesis not_click : name <> "click".
Hypothesis not_inherited : inherited name = false.

(** One more call of [event.trigger] for the name, after [k] of them:
    the event type that counts is the one of the first call. *)
Lemma trigger_recounted (k : nat) (t : tracker) eventType params now :
  (k = 0%nat -> effective_type eventType = ty) -> counted name ty k t ->
  let r := trigger name eventType params now t in
  counted name ty (S k) (post r) /\
  event_pixels name (emitted r) = (if (k <? fire_limit ty)%nat then 1 else 0)%nat.
Proof.
  intros Hty Hk.
  assert (not_click_b : String.eqb name "click" = false) by (by apply String.eqb_neq).
  destruct k as [|k]; simpl in Hk.
  - specialize (Hty eq_refl).
    assert (Hf : may_fire name t = true).
    { unfold may_fire. rewrite not_click_b, inherited_false_in by assumption.
      rewrite Hk. reflexivity. }
    destruct (trigger_fired name eventType params now t Hf) as (q & Heq & _).
    cbv zeta. rewrite Heq. cbn [post emitted]. split.
    + rewrite Hty. unfold record_fire, read_property.
      rewrite Hk, not_inherited, not_click_b.
      destruct (String.eqb ty "i") eqn:Hi; simpl; rewrite lookup_insert_eq;
        eexists; (split; [reflexivity|]); split; try reflexivity.
      intros ->. discriminate.
    + rewrite event_pixels_one. unfold fire_limit.
      destruct (String.eqb ty "i"); reflexivity.
  - destruct Hk as (r & Hr & Het & Hni).
    assert (Hin : js_in name (eventAlreadyFired t) = true).
    { unfold js_in. rewrite Hr. reflexivity. }
    destruct (String.eqb ty "i") eqn:Hi.
    + specialize (Hni (proj1 (String.eqb_eq _ _) Hi)).
      destruct (Nat.ltb_spec (S k) 30) as [Hlt|Hge].
      * assert (Hf : may_fire name t = true).
        { unfold may_fire, fired_field, read_property.
          rewrite not_click_b, Hin, Hr, Het, Hni, Hi.
          cbn [to_number andb orb negb]. rewrite num_ltb_of_Z. apply Z.ltb_lt. lia. }
        destruct (trigger_fired name eventType params now t Hf) as (q & Heq & _).
        cbv zeta. rewrite Heq. cbn [post emitted]. split.
        -- unfold record_fire, read_property. rewrite Hr. simpl.
           rewrite lookup_insert_eq. eexists; split; [reflexivity|]. split.
           ++ rewrite obj_get_set_ne by discriminate. exact Het.
           ++ intros _. rewrite obj_get_set_eq, Hni. simpl to_number.
              rewrite num_add_of_Z. do 2 f_equal. lia.
        -- rewrite event_pixels_one. unfold fire_limit. rewrite Hi.
           destruct (Nat.ltb_spec (S k) 30); [reflexivity|lia].
      * assert (Hf : may_fire name t = false).
        { unfold may_fire, fired_field, read_property.
          rewrite not_click_b, Hin, Hr, Het, Hni, Hi.
          cbn [to_number andb orb negb]. rewrite num_ltb_of_Z. apply Z.ltb_ge. lia. }
        cbv zeta. rewrite trigger_suppressed by exact Hf. cbn [post emitted]. split.
        -- exists r. split; [exact Hr|]. split; [exact Het|].
           intros _. rewrite Hni. do 3 f_equal. lia.
        -- unfold fire_limit. rewrite Hi.
           destruct (Nat.ltb_spec (S k) 30); [lia|reflexivity].
    + assert (Hf : may_fire name t = false).
      { unfold may_fire, fired_field, read_property.
        rewrite not_click_b, Hin, Hr, Het, Hi. reflexivity. }
      cbv zeta. rewrite trigger_suppressed by exact Hf. cbn [post emitted]. split.
      * exists r. split; [exact Hr|]. split; [exact Het|].
        intros ->. discriminate.
      * unfold fire_limit. rewrite Hi. reflexivity.
Qed.

Lemma trigger_counted (k : nat) (t : tracker) eventType params now :
  effective_type eventType = ty -> counted name ty k t ->
  let r := trigger name eventType params now t in
  counted name ty (S k) (post r) /\
  event_pixels name (emitted r) = (if (k <? fire_limit ty)%nat then 1 else 0)%nat.
Proof. intros Hty. apply trigger_recounted. intros _. exact Hty. Qed.

Lemma first_type_other (op : closure_op) (ops : list closure_op) :
  is_trigger_of name op = false -> first_type name (op :: ops) = first_type name ops.
Proof. destruct op; cbn; intros H; rewrite ?H; reflexivity. Qed.

(** After the handlers run, the record of the event counts the calls of
    [event.trigger] for it, under the type of the first of them. *)
Lemma counted_after (ops : list closure_op) (k : nat) (t : tracker) :
  counted name ty k t ->
  (k = 0%nat -> forall ty', first_type name ops = Some ty' -> ty' = ty) ->
  counted name ty (k + occurrences name ops) (fst (run_all (map closure_handle ops) t)).
Proof.
  revert k t. induction ops as [|op ops IH]; intros k t Hk Hfirst.
  - by rewrite Nat.add_0_r.
  - cbn [map run_all]. rewrite occurrences_cons.
    destruct (run_all (map closure_handle ops) (post (closure_handle op t)))
      as [s' es] eqn:Hrun.
    cbn [fst].
    destruct (is_trigger_of name op) eqn:Hop.
    + destruct op as [n' e p nw| | | |]; try discriminate.
      simpl in Hop. apply String.eqb_eq in Hop. subst n'.
      destruct (trigger_recounted k t e p nw) as [Hk' _]; [|exact Hk|].
      { intros Hz. apply (Hfirst Hz). cbn. by rewrite String.eqb_refl. }
      cbn [closure_handle] in *.
      assert (IH' := IH (S k) _ Hk' ltac:(discriminate)).
      rewrite Hrun in IH'. cbn [fst] in IH'.
      replace (k + (1 + occurrences name ops))%nat
        with (S k + occurrences name ops)%nat by lia.
      exact IH'.
    + destruct (closure_other_event name op (eventAlreadyFired t !! name) Hop t
                  eq_refl) as [Hpost _].
      assert (Hk' : counted name ty k (post (closure_handle op t))).
      { destruct k; simpl in *; rewrite Hpost; exact Hk. }
      rewrite first_type_other in Hfirst by exact Hop.
      assert (IH' := IH k _ Hk' Hfirst). rewrite Hrun in IH'. exact IH'.
Qed.

Lemma policy_from (ops : list closure_op) (k : nat) (t : tracker) :
  all_of_type name ty ops -> counted name ty k t ->
  (event_pixels name (snd (run_all (map closure_handle ops) t))
   + Nat.min k (fire_limit ty)
   = Nat.min (k + occurrences name ops) (fire_limit ty))%nat.
Proof.
  revert k t. induction ops as [|op ops IH]; intros k t Hall Hk.
  - unfold occurrences; simpl. f_equal. lia.
  - assert (Hall' : all_of_type name ty ops).
    { intros n' e p nw Hin. apply (Hall n' e p nw). by right. }
    cbn [map run_all].
    destruct (run_all (map closure_handle ops) (post (closure_handle op t)))
      as [s' es] eqn:Hrun.
    cbn [snd]. rewrite event_pixels_app, occurrences_cons.
    destruct (is_trigger_of name op) eqn:Hop.
    + destruct op as [n' e p nw| | | |]; try discriminate.
      simpl in Hop. apply String.eqb_eq in Hop. subst n'.
      destruct (trigger_counted k t e p nw) as [Hk' Hpx];
        [apply (Hall name e p nw); [by left|reflexivity] | exact Hk |].
      cbn [closure_handle] in *. rewrite Hpx.
      specialize (IH (S k) _ Hall' Hk'). rewrite Hrun in IH. cbn [snd] in IH.
      destruct (Nat.ltb_spec k (fire_limit ty)); lia.
    + destruct (closure_other_event name op (eventAlreadyFired t !! name) Hop t
                  eq_refl) as [Hpost Hem].
      assert (Hk' : counted name ty k (post (closure_handle op t))).
      { destruct k; simpl in *; rewrite Hpost; exact Hk. }
      specialize (IH k _ Hall' Hk'). rewrite Hrun in IH. cbn [snd] in IH.
      rewrite (event_pixels_none _ _ Hem). lia.
Qed.

(** X1: the policy of line 297 for an ordinary event name, over all the
    handlers a closure may run from [createEvent] on: as long as its
    calls pass one event type, an event of type ["i"] has fired
    [min n 30] times after [n] calls, and an event of another type
    [min n 1] times; so the [k]-th call fires exactly when [k <= 30],
    respectively [k = 1]. *)
Theorem trigger_policy cfg created sx sy (ops : list closure_op) :
  all_of_type name ty ops ->
  event_pixels name
    (snd (run_all (map closure_handle ops) (createEvent cfg created sx sy)))
  = Nat.min (occurrences name ops) (fire_limit ty).
Proof.
  intros Hall.
  pose proof (policy_from ops 0 (createEvent cfg created sx sy) Hall) as H.
  simpl Nat.min in H. rewrite Nat.add_0_r in H. apply H. reflexivity.
Qed.
End Policy.

(** ** The click gate *)

(** [handleRedirection] in closed form. *)
Lemma handleRedirection_spec (t : tracker) :
  handleRedirection t =
  if allowRedirect t && negb (alreadyClicked t) then
    Result (set_allowRedirect false (set_alreadyClicked true t))
      (if not_found "CLICK_URL_UNESC" (gClick (config t))
       then [LoadPixel (ConfirmPixel (gClick (config t)))] else [])
      (Normal tt)
  else Result t [PreventDefault] (Normal tt).
Proof.
  unfold handleRedirection. rewrite bind_get.
  destruct (allowRedirect t && negb (alreadyClicked t)); [|reflexivity].
  rewrite !bind_modify. destruct (not_found _ _); reflexivity.
Qed.

Lemma record_fire_clicked name ty (t : tracker) :
  alreadyClicked t = true -> alreadyClicked (record_fire name ty t) = true.
Proof.
  intros H. unfold record_fire.
  destruct (read_property _ _); [| |destruct (String.eqb name "click");
    [|destruct (String.eqb _ "i")]]; simpl; auto.
Qed.

(** Only [handleRedirection] loads the confirmation pixel, and no other
    handler resets the latch [alreadyClicked]. *)
Lemma closure_no_confirmation (op : closure_op) (b : bool) :
  op <> HandleRedirection ->
  hoare (fun t => b = true -> alreadyClicked t = true)
    (fun e => is_confirm e = false) (closure_handle op).
Proof.
  intros Hop. destruct op; try congruence;
    hoare_go ltac:(first
      [ reflexivity
      | intros ? H Hb; apply record_fire_clicked; exact (H Hb)
      | intros ? H Hb; simpl; exact (H Hb) ]).
Qed.

Lemma confirmations_none (es : list tracker_effect) :
  Forall (fun e => is_confirm e = false) es -> confirmations es = 0%nat.
Proof.
  unfold confirmations. induction 1 as [|e es' He _ IH]; [reflexivity|].
  rewrite filter_cons, decide_False by (rewrite He; discriminate). exact IH.
Qed.

Lemma confirmations_app (es es' : list tracker_effect) :
  confirmations (es ++ es') = (confirmations es + confirmations es')%nat.
Proof. unfold confirmations. by rewrite filter_app, length_app. Qed.

Lemma handleRedirection_or_not (op : closure_op) :
  op = HandleRedirection \/ op <> HandleRedirection.
Proof. destruct op; first [left; reflexivity | right; discriminate]. Qed.

(** Each handler pays the confirmation pixel it loads with the one click
    the gate has left. *)
Lemma confirmation_paid (op : closure_op) (t : tracker) :
  let r := closure_handle op t in
  (confirmations (emitted r) + unconsumed (post r) <= unconsumed t)%nat.
Proof.
  cbv zeta. destruct (handleRedirection_or_not op) as [->|Hop].
  - cbn [closure_handle]. rewrite handleRedirection_spec. unfold unconsumed.
    destruct (allowRedirect t), (alreadyClicked t) eqn:Hc; cbn [andb negb];
      try destruct (not_found "CLICK_URL_UNESC" (gClick (config t)));
      cbn; rewrite ?Hc; cbn; repeat case_decide; try congruence; cbn; lia.
  - destruct (closure_no_confirmation op (alreadyClicked t) Hop t) as [Hpost Hem];
      [auto|].
    rewrite (confirmations_none _ Hem). unfold unconsumed.
    destruct (alreadyClicked t); [rewrite Hpost by reflexivity; lia|].
    destruct (alreadyClicked _); lia.
Qed.

Lemma confirmations_bounded (ops : list closure_op) (t : tracker) :
  (confirmations (snd (run_all (map closure_handle ops) t)) <= unconsumed t)%nat.
Proof.
  revert t. induction ops as [|op ops IH]; intros t; cbn [map run_all].
  - cbn. lia.
  - pose proof (confirmation_paid op t) as Hop. cbv zeta in Hop.
    specialize (IH (post (closure_handle op t))).
    destruct (run_all (map closure_handle ops) (post (closure_handle op t))) as [s' es].
    cbn [snd] in *. rewrite confirmations_app. lia.
Qed.

(** The event named ["click"] pays its pixel with the one click that the
    latch [alreadyClicked] has left, whatever event type it is given. *)
Lemma click_paid (op : closure_op) (t : tracker) :
  latch_open t ->
  let r := closure_handle op t in
  latch_open (post r) /\
  (event_pixels "click" (emitted r) + unconsumed (post r) <= unconsumed t)%nat.
Proof.
  intros Hopen. cbv zeta. unfold unconsumed.
  destruct (is_trigger_of "click" op) eqn:Hclick.
  - destruct op as [name ty ps now| | | |]; try discriminate.
    cbn [is_trigger_of] in Hclick. apply String.eqb_eq in Hclick. subst name.
    cbn [closure_handle]. destruct (alreadyClicked t) eqn:Hc.
    + rewrite trigger_suppressed by (unfold may_fire; rewrite Hc; reflexivity).
      cbn [post emitted]. rewrite Hc. split; [exact Hopen | cbn; lia].
    + destruct (trigger_fired "click" ty ps now t) as (q & -> & _);
        [unfold may_fire; rewrite Hc; reflexivity|].
      cbn [post emitted]. rewrite event_pixels_one.
      unfold record_fire, read_property. rewrite (Hopen Hc).
      change (inherited "click") with false. cbn.
      split; [intros ?; discriminate | lia].
  - destruct (closure_other_event "click" op _ Hclick t eq_refl) as [Heaf Hem].
    rewrite (event_pixels_none _ _ Hem).
    destruct (handleRedirection_or_not op) as [->|Hop].
    + cbn [closure_handle] in *. rewrite handleRedirection_spec in *.
      destruct (allowRedirect t && negb (alreadyClicked t)); cbn [post] in *.
      * cbn. split; [intros ?; discriminate | destruct (alreadyClicked t); lia].
      * split; [exact Hopen | destruct (alreadyClicked t); lia].
    + pose proof (proj1 (closure_no_confirmation op (alreadyClicked t) Hop t
                           (fun H => H))) as Hmono.
      split.
      * intros Hpost. rewrite Heaf. apply Hopen.
        destruct (alreadyClicked t); [|reflexivity].
        rewrite Hmono in Hpost by reflexivity. discriminate.
      * destruct (alreadyClicked t); [rewrite Hmono by reflexivity; lia|].
        destruct (alreadyClicked _); lia.
Qed.

(** X2: over all the handlers a closure runs from [createEvent] on,
    the event named ["click"] fires at most once, whatever event types
    its calls pass. *)
Theorem click_fires_once cfg created sx sy (ops : list closure_op) :
  (event_pixels "click"
     (snd (run_all (map closure_handle ops) (createEvent cfg created sx sy))) <= 1)%nat.
Proof.
  assert (H : forall t, latch_open t ->
    (event_pixels "click" (snd (run_all (map closure_handle ops) t))
     <= unconsumed t)%nat).
  { induction ops as [|op ops IH]; intros t Hopen; cbn [map run_all].
    - cbn. lia.
    - destruct (click_paid op t Hopen) as [Hopen' Hpaid].
      specialize (IH _ Hopen').
      destruct (run_all (map closure_handle ops) (post (closure_handle op t)))
        as [s' es].
      cbn [snd] in *. rewrite event_pixels_app. lia. }
  apply (H (createEvent cfg created sx sy)). intros _. reflexivity.
Qed.

Lemma first_type_none (name : string) (ops : list closure_op) :
  occurrences name ops = 0%nat -> first_type name ops = None.
Proof.
  induction ops as [|op ops IH]; [reflexivity|].
  rewrite occurrences_cons. destruct (is_trigger_of name op) eqn:Hop; [discriminate|].
  intros H. destruct op; cbn in *; rewrite ?Hop; apply IH, H.
Qed.

(** The latch and the record of the click over the handlers of a closure. *)
Lemma click_latch (ops : list closure_op) (t : tracker) :
  latch_open t ->
  let run := run_all (map closure_handle ops) t in
  latch_open (fst run) /\
  (event_pixels "click" (snd run) + unconsumed (fst run) <= unconsumed t)%nat.
Proof.
  cbv zeta. revert t. induction ops as [|op ops IH]; intros t Hopen; cbn [map run_all].
  - cbn. split; [exact Hopen|lia].
  - destruct (click_paid op t Hopen) as [Hopen' Hpaid].
    specialize (IH _ Hopen').
    destruct (run_all (map closure_handle ops) (post (closure_handle op t)))
      as [s' es].
    cbn [fst snd] in *. destruct IH as [Hfin Hle].
    split; [exact Hfin|]. rewrite event_pixels_app. lia.
Qed.

(** C2: in a closure run from [createEvent], after any handlers, a call
    of [event.trigger] for an event name that is not a member of
    [Object.prototype] (no call of the script passes one) fires by its
    occurrence.  For a name other than ["click"], the call that follows
    [n] calls for the name loads its pixel when [n < 30] if the event is
    an interaction event (the first call for it passed ["i"]), and when
    [n = 0] otherwise: occurrences 1 to 30, respectively occurrence 1,
    fire and every later one is suppressed.  For ["click"], the call
    loads its pixel exactly when the latch [alreadyClicked] is not set,
    whatever event type it passes, and sets the latch: over the whole
    run the pixel is loaded at most once. *)
Theorem trigger_fires_by_occurrence cfg created sx sy (name : string)
    (ops : list closure_op) (eventType : option string) (params : option object)
    (now : Z) :
  inherited name = false ->
  let run := run_all (map closure_handle ops) (createEvent cfg created sx sy) in
  let r := trigger name eventType params now (fst run) in
  let n := occurrences name ops in
  let ty := default (effective_type eventType) (first_type name ops) in
  (name <> "click" ->
   event_pixels name (emitted r) = if (n <? fire_limit ty)%nat then 1%nat else 0%nat) /\
  (name = "click" ->
   event_pixels name (emitted r) = unconsumed (fst run) /\
   alreadyClicked (post r) = true /\
   (event_pixels name (snd run) + event_pixels name (emitted r) <= 1)%nat).
Proof.
  intros Hinh run r n ty. split.
  - intros Hclick.
    assert (Hk : counted name ty n (fst run)).
    { apply (counted_after name ty Hclick Hinh ops 0); [reflexivity|].
      intros _ ty' Hfirst. unfold ty. by rewrite Hfirst. }
    apply (trigger_recounted name ty Hclick Hinh n (fst run) eventType params now);
      [|exact Hk].
    intros Hn. unfold ty. by rewrite (first_type_none name ops Hn).
  - intros ->.
    destruct (click_latch ops (createEvent cfg created sx sy)) as [Hopen Hle];
      [intros _; reflexivity|].
    fold run in Hopen, Hle.
    assert (Hcall : event_pixels "click" (emitted r) = unconsumed (fst run) /\
                    alreadyClicked (post r) = true).
    { subst r. unfold unconsumed. destruct (alreadyClicked (fst run)) eqn:Hc.
      - rewrite trigger_suppressed by (unfold may_fire; rewrite Hc; reflexivity).
        cbn [post emitted]. split; [reflexivity|exact Hc].
      - destruct (trigger_fired "click" eventType params now (fst run)) as (q & -> & _);
          [unfold may_fire; rewrite Hc; reflexivity|].
        cbn [post emitted]. rewrite event_pixels_one. split; [reflexivity|].
        unfold record_fire, read_property. rewrite (Hopen Hc).
        change (inherited "click") with false. reflexivity. }
    destruct Hcall as [Hpx Hset]. split; [exact Hpx|]. split; [exact Hset|].
    rewrite Hpx. change (unconsumed (createEvent cfg created sx sy)) with 1%nat in Hle.
    exact Hle.
Qed.

Lemma trigger_fires_by_occurrence_witness :
  let cfg := Macro "https://t/click?r=x" "1" "https://x/c" in
  let start := createEvent cfg 1000 (num_of_Z 400) (num_of_Z 800) in
  let after ops := fst (run_all (map closure_handle ops) start) in
  let thirty := replicate 30 (Trigger "loaded_imp" (Some "i") None 5000) in
  let timer := [Trigger "time-3s" (Some "t") None 3000] in
  let clicked := [Trigger "click" (Some "i") None 2000] in
  (event_pixels "loaded_imp"
     (emitted (trigger "loaded_imp" (Some "i") None 5000 (after (take 29 thirty))))
   = 1%nat /\
   event_pixels "loaded_imp"
     (emitted (trigger "loaded_imp" (Some "i") None 5000 (after thirty))) = 0%nat) /\
  (event_pixels "time-3s" (emitted (trigger "time-3s" (Some "t") None 3000 start))
   = 1%nat /\
   event_pixels "time-3s"
     (emitted (trigger "time-3s" (Some "t") None 6000 (after timer))) = 0%nat) /\
  (event_pixels "click" (emitted (trigger "click" (Some "t") None 4000 (after clicked)))
   = 0%nat).
Proof.
  intros cfg start after thirty timer clicked.
  split; [split|split; [split|]].
  - exact (proj1 (trigger_fires_by_occurrence cfg 1000 (num_of_Z 400) (num_of_Z 800)
             "loaded_imp" (take 29 thirty) (Some "i") None 5000 eq_refl)
             ltac:(discriminate)).
  - exact (proj1 (trigger_fires_by_occurrence cfg 1000 (num_of_Z 400) (num_of_Z 800)
             "loaded_imp" thirty (Some "i") None 5000 eq_refl)
             ltac:(discriminate)).
  - exact (proj1 (trigger_fires_by_occurrence cfg 1000 (num_of_Z 400) (num_of_Z 800)
             "time-3s" [] (Some "t") None 3000 eq_refl)
             ltac:(discriminate)).
  - exact (proj1 (trigger_fires_by_occurrence cfg 1000 (num_of_Z 400) (num_of_Z 800)
             "time-3s" timer (Some "t") None 6000 eq_refl)
             ltac:(discriminate)).
  - exact (proj1 (proj2 (trigger_fires_by_occurrence cfg 1000 (num_of_Z 400)
             (num_of_Z 800) "click" clicked (Some "t") None 4000 eq_refl) eq_refl)).
Defined.

(** ** The gate in a session of the page *)

(** The arming listener stops at its reference to [addParams]. *)
Lemma triggerRedirection_throws url params clickPixel now (t : tracker) :
  triggerRedirection url params clickPixel now t = Result t [] (Throw ReferenceError).
Proof. reflexivity. Qed.

(** A closure that is not armed stays so, whatever handler runs. *)
Lemma closure_stays_idle (op : closure_op) (t : tracker) :
  allowRedirect t = false ->
  allowRedirect (post (closure_handle op t)) = false /\
  Forall (fun e => is_confirm e = false) (emitted (closure_handle op t)).
Proof.
  intros Ht. destruct op.
  - revert t Ht.
    change (hoare (fun t => allowRedirect t = false) (fun e => is_confirm e = false)
              (closure_handle (Trigger eventName eventType params now))).
    hoare_go frame_side.
  - revert t Ht.
    change (hoare (fun t => allowRedirect t = false) (fun e => is_confirm e = false)
              (closure_handle (GetPosition evt))).
    hoare_go frame_side.
  - cbn [closure_handle]. rewrite handleRedirection_spec, Ht. cbn.
    split; [exact Ht | repeat constructor].
  - revert t Ht.
    change (hoare (fun t => allowRedirect t = false) (fun e => is_confirm e = false)
              (closure_handle (Init_load found))).
    hoare_go frame_side.
  - cbn [closure_handle]. rewrite triggerRedirection_throws. cbn.
    split; [exact Ht | constructor].
Qed.

Section Page.
Variable canPlayType : string -> string.

Lemma idle_lift_ad {A} (m : M player ad_effect A) : hoare all_idle no_confirmation (lift_ad m).
Proof.
  intros s Hs. unfold lift_ad; cbn. split; [exact Hs|].
  apply Forall_fmap, Forall_forall. intros e _. reflexivity.
Qed.

Lemma idle_on_closure (i : nat) (op : closure_op) :
  hoare all_idle no_confirmation (on_closure i (closure_handle op)).
Proof.
  intros s Hs. unfold on_closure.
  destruct (closures s !! i) as [c|] eqn:Hc; cbn; [|split; [exact Hs|constructor]].
  unfold all_idle in Hs.
  pose proof (proj1 (Forall_lookup _ _) Hs i c Hc) as [Hidle Hlist].
  destruct (closure_stays_idle op (vars c) Hidle) as [Hpost Hem].
  split.
  - unfold all_idle; cbn. apply Forall_insert; [exact Hs|]. split; assumption.
  - apply Forall_fmap. eapply Forall_impl; [exact Hem|]. intros e He. exact He.
Qed.

Lemma idle_startAd random created fired sx sy :
  hoare all_idle no_confirmation (startAd random created fired sx sy).
Proof.
  unfold startAd.
  repeat first
    [ hoare_step
    | lazymatch goal with
      | |- hoare _ _ (lift_ad _) => apply idle_lift_ad
      | |- hoare _ _ (on_closure _ (trigger ?n ?ty ?ps ?now)) =>
          apply (idle_on_closure _ (Trigger n ty ps now))
      end ].
  apply hoare_modify. intros s Hs. unfold all_idle in *; cbn.
  apply Forall_app. split; [exact Hs|]. repeat constructor.
Qed.

Lemma idle_handle (i : input) : hoare all_idle no_confirmation (handle canPlayType i).
Proof.
  destruct i; cbn [handle]; try apply idle_lift_ad.
  - apply idle_startAd.
  - apply (idle_on_closure _ (Init_load found)).
  - apply (idle_on_closure _ (GetPosition evt)).
  - apply (idle_on_closure _ HandleRedirection).
  - unfold elementClick.
    repeat first
      [ hoare_step
      | lazymatch goal with
        | |- hoare _ _ (on_closure _ (triggerRedirection ?u ?p ?c ?n)) =>
            apply (idle_on_closure _ (TriggerRedirection u p c n))
        end ].
Qed.

Lemma session_stays_idle (inputs : list input) (s : page) :
  all_idle s ->
  all_idle (fst (session canPlayType inputs s)) /\
  Forall no_confirmation (snd (session canPlayType inputs s)).
Proof.
  apply hoare_run_all. apply Forall_fmap, Forall_forall. intros i _. apply idle_handle.
Qed.

End Page.

(** C3: the confirmation pixel [gClick] is loaded at most once: in a
    session of a closure from any state of its gate, and in a session of
    the page from a new ad; a handler loads it only if it is
    [handleRedirection], run on the click of the anchor while
    [allowRedirect] is set (Armed) and [alreadyClicked] is not (not
    Consumed), and the gate is Consumed after it; and a click while
    [allowRedirect] is not set gets [preventDefault] and nothing else. *)
Theorem confirmation_pixel_gate (t0 : tracker) (ops : list closure_op)
    (canPlayType : string -> string) (inputs : list input) :
  (confirmations (snd (run_all (map closure_handle ops) t0)) <= 1)%nat /\
  (length (filter (fun e => is_confirm_of_page e = true)
             (snd (session canPlayType inputs getVPAIDAd))) <= 1)%nat /\
  (forall op t,
     confirmations (emitted (closure_handle op t)) <> 0%nat ->
     op = HandleRedirection /\
     allowRedirect t = true /\ alreadyClicked t = false /\
     allowRedirect (post (closure_handle op t)) = false /\
     alreadyClicked (post (closure_handle op t)) = true) /\
  (forall t,
     allowRedirect t = false ->
     handleRedirection t = Result t [PreventDefault] (Normal tt)).
Proof.
  split; [|split; [|split]].
  - pose proof (confirmations_bounded ops t0) as H. unfold unconsumed in H.
    destruct (alreadyClicked t0); lia.
  - destruct (session_stays_idle canPlayType inputs getVPAIDAd) as [_ Hes];
      [constructor|].
    induction Hes as [|e es He _ IH]; [cbn; lia|].
    rewrite filter_cons, decide_False by (rewrite He; discriminate). exact IH.
  - intros op t Hc. destruct (handleRedirection_or_not op) as [->|Hop].
    + split; [reflexivity|]. cbn [closure_handle] in *.
      rewrite handleRedirection_spec in *.
      destruct (allowRedirect t), (alreadyClicked t); cbn [andb negb post emitted] in *;
        first [ by repeat split | exfalso; apply Hc; reflexivity ].
    + exfalso. apply Hc, confirmations_none.
      exact (proj2 (closure_no_confirmation op false Hop t ltac:(discriminate))).
  - intros t H. rewrite handleRedirection_spec, H. reflexivity.
Qed.

Lemma confirmation_pixel_gate_witness :
  let idle := createEvent (Macro "https://t/click?r=x" "1" "https://x/c") 0
                (num_of_Z 400) (num_of_Z 800) in
  let armed := set_allowRedirect true idle in
  handleRedirection idle = Result idle [PreventDefault] (Normal tt) /\
  (allowRedirect armed = true /\ alreadyClicked armed = false /\
   alreadyClicked (post (handleRedirection armed)) = true).
Proof.
  intros idle armed.
  pose proof (confirmation_pixel_gate idle [] (fun _ => "") [])
    as (_ & _ & Hconfirm & Hidle).
  split; [exact (Hidle idle eq_refl)|].
  destruct (Hconfirm HandleRedirection armed) as (_ & H1 & H2 & _ & H3).
  - vm_compute. discriminate.
  - repeat split; assumption.
Defined.

(** C4: in a session of the page, whatever the wrapper calls and whatever
    listeners and timers of the script the browser runs, no closure made by
    [startAd] is ever armed and none has an arming listener (nothing calls
    [event.click] or [event.clickCustom]); the confirmation pixel is never
    loaded; every click on the anchor of a closure gets [preventDefault]
    and nothing else; and the arming listener itself, were it run, throws
    a [ReferenceError] at [addParams] and leaves the closure as it was. *)
Theorem click_gate_stays_idle (canPlayType : string -> string) (inputs : list input) :
  let s := fst (session canPlayType inputs getVPAIDAd) in
  let es := snd (session canPlayType inputs getVPAIDAd) in
  Forall (fun c => allowRedirect (vars c) = false /\ listeners c = []) (closures s) /\
  Forall (fun e => is_confirm_of_page e = false) es /\
  (forall i c, closures s !! i = Some c ->
     emitted (handle canPlayType (On_anchorClick i) s) = [OfClosure i PreventDefault]) /\
  (forall url params clickPixel now t,
     triggerRedirection url params clickPixel now t = Result t [] (Throw ReferenceError)).
Proof.
  intros s es.
  destruct (session_stays_idle canPlayType inputs getVPAIDAd) as [Hidle Hes];
    [constructor|].
  fold s in Hidle. fold es in Hes.
  split; [exact Hidle|]. split; [exact Hes|]. split; [|apply triggerRedirection_throws].
  intros i c Hc. cbn [handle]. unfold on_closure. rewrite Hc. cbn [emitted].
  destruct (proj1 (Forall_lookup _ _) Hidle i c Hc) as [Hallow _].
  rewrite handleRedirection_spec, Hallow. reflexivity.
Qed.

Lemma click_gate_stays_idle_witness :
  let webm := fun m : string => if String.eqb m "video/webm" then "maybe" else "" in
  let payload :=
    Parameters (Some [Candidate "b.webm" "video/webm"]) (PoiId (Some "spb7mc5cxgfp"))
      (Some (Macro "https://t/click?r=x" "1" "https://x/c")) in
  let inputs :=
    [ Call_initAd (num_of_Z 640) (num_of_Z 360) "normal" (num_of_Z 256)
        (Some payload) (EnvironmentVars true None);
      Call_startAd (1 # 2) 1000 1002 (num_of_Z 400) (num_of_Z 800);
      On_DOMContentLoaded 0 false ] in
  let s := fst (session webm inputs getVPAIDAd) in
  length (closures s) = 1%nat /\
  emitted (handle webm (On_anchorClick 0) s) = [OfClosure 0 PreventDefault].
Proof.
  intros webm payload inputs s. split; [reflexivity|].
  destruct (closures s !! 0%nat) as [c|] eqn:Hc; [|discriminate].
  exact (proj1 (proj2 (proj2 (click_gate_stays_idle webm inputs))) 0%nat c Hc).
Defined.

(** ** The quartile events *)

#[local] Hint Unfold initAd updateVideoSlot_ callEvent_ call_callback
  update_attributes update_videoSlot the_videoSlot stopAd stopAd_timeout
  setAdVolume assign_volume resizeAd updateVideoPlayerSize_ pauseAd resumeAd
  resumeAd_interval expandAd collapseAd skipAd subscribe unsubscribe
  overlayOnClick_ muteButtonOnClick_ videoResume_ : js.

Ltac quiet_side :=
  first
    [ intros ? ?; simpl; assumption
    | exact I
    | reflexivity ].

Lemma lift_ad_hoare {A} (I : player -> Prop) (X : ad_effect -> Prop)
    (J : page -> Prop) (Y : effect -> Prop) (m : M player ad_effect A) :
  (forall s, J s -> I (ad s)) ->
  (forall s p, J s -> I p -> J (Page p (closures s))) ->
  (forall e, X e -> Y (OfAd e)) ->
  hoare I X m -> hoare J Y (lift_ad m).
Proof.
  intros HJI HIJ HXY Hm s Hs. destruct (Hm (ad s) (HJI s Hs)) as [Hpost Hem].
  unfold lift_ad; cbn. split; [apply HIJ; assumption|].
  apply Forall_fmap. eapply Forall_impl; [exact Hem|]. exact HXY.
Qed.

Lemma on_closure_hoare (J : page -> Prop) (Y : effect -> Prop) (i : nat)
    (m : M tracker tracker_effect unit) :
  (forall s cs, J s -> J (Page (ad s) cs)) ->
  (forall e, Y (OfClosure i e)) ->
  hoare J Y (on_closure i m).
Proof.
  intros HJ HY s Hs. unfold on_closure.
  destruct (closures s !! i) as [c|]; cbn; [|split; [exact Hs|constructor]].
  split; [apply HJ, Hs|]. apply Forall_fmap, Forall_forall. intros e _. apply HY.
Qed.

Section Quiet.
Variable canPlayType : string -> string.
Variable n : nat.

Lemma quiet_lift_ad {A} (m : M player ad_effect A) :
  hoare (fun p => lastQuartileIndex_ p = n) no_quartile m ->
  hoare (cursor_at n) no_quartile_of_page (lift_ad m).
Proof. apply lift_ad_hoare; auto. Qed.

Lemma quiet_on_closure i m : hoare (cursor_at n) no_quartile_of_page (on_closure i m).
Proof. apply on_closure_hoare; [auto | intros; exact I]. Qed.

(** Every method and listener other than [timeUpdateHandler_] leaves the
    quartile cursor alone and calls no quartile event. *)
Lemma quiet_handle (i : input) :
  is_timeupdate i = false ->
  hoare (cursor_at n) no_quartile_of_page (handle canPlayType i).
Proof.
  intros Hi. destruct i; try discriminate; cbn [handle];
    try (apply quiet_lift_ad; hoare_go quiet_side);
    try apply quiet_on_closure.
  - unfold startAd.
    repeat first
      [ hoare_step
      | lazymatch goal with
        | |- hoare _ _ (lift_ad _) => apply quiet_lift_ad; hoare_go quiet_side
        | |- hoare _ _ (on_closure _ _) => apply quiet_on_closure
        | |- hoare _ _ (modify _) => apply hoare_modify; intros ? ?; assumption
        end ].
  - unfold elementClick.
    repeat first [ hoare_step | apply quiet_on_closure ].
Qed.

End Quiet.

Lemma fired_ad_app (es es' : list ad_effect) :
  fired_ad (es ++ es') = fired_ad es ++ fired_ad es'.
Proof.
  induction es as [|[name cb| | | | |] es IH]; simpl; auto.
  destruct (is_quartile name); simpl; congruence.
Qed.

Lemma fired_ad_none (es : list ad_effect) : Forall no_quartile es -> fired_ad es = [].
Proof.
  induction 1 as [|[name cb| | | | |] es He _ IH]; simpl in *; auto.
  by rewrite He.
Qed.

Lemma fired_quartiles_app (es es' : list effect) :
  fired_quartiles (es ++ es') = fired_quartiles es ++ fired_quartiles es'.
Proof.
  induction es as [|[[name cb| | | | |]|i e] es IH]; simpl; auto.
  destruct (is_quartile name); simpl; congruence.
Qed.

Lemma fired_quartiles_of_ad (es : list ad_effect) :
  fired_quartiles (map OfAd es) = fired_ad es.
Proof.
  induction es as [|[name cb| | | | |] es IH]; simpl; auto.
  destruct (is_quartile name); simpl; congruence.
Qed.

Lemma fired_quartiles_none (es : list effect) :
  Forall no_quartile_of_page es -> fired_quartiles es = [].
Proof.
  induction 1 as [|[[name cb| | | | |]|i e] es He _ IH]; simpl in *; auto.
  by rewrite He.
Qed.

Lemma quartiles_between_refl (a : nat) : quartiles_between a a = [].
Proof. unfold quartiles_between. by rewrite Nat.sub_diag. Qed.

Lemma quartiles_between_trans (a b c : nat) :
  (a <= b <= c)%nat ->
  quartiles_between a b ++ quartiles_between b c = quartiles_between a c.
Proof.
  intros [Hab Hbc]. unfold quartiles_between. rewrite <- map_app. f_equal.
  assert (Hd : drop (b - a) (drop a quartileEvents_) = drop b quartileEvents_).
  { rewrite drop_drop. f_equal. lia. }
  rewrite <- Hd, take_take_drop. f_equal. lia.
Qed.

Lemma quartiles_between_next (a : nat) name value :
  quartileEvents_ !! a = Some (name, value) -> quartiles_between a (S a) = [name].
Proof.
  intros H. unfold quartiles_between.
  replace (S a - a)%nat with 1%nat by lia.
  rewrite (drop_S _ _ _ H). reflexivity.
Qed.

Lemma quartiles_between_past (a b : nat) :
  (length quartileEvents_ <= a)%nat -> quartiles_between a b = [].
Proof.
  intros H. unfold quartiles_between.
  rewrite drop_ge by exact H. by rewrite take_nil.
Qed.

Lemma quartile_is_quartile (a : nat) name value :
  quartileEvents_ !! a = Some (name, value) ->
  is_quartile name = true /\ inherited name = false.
Proof.
  destruct a as [|[|[|[|[|a]]]]]; simpl; intros [= <- <-]; split; reflexivity.
Qed.

(** What follows a computation, if it is quiet, changes neither the
    cursor it leaves nor the quartile events it has called. *)
Lemma bind_quiet {A B} (m : M player ad_effect A) (k : A -> M player ad_effect B)
    (a : nat) (p : player) :
  (forall x, quiet (k x)) -> advanced a (m p) -> advanced a (bind m k p).
Proof.
  intros Hk [Hf Hc]. unfold advanced, bind.
  destruct (outcome (m p)) as [x|e]; cbn [post emitted]; [|auto].
  destruct (Hk x _ (post (m p)) eq_refl) as [Hpost Hem].
  rewrite Hpost, fired_ad_app, (fired_ad_none _ Hem), app_nil_r. auto.
Qed.

Lemma advanced_still {A} (p : player) (es : list ad_effect) (o : completion A) :
  Forall no_quartile es -> advanced (lastQuartileIndex_ p) (Result p es o).
Proof.
  intros Hes. unfold advanced; cbn [post emitted].
  rewrite (fired_ad_none _ Hes), quartiles_between_refl. split; [reflexivity|lia].
Qed.

(** The check of the duration, lines 161-164. *)
Lemma duration_check_quiet (video_duration : num) :
  quiet
    (p <- get ;;
     if negb (num_eqb (duration (attributes_ p)) video_duration) then
       update_attributes (set_duration video_duration) ;;;
       callEvent_ "AdDurationChange"
     else ret tt).
Proof. intros n. hoare_go quiet_side. Qed.

Lemma bind_silent {S E A B} (m : M S E A) (k : A -> M S E B) (s s' : S) a :
  m s = Result s' [] (Normal a) -> bind m k s = k a s'.
Proof. intros H. rewrite (bind_result _ _ _ _ _ _ H). cbn [app]. apply result_eta. Qed.

Lemma the_videoSlot_spec (p : player) :
  the_videoSlot p =
  match videoSlot_ p with
  | Some v => Result p [] (Normal v)
  | None => Result p [] (Throw TypeError)
  end.
Proof. unfold the_videoSlot. rewrite bind_get. by destruct (videoSlot_ p). Qed.

Lemma call_callback_spec (name : string) (p : player) :
  call_callback name p =
  match eventsCallbacks_ p !! name with
  | Some (Some cb) => Result p [Invoke name cb] (Normal tt)
  | Some None => Result p [] (Throw TypeError)
  | None => if inherited name then call_inherited name p
            else Result p [] (Throw TypeError)
  end.
Proof.
  unfold call_callback. rewrite bind_get.
  destruct (eventsCallbacks_ p !! name) as [[cb|]|]; try reflexivity.
  by destruct (inherited name).
Qed.

(** One progress tick calls at most one quartile event, the one under
    the cursor, and moves the cursor past it. *)
Lemma tick_spec (currentTime video_duration : num) (p : player) :
  advanced (lastQuartileIndex_ p) (timeUpdateHandler_ currentTime video_duration p).
Proof.
  unfold timeUpdateHandler_.
  pose proof (the_videoSlot_spec p) as Hslot.
  destruct (videoSlot_ p) as [v|] eqn:Hv.
  2:{ rewrite (bind_thrown _ _ _ _ _ _ Hslot). by apply advanced_still. }
  rewrite (bind_silent _ _ _ _ _ Hslot). cbv beta.
  unfold update_attributes at 1. rewrite bind_modify. cbv beta.
  rewrite bind_get. cbv beta.
  set (p1 := set_attributes _ p).
  change (lastQuartileIndex_ p) with (lastQuartileIndex_ p1).
  destruct (length quartileEvents_ <=? lastQuartileIndex_ p1)%nat eqn:Hlen.
  { by apply advanced_still. }
  apply bind_quiet; [intros _; apply duration_check_quiet|].
  destruct (quartileEvents_ !! lastQuartileIndex_ p1) as [[name value]|] eqn:Hq.
  2:{ by apply advanced_still. }
  destruct (quartile_is_quartile _ _ _ Hq) as [Hname Hinh].
  destruct (double_geb _ (to_double value)).
  2:{ by apply advanced_still. }
  pose proof (call_callback_spec name p1) as Hcall. rewrite Hinh in Hcall.
  destruct (eventsCallbacks_ p1 !! name) as [[cb|]|].
  - rewrite (bind_result _ _ _ _ _ _ Hcall). unfold advanced.
    cbn [modify post emitted fired_ad app set_lastQuartileIndex lastQuartileIndex_].
    rewrite Hname, Nat.add_1_r, (quartiles_between_next _ _ _ Hq).
    split; [reflexivity|lia].
  - rewrite (bind_thrown _ _ _ _ _ _ Hcall). by apply advanced_still.
  - rewrite (bind_thrown _ _ _ _ _ _ Hcall). by apply advanced_still.
Qed.

Lemma ticks_cons (i : input) (inputs : list input) :
  ticks (i :: inputs) = ((if is_timeupdate i then 1 else 0) + ticks inputs)%nat.
Proof.
  unfold ticks. rewrite filter_cons.
  destruct (is_timeupdate i);
    [rewrite decide_True by reflexivity | rewrite decide_False by discriminate];
    reflexivity.
Qed.

(** One input moves the cursor only if it is a tick, and the quartile
    events it calls are those the cursor has passed. *)
Lemma handle_advanced (canPlayType : string -> string) (i : input) (s : page) :
  let r := handle canPlayType i s in
  let a := lastQuartileIndex_ (ad s) in
  let b := lastQuartileIndex_ (ad (post r)) in
  fired_quartiles (emitted r) = quartiles_between a b /\
  (a <= b <= a + (if is_timeupdate i then 1 else 0))%nat.
Proof.
  cbv zeta. destruct (is_timeupdate i) eqn:Hi.
  - destruct i; try discriminate. cbn [handle]. unfold lift_ad; cbn [post emitted ad].
    rewrite fired_quartiles_of_ad. apply tick_spec.
  - destruct (quiet_handle canPlayType (lastQuartileIndex_ (ad s)) i Hi s eq_refl)
      as [Hpost Hem].
    rewrite Hpost, (fired_quartiles_none _ Hem), quartiles_between_refl.
    split; [reflexivity|lia].
Qed.

Lemma session_advanced (canPlayType : string -> string) (inputs : list input) (s : page) :
  let s' := fst (session canPlayType inputs s) in
  let es := snd (session canPlayType inputs s) in
  let a := lastQuartileIndex_ (ad s) in
  let b := lastQuartileIndex_ (ad s') in
  fired_quartiles es = quartiles_between a b /\ (a <= b <= a + ticks inputs)%nat.
Proof.
  cbv zeta. unfold session. revert s.
  induction inputs as [|i inputs IH]; intros s; cbn [map run_all fst snd].
  - rewrite quartiles_between_refl. cbn. split; [reflexivity|lia].
  - destruct (handle_advanced canPlayType i s) as [Hf Hc].
    specialize (IH (post (handle canPlayType i s))).
    destruct (run_all (map (handle canPlayType) inputs) (post (handle canPlayType i s)))
      as [s' es].
    cbn [fst snd] in *. destruct IH as [Hf' Hc'].
    rewrite fired_quartiles_app, Hf, Hf', ticks_cons.
    split; [apply quartiles_between_trans|]; lia.
Qed.

Lemma quartiles_between_NoDup (a b : nat) : NoDup (quartiles_between a b).
Proof.
  unfold quartiles_between. rewrite fmap_take, fmap_drop.
  eapply sublist_NoDup; [|apply sublist_take].
  eapply sublist_NoDup; [|apply sublist_drop].
  apply (bool_decide_unpack _). reflexivity.
Qed.

Lemma quartiles_between_length (a b : nat) :
  (length (quartiles_between a b) <= length quartileEvents_ - a)%nat.
Proof.
  unfold quartiles_between. rewrite length_map, length_take, length_drop. lia.
Qed.

(** A tick that has reached the threshold under the cursor calls the
    callback bound to that event, and no other quartile event. *)
Lemma tick_fires (currentTime video_duration : num) (p : player) v name value cb :
  videoSlot_ p = Some v ->
  quartileEvents_ !! lastQuartileIndex_ p = Some (name, value) ->
  double_geb (percentPlayed currentTime video_duration) (to_double value) = true ->
  eventsCallbacks_ p !! name = Some (Some cb) ->
  let r := timeUpdateHandler_ currentTime video_duration p in
  fired_ad (emitted r) = [name] /\
  lastQuartileIndex_ (post r) = S (lastQuartileIndex_ p).
Proof.
  intros Hv Hq Hge Hcb. cbv zeta.
  assert (Hnext : lastQuartileIndex_
            (post (timeUpdateHandler_ currentTime video_duration p))
          = S (lastQuartileIndex_ p)).
  { unfold timeUpdateHandler_.
    pose proof (the_videoSlot_spec p) as Hslot. rewrite Hv in Hslot.
    rewrite (bind_silent _ _ _ _ _ Hslot). cbv beta.
    unfold update_attributes at 1. rewrite bind_modify. cbv beta.
    rewrite bind_get. cbv beta zeta.
    set (p1 := set_attributes _ p).
    change (lastQuartileIndex_ p1) with (lastQuartileIndex_ p).
    assert (Hlen : (length quartileEvents_ <=? lastQuartileIndex_ p)%nat = false).
    { apply Nat.leb_gt. eapply lookup_lt_Some, Hq. }
    rewrite Hlen, Hq, Hge.
    pose proof (call_callback_spec name p1) as Hcall.
    change (eventsCallbacks_ p1) with (eventsCallbacks_ p) in Hcall.
    rewrite Hcb in Hcall.
    match goal with |- context [bind (bind ?m ?k) ?k' p1] =>
      assert (Hq1 : bind m k p1 =
        Result (set_lastQuartileIndex (lastQuartileIndex_ p1 + 1) p1)
          [Invoke name cb] (Normal tt))
        by (rewrite (bind_result _ _ _ _ _ _ Hcall); reflexivity);
      destruct (duration_check_quiet video_duration _
                  (post (bind m k p1)) eq_refl) as [Hpost _];
      unfold bind at 1; rewrite Hq1 in *
    end.
    cbn [post outcome] in *. rewrite Hpost. cbn. lia. }
  split; [|exact Hnext].
  destruct (tick_spec currentTime video_duration p) as [Hf _].
  rewrite Hf, Hnext. exact (quartiles_between_next _ _ _ Hq).
Qed.

(** A tick calls no quartile event and leaves the cursor where it is when
    the percent played is below the threshold under the cursor (or is
    [NaN]), when no callback is bound to the event under the cursor, and
    when there is no video slot. *)
Lemma tick_holds (currentTime video_duration : num) (p : player) name value :
  quartileEvents_ !! lastQuartileIndex_ p = Some (name, value) ->
  double_geb (percentPlayed currentTime video_duration) (to_double value) = false
  \/ (forall cb, eventsCallbacks_ p !! name <> Some (Some cb))
  \/ videoSlot_ p = None ->
  let r := timeUpdateHandler_ currentTime video_duration p in
  fired_ad (emitted r) = [] /\ lastQuartileIndex_ (post r) = lastQuartileIndex_ p.
Proof.
  intros Hq Hcase. cbv zeta.
  assert (Hsame : lastQuartileIndex_
            (post (timeUpdateHandler_ currentTime video_duration p))
          = lastQuartileIndex_ p).
  { unfold timeUpdateHandler_.
    pose proof (the_videoSlot_spec p) as Hslot.
    destruct (videoSlot_ p) as [v|] eqn:Hv.
    2:{ by rewrite (bind_thrown _ _ _ _ _ _ Hslot). }
    rewrite (bind_silent _ _ _ _ _ Hslot). cbv beta.
    unfold update_attributes at 1. rewrite bind_modify. cbv beta.
    rewrite bind_get. cbv beta zeta.
    set (p1 := set_attributes _ p).
    change (lastQuartileIndex_ p1) with (lastQuartileIndex_ p).
    assert (Hlen : (length quartileEvents_ <=? lastQuartileIndex_ p)%nat = false).
    { apply Nat.leb_gt. eapply lookup_lt_Some, Hq. }
    rewrite Hlen, Hq.
    destruct (double_geb _ (to_double value)) eqn:Hge.
    - destruct Hcase as [Hb|[Hcb|Hno]]; [discriminate| |discriminate].
      assert (Hcall : call_callback name p1 = Result p1 [] (Throw TypeError)).
      { rewrite call_callback_spec.
        change (eventsCallbacks_ p1) with (eventsCallbacks_ p).
        destruct (quartile_is_quartile _ _ _ Hq) as [_ Hinh]. rewrite Hinh.
        destruct (eventsCallbacks_ p !! name) as [[cb|]|] eqn:E; try reflexivity.
        by destruct (Hcb cb). }
      match goal with |- context [bind (bind ?m ?k) ?k' p1] =>
        assert (H1 : bind m k p1 = Result p1 [] (Throw TypeError))
          by (by rewrite (bind_thrown _ _ _ _ _ _ Hcall))
      end.
      by rewrite (bind_thrown _ _ _ _ _ _ H1).
    - rewrite bind_ret.
      exact (proj1 (duration_check_quiet video_duration _ p1 eq_refl)). }
  split; [|exact Hsame].
  destruct (tick_spec currentTime video_duration p) as [Hf _].
  rewrite Hf, Hsame. apply quartiles_between_refl.
Qed.

(** C1, as the code has it: each progress tick calls at most one
    quartile event, the one under the cursor, when the percent played, as
    the doubles give it, has reached its threshold and a callback is bound
    to it, and then moves the cursor by one; a tick whose percent is below
    the threshold under the cursor, or that finds no callback or no video
    slot, calls no quartile event and leaves the cursor.  Thresholds
    crossed together are thus called one per tick, on the ticks that
    follow, in threshold order.  Over any session, the quartile events
    called are exactly those from the first cursor to the last, in the
    order of the table: each at most once, at most as many as there were
    ticks, and none once the cursor is past the last one. *)
Theorem quartile_events_one_per_tick (canPlayType : string -> string)
    (inputs : list input) (s : page) :
  let s' := fst (session canPlayType inputs s) in
  let es := snd (session canPlayType inputs s) in
  let a := lastQuartileIndex_ (ad s) in
  let b := lastQuartileIndex_ (ad s') in
  fired_quartiles es = quartiles_between a b /\
  (a <= b <= a + ticks inputs)%nat /\
  NoDup (fired_quartiles es) /\
  (length (fired_quartiles es) <= length quartileEvents_ - a)%nat /\
  (forall currentTime video_duration (p : player) name value,
     quartileEvents_ !! lastQuartileIndex_ p = Some (name, value) ->
     let r := timeUpdateHandler_ currentTime video_duration p in
     let reached :=
       double_geb (percentPlayed currentTime video_duration) (to_double value) in
     (forall v cb,
        videoSlot_ p = Some v -> reached = true ->
        eventsCallbacks_ p !! name = Some (Some cb) ->
        fired_ad (emitted r) = [name] /\
        lastQuartileIndex_ (post r) = S (lastQuartileIndex_ p)) /\
     (reached = false
      \/ (forall cb, eventsCallbacks_ p !! name <> Some (Some cb))
      \/ videoSlot_ p = None ->
      fired_ad (emitted r) = [] /\
      lastQuartileIndex_ (post r) = lastQuartileIndex_ p)).
Proof.
  cbv zeta. destruct (session_advanced canPlayType inputs s) as [Hf Hc].
  rewrite Hf. split; [reflexivity|]. split; [exact Hc|].
  split; [apply quartiles_between_NoDup|]. split; [apply quartiles_between_length|].
  intros ct d p name value Hq. split.
  - intros v cb Hv Hge Hcb. exact (tick_fires ct d p v name value cb Hv Hq Hge Hcb).
  - intros Hcase. exact (tick_holds ct d p name value Hq Hcase).
Qed.

Lemma quartile_events_one_per_tick_witness :
  let webm := fun m : string => if String.eqb m "video/webm" then "maybe" else "" in
  let p :=
    post (subscribe 1%nat "AdVideoStart"
            (set_videoSlot (Some createElement_video) VpaidVideoPlayer)) in
  let r := timeUpdateHandler_ (num_of_Z 30) (num_of_Z 30) p in
  let halfway :=
    set_lastQuartileIndex 2
      (post (subscribe 3%nat "AdVideoMidpoint"
               (set_videoSlot (Some createElement_video) VpaidVideoPlayer))) in
  let r' := timeUpdateHandler_ (Fin (5128 # 1000)) (Fin (10256 # 1000)) halfway in
  let at_end :=
    set_lastQuartileIndex 4
      (post (subscribe 5%nat "AdVideoComplete"
               (set_videoSlot (Some createElement_video) VpaidVideoPlayer))) in
  let r'' := timeUpdateHandler_ (Fin (10256 # 1000)) (Fin (10256 # 1000)) at_end in
  (fired_ad (emitted r) = ["AdVideoStart"] /\ lastQuartileIndex_ (post r) = 1%nat) /\
  (fired_ad (emitted r') = [] /\ lastQuartileIndex_ (post r') = 2%nat) /\
  (fired_ad (emitted r'') = [] /\ lastQuartileIndex_ (post r'') = 4%nat).
Proof.
  intros webm p r halfway r' at_end r''.
  pose proof (proj2 (proj2 (proj2 (proj2
           (quartile_events_one_per_tick webm [] getVPAIDAd))))) as H.
  split; [|split].
  - exact (proj1 (H (num_of_Z 30) (num_of_Z 30) p "AdVideoStart" (num_of_Z 0) eq_refl)
             createElement_video 1%nat eq_refl eq_refl eq_refl).
  - apply (proj2 (H (Fin (5128 # 1000)) (Fin (10256 # 1000)) halfway
                    "AdVideoMidpoint" (num_of_Z 50) eq_refl)).
    left. vm_compute. reflexivity.
  - apply (proj2 (H (Fin (10256 # 1000)) (Fin (10256 # 1000)) at_end
                    "AdVideoComplete" (num_of_Z 100) eq_refl)).
    left. vm_compute. reflexivity.
Defined.

(** C1 as it is stated fails: with all five quartile events subscribed
    and the cursor at the start, a tick at 100 percent has crossed the
    five thresholds, and the specification's loop dispatches the five
    events on that call; the handler calls [AdVideoStart] alone, so that
    after this sequence of one tick four events have not fired. *)
Lemma quartiles_not_all_on_one_tick :
  let p :=
    fst (run_all
           [ subscribe 1%nat "AdVideoStart"; subscribe 2%nat "AdVideoFirstQuartile";
             subscribe 3%nat "AdVideoMidpoint"; subscribe 4%nat "AdVideoThirdQuartile";
             subscribe 5%nat "AdVideoComplete" ]
           (set_videoSlot (Some createElement_video) VpaidVideoPlayer)) in
  let r := timeUpdateHandler_ (num_of_Z 30) (num_of_Z 30) p in
  spec_onProgress (num_of_Z 30) (num_of_Z 30) (lastQuartileIndex_ p)
    = [ "AdVideoStart"; "AdVideoFirstQuartile"; "AdVideoMidpoint";
        "AdVideoThirdQuartile"; "AdVideoComplete" ] /\
  fired_ad (emitted r) = ["AdVideoStart"] /\
  fired_ad (emitted r)
    <> spec_onProgress (num_of_Z 30) (num_of_Z 30) (lastQuartileIndex_ p).
Proof.
  intros p r. split; [vm_compute; reflexivity|].
  split; [vm_compute; reflexivity|]. vm_compute. discriminate.
Qed.

(** ** The volume *)

Section Volume.
Variable canPlayType : string -> string.

Ltac volume_side :=
  first [ intros ? ?; assumption | exact I | intros ? ?; reflexivity ].

(** What [setAdVolume] stores is what it was given: neither the assignment
    to the media element nor the event changes it, even when they throw. *)
Lemma setAdVolume_stores (value : num) (p : player) :
  getAdVolume (post (setAdVolume value p)) = value.
Proof.
  unfold setAdVolume, update_attributes at 1. rewrite bind_modify.
  match goal with |- getAdVolume (post (?m ?p1)) = _ =>
    assert (H : hoare (fun p => volume (attributes_ p) = value) (fun _ => True) m)
      by hoare_go volume_side;
    exact (proj1 (H p1 eq_refl))
  end.
Qed.

Lemma volume_lift_ad {A} (m : M player ad_effect A) :
  hoare volume_ok (fun _ => True) m ->
  hoare (fun s => volume_ok (ad s)) (fun _ => True) (lift_ad m).
Proof. apply lift_ad_hoare; auto. Qed.

(** Every handler but [setAdVolume] keeps the volume in the interval:
    only the mute button writes it, with [0] or [1]. *)
Lemma volume_handle (i : input) :
  (forall value, i = Call_setAdVolume value -> in_unit_interval value = true) ->
  hoare (fun s => volume_ok (ad s)) (fun _ => True) (handle canPlayType i).
Proof.
  intros Hi. destruct i; cbn [handle];
    try (apply volume_lift_ad; hoare_go volume_side);
    try (apply on_closure_hoare; [auto | intros; exact I]).
  - unfold startAd.
    repeat first
      [ hoare_step
      | lazymatch goal with
        | |- hoare _ _ (lift_ad _) => apply volume_lift_ad; hoare_go volume_side
        | |- hoare _ _ (on_closure _ _) =>
            apply on_closure_hoare; [auto | intros; exact I]
        | |- hoare _ _ (modify _) => apply hoare_modify; intros ? ?; assumption
        end ].
  - apply hoare_modify. intros p _. exact (Hi value eq_refl).
  - unfold timeUpdateHandler_. hoare_go volume_side.
  - unfold elementClick.
    repeat first
      [ hoare_step | apply on_closure_hoare; [auto | intros; exact I] ].
Qed.

Lemma volume_session (inputs : list input) (s : page) :
  volume_ok (ad s) ->
  (forall value, Call_setAdVolume value ∈ inputs -> in_unit_interval value = true) ->
  volume_ok (ad (fst (session canPlayType inputs s))).
Proof.
  intros Hs Hin.
  apply (hoare_run_all (fun s => volume_ok (ad s)) (fun _ => True)); [|exact Hs].
  apply Forall_fmap, Forall_forall. intros i Hi. apply volume_handle.
  intros value ->. apply Hin, Hi.
Qed.

(** What the mute button stores, also when the assignment to the media
    element or the event throws. *)
Lemma muteButtonOnClick_stores (p : player) :
  getAdVolume (post (muteButtonOnClick_ p)) =
  if num_eqb (getAdVolume p) (num_of_Z 0) then num_of_Z 1 else num_of_Z 0.
Proof.
  unfold muteButtonOnClick_. rewrite bind_get. unfold getAdVolume at 2.
  destruct (num_eqb (volume (attributes_ p)) (num_of_Z 0));
    rewrite bind_assoc; unfold update_attributes at 1; rewrite bind_modify;
    match goal with |- getAdVolume (post (?m ?p1)) = ?x =>
      assert (H : hoare (fun p => volume (attributes_ p) = x) (fun _ => True) m)
        by hoare_go volume_side;
      exact (proj1 (H p1 eq_refl))
    end.
Qed.

Lemma kept_lift_ad {A} (x : num) (m : M player ad_effect A) :
  hoare (fun p => getAdVolume p = x) (fun _ => True) m ->
  hoare (fun s => getAdVolume (ad s) = x) (fun _ => True) (lift_ad m).
Proof. apply lift_ad_hoare; auto. Qed.

(** Every handler but [setAdVolume] and the mute button leaves the stored
    volume as it is. *)
Lemma volume_kept (i : input) (x : num) :
  (forall value, i <> Call_setAdVolume value) -> i <> On_muteButtonClick ->
  hoare (fun s => getAdVolume (ad s) = x) (fun _ => True) (handle canPlayType i).
Proof.
  intros Hset Hmute. destruct i; cbn [handle];
    try (by destruct (Hset value)); try (by destruct Hmute);
    try (apply kept_lift_ad; hoare_go volume_side);
    try (apply on_closure_hoare; [auto | intros; exact I]).
  - unfold startAd.
    repeat first
      [ hoare_step
      | lazymatch goal with
        | |- hoare _ _ (lift_ad _) => apply kept_lift_ad; hoare_go volume_side
        | |- hoare _ _ (on_closure _ _) =>
            apply on_closure_hoare; [auto | intros; exact I]
        | |- hoare _ _ (modify _) => apply hoare_modify; intros ? ?; assumption
        end ].
  - unfold timeUpdateHandler_. hoare_go volume_side.
  - unfold elementClick.
    repeat first
      [ hoare_step | apply on_closure_hoare; [auto | intros; exact I] ].
Qed.

End Volume.

(** C10, as the code has it: [setAdVolume] stores the value it is given
    as it is, so that [getAdVolume()] returns the last value set, within
    [0, 1] or not; the mute button stores [1] over a volume equal to [0]
    and [0] over any other; and every other method, listener and timer
    leaves the stored volume as it finds it, whether it returns or throws.
    The volume therefore stays in [0, 1] over every session in which the
    values passed to [setAdVolume] are in [0, 1]. *)
Theorem volume_follows_setAdVolume (canPlayType : string -> string)
    (inputs : list input) (s : page) :
  in_unit_interval (getAdVolume (ad s)) = true ->
  (forall value, Call_setAdVolume value ∈ inputs -> in_unit_interval value = true) ->
  in_unit_interval (getAdVolume (ad (fst (session canPlayType inputs s)))) = true /\
  (forall (i : input) (s' : page),
     getAdVolume (ad (post (handle canPlayType i s')))
     = volume_after i (getAdVolume (ad s'))).
Proof.
  intros Hs Hin. split; [exact (volume_session canPlayType inputs s Hs Hin)|].
  intros i s'.
  destruct i; cbn [volume_after];
    try (refine (proj1 (volume_kept canPlayType _ (getAdVolume (ad s')) _ _ s' eq_refl));
         [intros ?; discriminate | discriminate]).
  - cbn [handle]. unfold lift_ad; cbn [post ad]. apply setAdVolume_stores.
  - cbn [handle]. unfold lift_ad; cbn [post ad]. apply muteButtonOnClick_stores.
Qed.

Lemma volume_follows_setAdVolume_witness :
  let silent := fun _ : string => "" in
  let s :=
    fst (session silent
           [ Call_initAd (num_of_Z 640) (num_of_Z 360) "normal" (num_of_Z 256)
               (Some (Parameters None (PoiId None) None))
               (EnvironmentVars true None) ]
           getVPAIDAd) in
  let inputs := [ Call_setAdVolume (Fin (1 # 2)); On_muteButtonClick;
                  On_muteButtonClick; Call_setAdVolume (Fin (3 # 4)) ] in
  (in_unit_interval (getAdVolume (ad s)) = true /\
   outcome (handle silent (Call_setAdVolume (Fin (1 # 2))) s) = Normal tt /\
   outcome (handle silent On_muteButtonClick s) = Normal tt) /\
  in_unit_interval (getAdVolume (ad (fst (session silent inputs s)))) = true /\
  getAdVolume (ad (post (handle silent Call_collapseAd s))) = getAdVolume (ad s).
Proof.
  intros silent s inputs.
  assert (Hin : forall value,
            Call_setAdVolume value ∈ inputs -> in_unit_interval value = true).
  { intros value Hin. unfold inputs in Hin.
    repeat (apply elem_of_cons in Hin as [Hin|Hin]; [try discriminate; by simplify_eq|]).
    by apply elem_of_nil in Hin. }
  split; [repeat split|].
  split.
  - exact (proj1 (volume_follows_setAdVolume silent inputs s eq_refl Hin)).
  - exact (proj2 (volume_follows_setAdVolume silent inputs s eq_refl Hin)
             Call_collapseAd s).
Defined.

(** C10 as it is stated fails: after [initAd], [setAdVolume(50)] returns
    normally and [getAdVolume()] is [50], outside of [0, 1]. *)
Lemma volume_leaves_unit_interval :
  let silent := fun _ : string => "" in
  let s :=
    fst (session silent
           [ Call_initAd (num_of_Z 640) (num_of_Z 360) "normal" (num_of_Z 256)
               (Some (Parameters None (PoiId None) None))
               (EnvironmentVars true None) ]
           getVPAIDAd) in
  let r := handle silent (Call_setAdVolume (num_of_Z 50)) s in
  in_unit_interval (getAdVolume (ad s)) = true /\
  outcome r = Normal tt /\
  getAdVolume (ad (post r)) = num_of_Z 50 /\
  in_unit_interval (getAdVolume (ad (post r))) = false.
Proof. intros silent s r. repeat split. Qed.

(** ** The media source *)

Lemma callEvent_not_cleared (name : string) (p : player) :
  not_cleared name p -> inherited name = false ->
  callEvent_ name p =
  Result p
    (match eventsCallbacks_ p !! name with
     | Some (Some cb) => [Invoke name cb]
     | _ => []
     end) (Normal tt).
Proof.
  intros Hn Hi. destruct (eventsCallbacks_ p !! name) as [[cb|]|] eqn:H.
  - by apply callEvent_bound.
  - by destruct Hn.
  - by apply callEvent_unbound.
Qed.

Lemma update_videoSlot_spec (f : video -> video) (p : player) :
  update_videoSlot f p =
  match videoSlot_ p with
  | Some v => Result (set_videoSlot (Some (f v)) p) [] (Normal tt)
  | None => Result p [] (Throw TypeError)
  end.
Proof.
  unfold update_videoSlot. pose proof (the_videoSlot_spec p) as H.
  destruct (videoSlot_ p) as [v|].
  - rewrite (bind_silent _ _ _ _ _ H). reflexivity.
  - rewrite (bind_thrown _ _ _ _ _ _ H). reflexivity.
Qed.

Section Source.
Variable canPlayType : string -> string.




End Source.






(** ** The audio of the point of interest *)




Section StartAd.
Variables (random : Q) (created fired : Z) (sx sy : num).




End StartAd.




(** * Further properties of the script *)

Lemma trigger_policy_witness :
  let ops :=
    replicate 31 (Trigger "swipe" (Some "i") None 5000)
    ++ [ GetPosition (DomEvent (Some (num_of_Z 100)) (Some (num_of_Z 200)) None);
         Trigger "time-3s" None None 4000; Trigger "time-3s" None None 7000 ] in
  let es :=
    snd (run_all (map closure_handle ops)
           (createEvent (Macro "https://t/click?r=x" "1" "https://x/c") 1000
              (num_of_Z 400) (num_of_Z 800))) in
  event_pixels "swipe" es = 30%nat /\ event_pixels "time-3s" es = 1%nat.
Proof.
  intros ops es. split.
  - apply (trigger_policy "swipe" "i" ltac:(discriminate) eq_refl).
    intros name' eventType params now Hin ->. unfold ops in Hin.
    apply elem_of_app in Hin as [Hin|Hin].
    + apply elem_of_replicate in Hin as [Hin _]. injection Hin as -> _ _. reflexivity.
    + repeat (apply elem_of_cons in Hin as [Hin|Hin]; [discriminate|]).
      by apply elem_of_nil in Hin.
  - apply (trigger_policy "time-3s" "t" ltac:(discriminate) eq_refl).
    intros name' eventType params now Hin ->. unfold ops in Hin.
    apply elem_of_app in Hin as [Hin|Hin].
    + apply elem_of_replicate in Hin as [[=] _].
    + repeat (apply elem_of_cons in Hin as [Hin|Hin];
                [try discriminate; injection Hin as -> _ _; reflexivity|]).
      by apply elem_of_nil in Hin.
Defined.

Lemma has_key_keys (k : string) (o : object) :
  has_key k o = true <-> k ∈ keys o.
Proof.
  unfold has_key, keys. induction o as [|[k' v] o IH]; simpl.
  - split; [discriminate | intros H; by apply elem_of_nil in H].
  - rewrite elem_of_cons, orb_true_iff, IH, String.eqb_eq. tauto.
Qed.

Lemma has_key_false (k : string) (o : object) :
  has_key k o = false <-> k ∉ keys o.
Proof.
  rewrite <- has_key_keys. destruct (has_key k o); split; intros H; try done.
Qed.

Lemma keys_obj_set (k : string) (v : jsval) (o : object) :
  keys (obj_set k v o) = keys o ++ (if has_key k o then [] else [k]).
Proof.
  unfold keys, has_key. induction o as [|[k' v'] o IH]; simpl; [reflexivity|].
  destruct (String.eqb k k') eqn:E; simpl.
  - apply String.eqb_eq in E. subst. by rewrite app_nil_r.
  - by rewrite IH.
Qed.

Lemma merge_cons (k : string) (v : jsval) (from to : object) :
  mergeTwoObjects to ((k, v) :: from) = mergeTwoObjects (obj_set k v to) from.
Proof. reflexivity. Qed.

Lemma merge_get_present (k : string) (from to : object) :
  NoDup (keys from) -> has_key k from = true ->
  obj_get k (mergeTwoObjects to from) = obj_get k from.
Proof.
  revert to.
  induction from as [|[k' v'] from IH]; intros to Hnd Hk; [discriminate|].
  apply NoDup_cons in Hnd as [Hnotin Hnd]. rewrite merge_cons. cbn [obj_get].
  cbn [has_key existsb fst] in Hk.
  destruct (String.eqb k k') eqn:E.
  - apply String.eqb_eq in E. subst k'.
    rewrite (merge_get_absent k from); [apply obj_get_set_eq|].
    by apply has_key_false.
  - apply IH; assumption.
Qed.

Lemma keys_merge (from to : object) :
  NoDup (keys from) ->
  keys (mergeTwoObjects to from)
  = keys to ++ List.filter (fun k => negb (has_key k to)) (keys from).
Proof.
  revert to.
  induction from as [|[k v] from IH]; intros to Hnd; [|rewrite merge_cons].
  - cbn. by rewrite app_nil_r.
  - apply NoDup_cons in Hnd as [Hnotin Hnd].
    rewrite IH by exact Hnd. rewrite keys_obj_set, <- app_assoc. f_equal.
    cbn [keys map fst List.filter].
    assert (Hsame : List.filter (fun k0 => negb (has_key k0 (obj_set k v to))) (keys from)
                    = List.filter (fun k0 => negb (has_key k0 to)) (keys from)).
    { apply List.filter_ext_in. intros k0 Hin. rewrite has_key_set.
      destruct (String.eqb k0 k) eqn:E; [|reflexivity].
      apply String.eqb_eq in E. subst k0. destruct Hnotin.
      by apply list_elem_of_In. }
    fold (keys from). rewrite Hsame. by destruct (has_key k to).
Qed.
Lemma obj_set_same (k : string) (v : jsval) (o : object) :
  has_key k o = true -> obj_get k o = v -> obj_set k v o = o.
Proof.
  unfold has_key. induction o as [|[k' v'] o IH]; simpl; [discriminate|].
  destruct (String.eqb k k') eqn:E; simpl.
  - apply String.eqb_eq in E. by intros _ ->; subst.
  - intros Hk Hv. by rewrite IH.
Qed.

Lemma obj_get_entry (k : string) (v : jsval) (o : object) :
  NoDup (keys o) -> (k, v) ∈ o -> has_key k o = true /\ obj_get k o = v.
Proof.
  induction o as [|[k' v'] o IH]; intros Hnd Hin; [by apply elem_of_nil in Hin|].
  apply NoDup_cons in Hnd as [Hnotin Hnd]. cbn [has_key existsb obj_get fst].
  apply elem_of_cons in Hin as [[= <- <-]|Hin].
  - by rewrite String.eqb_refl.
  - destruct (String.eqb k k') eqn:E.
    + apply String.eqb_eq in E. subst k'. destruct Hnotin.
      unfold keys. apply list_elem_of_fmap. by exists (k, v).
    + by apply IH.
Qed.

Lemma merge_fixed (from o : object) :
  (forall k v, (k, v) ∈ from -> has_key k o = true /\ obj_get k o = v) ->
  mergeTwoObjects o from = o.
Proof.
  induction from as [|[k v] from IH]; intros H; [reflexivity|].
  rewrite merge_cons. destruct (H k v) as [Hk Hv]; [by left|].
  rewrite (obj_set_same _ _ _ Hk Hv). apply IH. intros k' v' Hin. apply H. by right.
Qed.

(** X5: [mergeTwoObjects(toObject, fromObject)] gives every key of
    [fromObject] the value it has there and leaves the other keys of
    [toObject] as they are; merging the same object once more changes
    nothing; and, no key being an array index, the keys of [toObject] keep
    their places in the enumeration and the new keys follow in the order
    of [fromObject]. *)
Theorem mergeTwoObjects_lookup_and_order (toObject fromObject : object) :
  NoDup (keys fromObject) ->
  let merged := mergeTwoObjects toObject fromObject in
  (forall k, obj_get k merged
             = if has_key k fromObject then obj_get k fromObject
               else obj_get k toObject) /\
  mergeTwoObjects merged fromObject = merged /\
  (no_index toObject -> no_index fromObject ->
   keys merged
   = keys toObject
     ++ List.filter (fun k => negb (has_key k toObject)) (keys fromObject)).
Proof.
  intros Hnd merged. subst merged.
  assert (Hget : forall k, obj_get k (mergeTwoObjects toObject fromObject)
             = if has_key k fromObject then obj_get k fromObject
               else obj_get k toObject).
  { intros k. destruct (has_key k fromObject) eqn:Hk.
    - by apply merge_get_present.
    - by apply merge_get_absent. }
  split; [exact Hget|]. split; [|intros _ _; by apply keys_merge].
  apply merge_fixed. intros k v Hin.
  destruct (obj_get_entry k v fromObject Hnd Hin) as [Hk Hv].
  split; [by rewrite has_key_merge, Hk, orb_true_r|].
  by rewrite Hget, Hk.
Qed.

Lemma mergeTwoObjects_lookup_and_order_witness :
  let toObject := [("et", VStr "i"); ("ni", VNum (num_of_Z 1))] in
  let fromObject := [("ni", VNum (num_of_Z 2)); ("w", VNum (num_of_Z 400))] in
  let merged := mergeTwoObjects toObject fromObject in
  obj_get "ni" merged = VNum (num_of_Z 2) /\
  obj_get "et" merged = VStr "i" /\
  keys merged = ["et"; "ni"; "w"].
Proof.
  intros toObject fromObject merged.
  assert (Hnd : NoDup (keys fromObject)) by (apply (bool_decide_unpack _); reflexivity).
  destruct (mergeTwoObjects_lookup_and_order toObject fromObject Hnd)
    as (Hget & _ & Hkeys).
  split; [exact (Hget "ni")|]. split; [exact (Hget "et")|].
  apply Hkeys; repeat constructor.
Defined.
(** ** The query of a pixel *)

Lemma obj_set_set (k : string) (v v' : jsval) (o : object) :
  obj_set k v' (obj_set k v o) = obj_set k v' o.
Proof.
  induction o as [|[k' w] o IH]; simpl.
  - by rewrite String.eqb_refl.
  - destruct (String.eqb k k') eqn:E; simpl.
    + by rewrite String.eqb_refl.
    + by rewrite E, IH.
Qed.

(** Lines 408-412: the three writes of ["t"] leave the rounded value. *)
Lemma elapsed_stamp (d : num) (oParams : object) (z : Z) :
  Math_round (if num_gtb d (num_of_Z 3000) then num_of_Z 3000 else d) = num_of_Z z ->
  let o1 := obj_set "t" (VNum d) oParams in
  let o2 := if num_gtb (to_number (obj_get "t" o1)) (num_of_Z 3000)
            then obj_set "t" (VNum (num_of_Z 3000)) o1 else o1 in
  obj_set "t" (VNum (Math_round (to_number (obj_get "t" o2)))) o2
  = obj_set "t" (VNum (num_of_Z z)) oParams.
Proof.
  intros Hz o1 o2. subst o1 o2. rewrite <- Hz, obj_get_set_eq. cbn [to_number].
  destruct (num_gtb _ _); rewrite obj_get_set_eq, !obj_set_set; reflexivity.
Qed.

(** The object whose entries [event.addParams] writes into the query. *)
Lemma addParams_exact (eventType : string) (oParams : object) (now : Z) (t : tracker) :
  exists z,
    nearest_integer (clamped_seconds (timeStart t) now) z /\
    addParams eventType oParams now t =
    Result t []
      (Normal
         (mergeTwoObjects
            (if String.eqb eventType "i"
             then obj_set "p" (VStr (pos_interact t))
                    (obj_set "et" (VStr eventType)
                       (obj_set "t" (VNum (num_of_Z z)) oParams))
             else obj_set "et" (VStr eventType)
                    (obj_set "t" (VNum (num_of_Z z)) oParams))
            (constant_params t))).
Proof.
  destruct (round_clamped (now - timeStart t)) as (z & Hz & Hn).
  exists z. split; [exact Hn|].
  pose proof (elapsed_stamp _ oParams z Hz) as Hstamp. cbv zeta in Hstamp.
  unfold addParams, bind, get, ret.
  cbv beta iota zeta delta [post outcome emitted]. cbn [app].
  rewrite Hstamp. reflexivity.
Qed.
(** [event.trigger] on an event it lets through: the pixel and its query. *)
Lemma trigger_exact name eventType params now (t : tracker) :
  may_fire name t = true ->
  exists z,
    nearest_integer (clamped_seconds (timeStart t) now) z /\
    let ty := effective_type eventType in
    let t' := record_fire name ty t in
    let record := match read_property name (eventAlreadyFired t') with
                  | Own r => r
                  | _ => []
                  end in
    let o := obj_set "et" (VStr ty)
               (obj_set "t" (VNum (num_of_Z z))
                  (mergeTwoObjects (default [] params) record)) in
    trigger name eventType params now t =
    Result t'
      [LoadPixel
         (EventPixel name
            (mergeTwoObjects
               (if String.eqb ty "i" then obj_set "p" (VStr (pos_interact t)) o else o)
               (constant_params t)))]
      (Normal tt).
Proof.
  intros H. unfold trigger. fold (effective_type eventType).
  rewrite bind_get, H, bind_modify, bind_get.
  set (t' := record_fire name (effective_type eventType) t).
  destruct (record_fire_frame name (effective_type eventType) t)
    as (_ & _ & _ & Hpos & Hconst & Hstart & _). fold t' in Hpos, Hconst, Hstart.
  match goal with |- context [addParams ?ty ?o now] =>
    destruct (addParams_exact ty o now t') as (z & Hz & Heq) end.
  exists z. rewrite <- Hstart. split; [exact Hz|]. cbv zeta.
  rewrite (bind_result _ _ _ _ _ _ Heq), Hpos, Hconst. reflexivity.
Qed.

Lemma merge_disjoint (from to : object) :
  NoDup (keys from) ->
  Forall (fun k => has_key k to = false) (keys from) ->
  mergeTwoObjects to from = to ++ from.
Proof.
  revert to. induction from as [|[k v] from IH]; intros to Hnd Hdis.
  - cbn. by rewrite app_nil_r.
  - apply NoDup_cons in Hnd as [Hnotin Hnd].
    apply Forall_cons in Hdis as [Hk Hdis]. cbn [fst] in Hk.
    rewrite merge_cons.
    assert (Hset : obj_set k v to = to ++ [(k, v)]).
    { clear -Hk. unfold has_key in Hk. induction to as [|[k' v'] to IH]; [reflexivity|].
      cbn [existsb fst] in Hk. apply orb_false_iff in Hk as [E Hk].
      cbn. rewrite E. by rewrite IH. }
    rewrite Hset, IH; [by rewrite <- app_assoc|exact Hnd|].
    fold (keys from). apply Forall_forall. intros k' Hin.
    rewrite <- Hset, has_key_set.
    rewrite (proj1 (Forall_forall _ _) Hdis k' Hin), orb_false_r.
    apply String.eqb_neq. intros ->. by destruct Hnotin.
Qed.

(** X3: the first time an event of an ordinary name is triggered, with no
    parameters of its own, its pixel carries exactly these parameters, in
    this order: for an interaction event the type ["i"], the count [1], the
    elapsed time and the cached position; for an event of another type its
    type and the elapsed time; and then the constant parameters.  (The
    constant parameters are taken to have other names than these four, and
    none that is an array index.) *)
Theorem first_firing_query (name : string) (eventType : option string) (now : Z)
    (t : tracker) :
  name <> "click" -> inherited name = false ->
  eventAlreadyFired t !! name = None ->
  NoDup (keys (constant_params t)) ->
  no_index (constant_params t) ->
  Forall (fun k => k ∉ ["et"; "ni"; "t"; "p"]) (keys (constant_params t)) ->
  exists z,
    nearest_integer (clamped_seconds (timeStart t) now) z /\
    emitted (trigger name eventType None now t) =
    [LoadPixel
       (EventPixel name
          ((if String.eqb (effective_type eventType) "i"
            then [ ("et", VStr "i"); ("ni", VNum (num_of_Z 1));
                   ("t", VNum (num_of_Z z)); ("p", VStr (pos_interact t)) ]
            else [ ("et", VStr (effective_type eventType));
                   ("t", VNum (num_of_Z z)) ])
           ++ constant_params t))].
Proof.
  intros Hclick Hinh Hnone Hnd _ Hdis.
  assert (Hc : String.eqb name "click" = false) by by apply String.eqb_neq.
  assert (Hfire : may_fire name t = true).
  { unfold may_fire. rewrite Hc, (inherited_false_in _ _ Hinh), Hnone. reflexivity. }
  destruct (trigger_exact name eventType None now t Hfire) as (z & Hz & Heq).
  exists z. split; [exact Hz|]. cbv zeta in Heq.
  etrans; [exact (f_equal emitted Heq)|]. cbn [emitted].
  do 3 f_equal.
  unfold record_fire, read_property. rewrite Hnone, Hinh, Hc.
  assert (Hkeys : forall base : object,
    keys base ⊆ ["et"; "ni"; "t"; "p"] ->
    mergeTwoObjects base (constant_params t) = base ++ constant_params t).
  { intros base Hbase. apply merge_disjoint; [exact Hnd|].
    eapply Forall_impl; [exact Hdis|]. intros k Hk. apply has_key_false.
    intros Hin. apply Hk, Hbase, Hin. }
  destruct (String.eqb (effective_type eventType) "i") eqn:Hty.
  - apply String.eqb_eq in Hty. rewrite Hty.
    cbn [set_eventAlreadyFired eventAlreadyFired]. rewrite lookup_insert_eq.
    apply Hkeys. intros k Hk. exact Hk.
  - cbn [set_eventAlreadyFired eventAlreadyFired]. rewrite lookup_insert_eq.
    apply Hkeys. intros k Hk. cbn in Hk. rewrite !elem_of_cons in *. tauto.
Qed.

Lemma first_firing_query_witness :
  let t := createEvent (Macro "https://t/click?r=x" "1" "https://x/c") 1000
             (num_of_Z 400) (num_of_Z 800) in
  exists z,
    nearest_integer (clamped_seconds 1000 6000) z /\
    emitted (trigger "loaded_imp" (Some "i") None 6000 t) =
    [LoadPixel
       (EventPixel "loaded_imp"
          ([ ("et", VStr "i"); ("ni", VNum (num_of_Z 1));
             ("t", VNum (num_of_Z z)); ("p", VStr "1_1") ] ++ []))].
Proof.
  intros t.
  apply (first_firing_query "loaded_imp" (Some "i") 6000 t);
    [discriminate | reflexivity | reflexivity | constructor | constructor
    | constructor].
Defined.
(** ** [startAd] *)






(** X11: how [startAd] fails.  When the point of interest of the payload
    cannot be decoded and parsed (as on a new ad, whose payload is empty),
    [startAd] throws that error and has done nothing.  Without a video
    slot it throws a [TypeError] and has done nothing.  With a video slot
    but no tracking configuration in the payload, it has set the source
    and started the playback when it throws a [TypeError]: no closure is
    made, no pixel is loaded, and neither [AdStarted] nor [AdImpression] is
    dispatched. *)
Theorem startAd_failures (random : Q) (created fired : Z) (sx sy : num) (s : page) :
  let r := startAd random created fired sx sy s in
  (forall e, poi (parameters_ (ad s)) = PoiThrows e -> r = Result s [] (Throw e)) /\
  (forall poiId,
     poi (parameters_ (ad s)) = PoiId poiId -> videoSlot_ (ad s) = None ->
     r = Result s [] (Throw TypeError)) /\
  (forall poiId v,
     poi (parameters_ (ad s)) = PoiId poiId -> videoSlot_ (ad s) = Some v ->
     payload_config (parameters_ (ad s)) = None ->
     let audioToUse := changeAudioByPoi poiList poiId (Qfloor (random * 3) + 1) in
     r = Result (Page (set_videoSlot (Some (set_src audioToUse v)) (ad s)) (closures s))
           [OfAd Play] (Throw TypeError)).
Proof.
  cbv zeta. unfold startAd. rewrite bind_get. cbv beta. repeat split.
  - intros e ->. by rewrite bind_throw.
  - intros poiId -> Hv. rewrite bind_ret. cbv beta zeta.
    match goal with |- bind ?m _ s = _ =>
      assert (Hset : m s = Result s [] (Throw TypeError))
        by (unfold lift_ad; rewrite update_videoSlot_spec, Hv; by destruct s)
    end.
    by rewrite (bind_thrown _ _ _ _ _ _ Hset).
  - intros poiId v -> Hv Hcfg. rewrite bind_ret. cbv beta zeta.
    set (audioToUse := changeAudioByPoi poiList poiId (Qfloor (random * 3) + 1)).
    set (s1 := Page (set_videoSlot (Some (set_src audioToUse v)) (ad s)) (closures s)).
    assert (Hset : lift_ad (update_videoSlot (set_src audioToUse)) s
                   = Result s1 [] (Normal tt)).
    { unfold lift_ad. rewrite update_videoSlot_spec, Hv. reflexivity. }
    rewrite (bind_silent _ _ _ _ _ Hset). cbv beta.
    assert (Hplay : lift_ad (the_videoSlot ;;; emit Play) s1
                    = Result s1 [OfAd Play] (Normal tt)).
    { assert (Hs : the_videoSlot (ad s1)
                    = Result (ad s1) [] (Normal (set_src audioToUse v)))
        by (rewrite the_videoSlot_spec; reflexivity).
      unfold lift_ad. rewrite (bind_silent _ _ _ _ _ Hs). reflexivity. }
    rewrite (bind_result _ _ _ _ _ _ Hplay). cbv beta. rewrite Hcfg. reflexivity.
Qed.

Lemma startAd_failures_witness :
  startAd (1 # 2) 1000 1002 (num_of_Z 400) (num_of_Z 800) getVPAIDAd
  = Result getVPAIDAd [] (Throw SyntaxError).
Proof.
  exact (proj1 (startAd_failures (1 # 2) 1000 1002 (num_of_Z 400) (num_of_Z 800)
                  getVPAIDAd) SyntaxError eq_refl).
Defined.



(** ** The audio of the point of interest, when the table has it *)

Lemma changeAudioByPoi_app (pre post : list poi_entry) (poiId : option string)
    (rndInt : Z) :
  changeAudioByPoi (pre ++ post) poiId rndInt =
  fold_left
    (fun audioToUse elem =>
       if poi_matches elem poiId then lom rndInt elem else audioToUse)
    post (changeAudioByPoi pre poiId rndInt).
Proof. unfold changeAudioByPoi. apply fold_left_app. Qed.

Lemma fold_no_entry (table : list poi_entry) (poiId : option string) (rndInt : Z)
    (audioToUse : jsval) :
  no_entry table poiId ->
  fold_left
    (fun audioToUse elem =>
       if poi_matches elem poiId then lom rndInt elem else audioToUse)
    table audioToUse = audioToUse.
Proof.
  revert audioToUse. induction table as [|elem table IH]; intros a H; [reflexivity|].
  cbn [fold_left]. rewrite (H elem) by left. apply IH. intros e He. apply H. by right.
Qed.

(** X13: [changeAudioByPoi] visits the whole table and has no [break]:
    the audio it leaves is that of the last entry whose [poi] is the
    identifier of the payload, whatever entries match before it. *)
Theorem changeAudioByPoi_last_match (pre post : list poi_entry) (elem : poi_entry)
    (poiId : option string) (rndInt : Z) :
  poi_matches elem poiId = true ->
  no_entry post poiId ->
  changeAudioByPoi (pre ++ elem :: post) poiId rndInt = lom rndInt elem.
Proof.
  intros Hm Hno. rewrite changeAudioByPoi_app. cbn [fold_left]. rewrite Hm.
  by apply fold_no_entry.
Qed.

Lemma changeAudioByPoi_last_match_witness :
  changeAudioByPoi
    ([PoiEntry "A" "u09" "a1.mp3" "a2.mp3" "a3.mp3"]
     ++ PoiEntry "B" "u09" "b1.mp3" "b2.mp3" "b3.mp3"
        :: [PoiEntry "C" "gbx" "c1.mp3" "c2.mp3" "c3.mp3"])
    (Some "u09") 2
  = VStr "b2.mp3".
Proof.
  apply (changeAudioByPoi_last_match
           [PoiEntry "A" "u09" "a1.mp3" "a2.mp3" "a3.mp3"]
           [PoiEntry "C" "gbx" "c1.mp3" "c2.mp3" "c3.mp3"]
           (PoiEntry "B" "u09" "b1.mp3" "b2.mp3" "b3.mp3") (Some "u09") 2).
  - reflexivity.
  - intros e He. apply list_elem_of_singleton in He. subst e. reflexivity.
Defined.

Lemma random_draw (random : Q) :
  (0 <= random)%Q -> (random < 1)%Q ->
  let rndInt := (Qfloor (random * 3) + 1)%Z in
  rndInt = 1 \/ rndInt = 2 \/ rndInt = 3.
Proof.
  intros H0 H1. cbv zeta.
  assert (Hlo : (0 <= Qfloor (random * 3))%Z).
  { change 0%Z with (Qfloor 0). apply Qfloor_resp_le. lra. }
  assert (Hhi : (Qfloor (random * 3) < 3)%Z).
  { pose proof (Qfloor_le (random * 3)) as Hle.
    rewrite Zlt_Qlt. change (inject_Z 3) with 3%Q. lra. }
  lia.
Qed.

Lemma changeAudioByPoi_uniform (table : list poi_entry) (poiId : option string)
    (rndInt : Z) (audio : jsval) :
  (forall elem, elem ∈ table -> poi_matches elem poiId = true ->
                lom rndInt elem = audio) ->
  (exists elem, elem ∈ table /\ poi_matches elem poiId = true) ->
  changeAudioByPoi table poiId rndInt = audio.
Proof.
  intros Hall (elem & Hin & Hm).
  induction table as [|e table IH] using rev_ind; [by apply elem_of_nil in Hin|].
  rewrite changeAudioByPoi_app. cbn [fold_left].
  destruct (poi_matches e poiId) eqn:He.
  - apply Hall; [|exact He]. apply elem_of_app. right. by left.
  - apply IH.
    + intros e' He'. apply Hall, elem_of_app. by left.
    + apply elem_of_app in Hin as [Hin|Hin]; [exact Hin|].
      apply list_elem_of_singleton in Hin. subst. congruence.
Qed.

(** X14: the table of [startAd] names one audio file only: whatever
    [Math.random()] returns and whatever entry of the table the point of
    interest of the payload selects, the source that [startAd] sets is the
    same file (the one of the first city, Agen). *)
Theorem poiList_has_one_audio (random : Q) (poiId : string) (elem : poi_entry) :
  (0 <= random)%Q -> (random < 1)%Q ->
  elem ∈ poiList -> entry_poi elem = poiId ->
  changeAudioByPoi poiList (Some poiId) (Qfloor (random * 3) + 1) = VStr agen_lom1.
Proof.
  intros H0 H1 Hin Hpoi.
  apply changeAudioByPoi_uniform.
  - intros e He _.
    assert (Hall : Forall (fun e => lom1 e = agen_lom1 /\ lom2 e = agen_lom1 /\
                                    lom3 e = agen_lom1) poiList).
    { apply (bool_decide_unpack _). vm_compute. reflexivity. }
    destruct (proj1 (Forall_forall _ _) Hall e He) as (E1 & E2 & E3).
    destruct (random_draw random H0 H1) as [-> | [-> | ->]];
      cbn [lom]; congruence.
  - exists elem. split; [exact Hin|]. cbn [poi_matches]. by apply String.eqb_eq.
Qed.

Lemma poiList_has_one_audio_witness :
  changeAudioByPoi poiList (Some "spb7mc5cxgfp") (Qfloor ((2 # 3) * 3) + 1)
  = VStr agen_lom1.
Proof.
  apply (poiList_has_one_audio (2 # 3) "spb7mc5cxgfp" (entry "AGEN" "spb7mc5cxgfp")).
  - vm_compute. discriminate.
  - reflexivity.
  - unfold poiList. left.
  - reflexivity.
Defined.
(** ** The size of the ad *)

Lemma updateVideoPlayerSize_spec (p : player) :
  updateVideoPlayerSize_ p =
  Result
    (match videoSlot_ p with
     | Some v =>
         set_videoSlot
           (Some (set_video_size (width (attributes_ p)) (height (attributes_ p)) v)) p
     | None => p
     end) [] (Normal tt).
Proof.
  unfold updateVideoPlayerSize_, try_catch. rewrite bind_get, update_videoSlot_spec.
  by destruct (videoSlot_ p).
Qed.

(** X16: [resizeAd(width, height, viewMode)] stores the three values, which
    [getAdWidth()] and [getAdHeight()] then return, and gives the size to
    the video element, as attributes and as style; without a video slot the
    error is swallowed and the size is stored all the same.  It dispatches
    [AdSizeChange] and returns normally, unless the subscription to that
    event was cleared by [unsubscribe]. *)
Theorem resizeAd_stores_size (w h : num) (vm : string) (p : player) :
  let r := resizeAd w h vm p in
  getAdWidth (post r) = w /\
  getAdHeight (post r) = h /\
  viewMode (attributes_ (post r)) = vm /\
  videoSlot_ (post r) = set_video_size w h <$> videoSlot_ p /\
  (not_cleared "AdSizeChange" p ->
   outcome r = Normal tt /\ emitted r = dispatched "AdSizeChange" p).
Proof.
  cbv zeta. unfold resizeAd, update_attributes. rewrite bind_modify. cbv beta.
  set (p1 := set_attributes _ p).
  rewrite (bind_silent _ _ _ _ _ (updateVideoPlayerSize_spec p1)). cbv beta.
  change (videoSlot_ p1) with (videoSlot_ p).
  set (p2 := match videoSlot_ p with Some _ => _ | None => _ end).
  assert (Hcb : eventsCallbacks_ p2 = eventsCallbacks_ p)
    by (unfold p2, p1; by destruct (videoSlot_ p)).
  assert (Hattr : attributes_ p2 = set_size w h vm (attributes_ p))
    by (unfold p2, p1; by destruct (videoSlot_ p)).
  assert (Hslot : videoSlot_ p2 = set_video_size w h <$> videoSlot_ p).
  { unfold p2, p1. destruct (videoSlot_ p) eqn:Hv; [reflexivity|exact Hv]. }
  assert (Hpost : post (callEvent_ "AdSizeChange" p2) = p2).
  { unfold callEvent_. rewrite bind_get.
    destruct (js_in _ _); [|reflexivity]. rewrite call_callback_spec.
    by destruct (eventsCallbacks_ p2 !! "AdSizeChange") as [[cb|]|]. }
  rewrite Hpost. unfold getAdWidth, getAdHeight. rewrite Hattr, Hslot.
  do 4 (split; [reflexivity|]).
  intros Hn.
  rewrite callEvent_not_cleared; [|unfold not_cleared; by rewrite Hcb|reflexivity].
  cbn [outcome emitted]. unfold dispatched. by rewrite Hcb.
Qed.

Lemma resizeAd_stores_size_witness :
  let p := post (subscribe 3%nat "AdSizeChange" VpaidVideoPlayer) in
  let r := resizeAd (num_of_Z 640) (num_of_Z 360) "fullscreen" p in
  outcome r = Normal tt /\ emitted r = [Invoke "AdSizeChange" 3%nat] /\
  getAdWidth (post r) = num_of_Z 640 /\ videoSlot_ (post r) = None.
Proof.
  intros p r.
  destruct (resizeAd_stores_size (num_of_Z 640) (num_of_Z 360) "fullscreen" p)
    as (Hw & _ & _ & Hslot & Hret).
  destruct Hret as [Hout Hem]; [vm_compute; discriminate|].
  split; [exact Hout|]. split; [exact Hem|]. split; [exact Hw|exact Hslot].
Defined.
(** ** Invariants of the ad over a session *)

Lemma hoare_bind_get {S E B} (I : S -> Prop) (X : E -> Prop) (k : S -> M S E B) :
  (forall a, I a -> hoare I X (k a)) -> hoare I X (bind get k).
Proof. intros H s Hs. rewrite bind_get. exact (H s Hs s Hs). Qed.

(** The rules applied throughout a method, a read of the state giving
    the invariant for what was read. *)
Ltac hoare_run side :=
  repeat first
    [ lazymatch goal with
      | |- hoare _ _ (bind get _) => apply hoare_bind_get; intros ? ?
      | |- hoare _ _ (modify _) => apply hoare_modify; side
      | |- hoare _ _ (emit _) => apply hoare_emit; side
      end
    | hoare_step
    | progress autounfold with js ].

Lemma of_the_ad_lift {A} (I : player -> Prop) (X : ad_effect -> Prop)
    (m : M player ad_effect A) :
  hoare I X m -> hoare (fun s => I (ad s)) (of_the_ad X) (lift_ad m).
Proof. apply lift_ad_hoare; auto. Qed.

Lemma of_the_ad_closure (I : player -> Prop) (X : ad_effect -> Prop) (i : nat)
    (m : M tracker tracker_effect unit) :
  hoare (fun s => I (ad s)) (of_the_ad X) (on_closure i m).
Proof. apply on_closure_hoare; [auto | intros; exact Logic.I]. Qed.

(** The rules for a handler of the page: [startAd] and the handlers of
    the closures leave the ad to the methods they call. *)
Ltac page_run I X side :=
  repeat first
    [ lazymatch goal with
      | |- hoare _ _ (lift_ad _) => apply (of_the_ad_lift I X); hoare_run side
      | |- hoare _ _ (on_closure _ _) => apply (of_the_ad_closure I X)
      | |- hoare _ _ (modify _) => apply hoare_modify; intros ? ?; assumption
      end
    | hoare_step ].

Lemma expandAd_spec (p : player) :
  expandAd p
  = Result (set_attributes (set_expanded true (attributes_ p)) p) []
      (Throw ReferenceError).
Proof. reflexivity. Qed.

Lemma quartile_name (i : nat) (name : string) (value : num) :
  quartileEvents_ !! i = Some (name, value) ->
  name ∈ map fst quartileEvents_.
Proof. intros H. apply list_elem_of_fmap. exists (name, value). split; [reflexivity|]. by eapply list_elem_of_lookup_2. Qed.

Ltac fixed_side :=
  first
    [ intros ? ?; assumption
    | split; exact Logic.I
    | split; reflexivity
    | exfalso;
      match goal with
      | H : fixed_attributes ?a, E : skippableState (attributes_ ?a) = true |- _ =>
          destruct H as [H _]; unfold getAdSkippableState in H; congruence
      end
    | match goal with
      | E : quartileEvents_ !! _ = Some (?name, _) |- _ =>
          apply quartile_name in E; cbn in E;
          repeat (apply elem_of_cons in E as [->|E]; [split; reflexivity|]);
          by apply elem_of_nil in E
      end ].

Lemma fixed_handle (canPlayType : string -> string) (i : input) :
  hoare (fun s => fixed_attributes (ad s)) (of_the_ad (neither "AdSkipped" "AdExpanded"))
    (handle canPlayType i).
Proof.
  destruct i; cbn [handle];
    try (unfold startAd, elementClick;
         page_run fixed_attributes (neither "AdSkipped" "AdExpanded") fixed_side; fail).
  - (* expandAd *)
    apply (of_the_ad_lift fixed_attributes). intros p Hp. rewrite expandAd_spec.
    split; [exact Hp|constructor].
  - (* timeUpdateHandler_ *)
    apply (of_the_ad_lift fixed_attributes). unfold timeUpdateHandler_.
    hoare_run fixed_side.
Qed.

Lemma of_the_ad_neither (name name' : string) (es : list effect) :
  Forall (of_the_ad (neither name name')) es ->
  Forall (not_invoking name) es /\ Forall (not_invoking name') es.
Proof.
  intros H. split; (eapply Forall_impl; [exact H|]);
    (intros [e|i e]; [intros [? ?]; assumption | intros _; exact Logic.I]).
Qed.

(** X22: over every session of a new ad, the attributes [skippableState],
    [linear], [icons] and [companions] keep the values of the
    constructor, which their getters return; the ad therefore never
    dispatches [AdSkipped], however often [skipAd] is called; and it
    never dispatches [AdExpanded] either, since [expandAd] throws a
    [ReferenceError] at [elem] before it gets to the event (the page is
    taken to define no global [elem]). *)
Theorem skipped_and_expanded_never_dispatched (canPlayType : string -> string)
    (inputs : list input) :
  let s := fst (session canPlayType inputs getVPAIDAd) in
  let es := snd (session canPlayType inputs getVPAIDAd) in
  getAdSkippableState (ad s) = false /\ getAdLinear (ad s) = true /\
  getAdIcons (ad s) = false /\ getAdCompanions (ad s) = "" /\
  Forall (not_invoking "AdSkipped") es /\ Forall (not_invoking "AdExpanded") es.
Proof.
  cbv zeta.
  destruct (hoare_run_all (fun s => fixed_attributes (ad s))
              (of_the_ad (neither "AdSkipped" "AdExpanded"))
              (map (handle canPlayType) inputs)) with (s := getVPAIDAd)
    as [(H1 & H2 & H3 & H4) Hes].
  - apply Forall_fmap, Forall_forall. intros i _. apply fixed_handle.
  - repeat split.
  - fold (session canPlayType inputs getVPAIDAd) in *.
    destruct (of_the_ad_neither _ _ _ Hes) as [Hs He]. auto 10.
Qed.
(** ** The registry of callbacks *)

Ltac registry_side :=
  first
    [ intros ? ?; assumption
    | exact Logic.I
    | match goal with
      | H : registry_subscribed _ ?a, E : eventsCallbacks_ ?a !! _ = Some (Some _) |- _ =>
          exact (H _ _ E)
      end ].

Lemma registry_handle (canPlayType : string -> string) (i : input)
    (m : gmap string (option callback)) :
  (forall cb name, i <> Call_subscribe cb name) ->
  (forall name, i <> Call_unsubscribe name) ->
  hoare (fun s => eventsCallbacks_ (ad s) = m) (of_the_ad (fun _ => True))
    (handle canPlayType i).
Proof.
  intros Hs Hu.
  destruct i; cbn [handle];
    try (unfold startAd, elementClick;
         page_run (fun p => eventsCallbacks_ p = m) (fun _ : ad_effect => True)
           registry_side; fail).
  - by destruct (Hs aCallback eventName).
  - by destruct (Hu eventName).
  - apply (of_the_ad_lift (fun p => eventsCallbacks_ p = m)). unfold timeUpdateHandler_.
    hoare_run registry_side.
Qed.

Lemma subscribed_handle (canPlayType : string -> string) (inputs : list input)
    (i : input) :
  i ∈ inputs ->
  hoare (fun s => registry_subscribed inputs (ad s))
    (of_the_ad (invokes_subscribed inputs)) (handle canPlayType i).
Proof.
  intros Hin.
  destruct i; cbn [handle];
    try (unfold startAd, elementClick;
         page_run (registry_subscribed inputs) (invokes_subscribed inputs)
           registry_side; fail).
  - apply (of_the_ad_lift (registry_subscribed inputs)). apply hoare_modify.
    intros p Hp name cb. cbn [eventsCallbacks_ set_eventsCallbacks].
    destruct (decide (name = eventName)) as [->|Hne].
    + rewrite lookup_insert_eq. by intros [= <-].
    + rewrite lookup_insert_ne by done. apply Hp.
  - apply (of_the_ad_lift (registry_subscribed inputs)). apply hoare_modify.
    intros p Hp name cb. cbn [eventsCallbacks_ set_eventsCallbacks].
    destruct (decide (name = eventName)) as [->|Hne].
    + rewrite lookup_insert_eq. discriminate.
    + rewrite lookup_insert_ne by done. apply Hp.
  - apply (of_the_ad_lift (registry_subscribed inputs)). unfold timeUpdateHandler_.
    hoare_run registry_side.
Qed.

Lemma subscriptions_cons (i : input) (inputs : list input)
    (m : gmap string (option callback)) :
  subscriptions (i :: inputs) m = subscriptions inputs (subscriptions [i] m).
Proof. reflexivity. Qed.

Lemma registry_step (canPlayType : string -> string) (i : input) (s : page) :
  eventsCallbacks_ (ad (post (handle canPlayType i s)))
  = subscriptions [i] (eventsCallbacks_ (ad s)).
Proof.
  assert (Hother : (forall cb name, i <> Call_subscribe cb name) ->
                   (forall name, i <> Call_unsubscribe name) ->
                   eventsCallbacks_ (ad (post (handle canPlayType i s)))
                   = eventsCallbacks_ (ad s)).
  { intros Hs Hu.
    exact (proj1 (registry_handle canPlayType i _ Hs Hu s eq_refl)). }
  destruct i; try (rewrite Hother by discriminate; reflexivity); reflexivity.
Qed.

(** X21: the registry of callbacks changes through [subscribe] and
    [unsubscribe] only: after any session it holds, for each event, the
    callback of the last [subscribe] for it, or the [null] of a later
    [unsubscribe]; and every callback that the ad calls in the session is
    one that the wrapper gave to [subscribe], for the event it is called
    for.  (No event is taken to be named [__proto__].) *)
Theorem registry_follows_subscriptions (canPlayType : string -> string)
    (inputs : list input) :
  Forall (fun i => names_proto i = false) inputs ->
  let s := fst (session canPlayType inputs getVPAIDAd) in
  let es := snd (session canPlayType inputs getVPAIDAd) in
  eventsCallbacks_ (ad s) = subscriptions inputs ∅ /\
  Forall (of_the_ad (invokes_subscribed inputs)) es.
Proof.
  intros _. cbv zeta. split.
  - change (∅ : gmap string (option callback)) with (eventsCallbacks_ (ad getVPAIDAd)).
    generalize getVPAIDAd. unfold session.
    induction inputs as [|i inputs IH]; intros s; [reflexivity|].
    cbn [map run_all].
    specialize (IH (post (handle canPlayType i s))).
    destruct (run_all (map (handle canPlayType) inputs) (post (handle canPlayType i s)))
      as [s' es].
    cbn [fst] in *. rewrite IH, registry_step. reflexivity.
  - apply (hoare_run_all (fun s => registry_subscribed inputs (ad s))
             (of_the_ad (invokes_subscribed inputs))).
    + apply Forall_fmap, Forall_forall. intros i Hi. by apply subscribed_handle.
    + intros name cb H. cbn in H. by rewrite lookup_empty in H.
Qed.

Lemma registry_follows_subscriptions_witness :
  let silent := fun _ : string => "" in
  let inputs :=
    [ Call_subscribe 1%nat "AdPaused"; Call_unsubscribe "AdPaused";
      Call_subscribe 2%nat "AdPaused";
      Call_initAd (num_of_Z 640) (num_of_Z 360) "normal" (num_of_Z 256)
        (Some (Parameters None (PoiId None) None)) (EnvironmentVars true None);
      Call_pauseAd ] in
  eventsCallbacks_ (ad (fst (session silent inputs getVPAIDAd))) !! "AdPaused"
  = Some (Some 2%nat).
Proof.
  intros silent inputs.
  assert (Hnames : Forall (fun i => names_proto i = false) inputs)
    by (repeat constructor).
  rewrite (proj1 (registry_follows_subscriptions silent inputs Hnames)).
  reflexivity.
Defined.
(** ** The interval of [resumeAd] *)

Ltac interval_side :=
  first
    [ intros ? ?; assumption
    | discriminate
    | match goal with
      | H : not_current ?id ?a, E : intervalId_ ?a = Some _ |- _ =>
          intros [= ->]; exact (H E)
      end ].

Lemma interval_handle (canPlayType : string -> string) (id : nat) (i : input) :
  i <> Call_resumeAd id ->
  hoare (fun s => not_current id (ad s)) (of_the_ad (not_clearing id))
    (handle canPlayType i).
Proof.
  intros Hi.
  destruct i; cbn [handle];
    try (unfold startAd, elementClick;
         page_run (not_current id) (not_clearing id) interval_side; fail).
  - apply (of_the_ad_lift (not_current id)). hoare_run interval_side.
    apply hoare_modify. intros p _ [= ->]. by destruct Hi.
  - apply (of_the_ad_lift (not_current id)). unfold timeUpdateHandler_.
    hoare_run interval_side.
Qed.

(** X23: [resumeAd] overwrites [intervalId_] with the interval it sets, and
    [pauseAd] and [stopAd] clear the interval that [intervalId_] names: an
    interval that is not the one the ad remembers is never cleared, as
    long as [setInterval] does not return its identifier again.  So the
    interval of a [resumeAd] that another [resumeAd] has followed keeps
    running. *)
Theorem overwritten_interval_never_cleared (canPlayType : string -> string)
    (inputs : list input) (s : page) (id : nat) :
  intervalId_ (ad s) <> Some id ->
  Forall (fun i => i <> Call_resumeAd id) inputs ->
  Forall (of_the_ad (not_clearing id)) (snd (session canPlayType inputs s)).
Proof.
  intros Hs Hin.
  apply (hoare_run_all (fun s => not_current id (ad s)) (of_the_ad (not_clearing id)));
    [|exact Hs].
  apply Forall_fmap. eapply Forall_impl; [exact Hin|].
  intros i Hi. by apply interval_handle.
Qed.

Lemma overwritten_interval_never_cleared_witness :
  let silent := fun _ : string => "" in
  let s :=
    fst (session silent
           [ Call_initAd (num_of_Z 640) (num_of_Z 360) "normal" (num_of_Z 256)
               (Some (Parameters None (PoiId None) None)) (EnvironmentVars true None);
             Call_resumeAd 7; Call_resumeAd 8 ]
           getVPAIDAd) in
  let inputs := [ Call_pauseAd; Call_stopAd; On_ended ] in
  snd (session silent inputs s)
  = [ OfAd Pause; OfAd (ClearInterval 8); OfAd (ClearInterval 8); OfAd (SetTimeout 75);
      OfAd Pause; OfAd (ClearInterval 8) ] /\
  Forall (of_the_ad (not_clearing 7)) (snd (session silent inputs s)).
Proof.
  intros silent s inputs. split; [reflexivity|].
  apply (overwritten_interval_never_cleared silent inputs s 7).
  - vm_compute. discriminate.
  - repeat constructor; discriminate.
Defined.
(** ** The remaining time *)

Ltac remaining_side := first [ intros ? ?; assumption | exact Logic.I ].

Lemma remaining_handle (canPlayType : string -> string) (i : input) (r : num) :
  is_timeupdate i = false -> i <> On_resumeAd_interval ->
  hoare (fun s => getAdRemainingTime (ad s) = r) (of_the_ad (fun _ => True))
    (handle canPlayType i).
Proof.
  intros Ht Hi.
  destruct i; try discriminate; try (by destruct Hi); cbn [handle];
    unfold startAd, elementClick;
    page_run (fun p => getAdRemainingTime p = r) (fun _ : ad_effect => True)
      remaining_side.
Qed.

Lemma remaining_tick (currentTime video_duration : num) (p : player) :
  getAdRemainingTime (post (timeUpdateHandler_ currentTime video_duration p))
  = match videoSlot_ p with
    | Some _ => num_sub video_duration currentTime
    | None => getAdRemainingTime p
    end.
Proof.
  unfold timeUpdateHandler_.
  pose proof (the_videoSlot_spec p) as Hslot.
  destruct (videoSlot_ p) as [v|].
  2:{ by rewrite (bind_thrown _ _ _ _ _ _ Hslot). }
  rewrite (bind_silent _ _ _ _ _ Hslot). cbv beta.
  unfold update_attributes at 1. rewrite bind_modify. cbv beta.
  match goal with |- getAdRemainingTime (post (?m ?p1)) = ?r =>
    assert (H : hoare (fun p => getAdRemainingTime p = r) (fun _ => True) m)
      by hoare_run remaining_side;
    exact (proj1 (H p1 eq_refl))
  end.
Qed.

Lemma remaining_interval (p : player) :
  getAdRemainingTime (post (resumeAd_interval p))
  = num_sub (getAdRemainingTime p) (Fin (1 # 4)).
Proof.
  unfold resumeAd_interval. rewrite bind_get. cbv beta.
  unfold update_attributes at 1. rewrite bind_modify. cbv beta.
  match goal with |- getAdRemainingTime (post (?m ?p1)) = ?r =>
    assert (H : hoare (fun p => getAdRemainingTime p = r) (fun _ => True) m)
      by hoare_run remaining_side;
    exact (proj1 (H p1 eq_refl))
  end.
Qed.

(** X24: what writes the remaining time.  A progress tick on an ad with a
    video slot sets it to the duration of the video less its current time,
    also when the tick throws afterwards; a run of the interval of
    [resumeAd] takes a quarter of a second off, whatever the video does;
    and no other method or listener changes it.  So [n] runs of the
    interval in a row take [n / 4] off, also below zero. *)
Theorem remaining_time_writes (canPlayType : string -> string) (i : input) (s : page) :
  getAdRemainingTime (ad (post (handle canPlayType i s))) =
    match i with
    | On_timeupdate currentTime video_duration =>
        match videoSlot_ (ad s) with
        | Some _ => num_sub video_duration currentTime
        | None => getAdRemainingTime (ad s)
        end
    | On_resumeAd_interval => num_sub (getAdRemainingTime (ad s)) (Fin (1 # 4))
    | _ => getAdRemainingTime (ad s)
    end /\
  forall (n : nat) (q : Q),
    getAdRemainingTime (ad s) = Fin q ->
    exists q',
      getAdRemainingTime
        (ad (fst (session canPlayType (replicate n On_resumeAd_interval) s))) = Fin q' /\
      (q' == q - inject_Z (Z.of_nat n) * (1 # 4))%Q.
Proof.
  split.
  - destruct (is_timeupdate i) eqn:Ht.
    + destruct i; try discriminate. cbn [handle]. apply remaining_tick.
    + assert (Hother : i <> On_resumeAd_interval ->
                getAdRemainingTime (ad (post (handle canPlayType i s)))
                = getAdRemainingTime (ad s)).
      { intros Hi. exact (proj1 (remaining_handle canPlayType i _ Ht Hi s eq_refl)). }
      destruct i; try discriminate; try (apply Hother; discriminate).
      cbn [handle]. apply remaining_interval.
  - intros n. revert s. unfold session.
    induction n as [|n IH]; intros s q Hq; cbn [replicate map run_all fst].
    + exists q. split; [exact Hq|].
      change (inject_Z (Z.of_nat 0)) with 0%Q. lra.
    + specialize (IH (post (handle canPlayType On_resumeAd_interval s))
                    (Qred (q + Qred (- (1 # 4))))).
      destruct (run_all _ _) as [s' es]. cbn [fst] in *.
      destruct IH as (q' & Hq' & Heq).
      { cbn [handle]. unfold lift_ad; cbn [post ad].
        rewrite remaining_interval, Hq. reflexivity. }
      exists q'. split; [exact Hq'|].
      rewrite Heq, !Qred_correct, Nat2Z.inj_succ, <- Z.add_1_r, inject_Z_plus.
      change (inject_Z 1) with 1%Q. lra.
Qed.

Lemma remaining_time_writes_witness :
  let silent := fun _ : string => "" in
  exists q',
    getAdRemainingTime
      (ad (fst (session silent (replicate 60 On_resumeAd_interval) getVPAIDAd))) = Fin q' /\
    (q' == inject_Z 13 - inject_Z (Z.of_nat 60) * (1 # 4))%Q.
Proof.
  intros silent.
  exact (proj2 (remaining_time_writes silent Call_stopAd getVPAIDAd) 60%nat
           (inject_Z 13) eq_refl).
Defined.
(** ** Edge cases of a progress tick *)

(** X25: once the cursor is past the last quartile event, a progress tick
    returns at line 152: it updates the remaining time and nothing else.
    A change of the duration of the video is then no longer stored, and
    [AdDurationChange] is no longer dispatched. *)
Theorem tick_after_last_quartile (currentTime video_duration : num) (p : player)
    (v : video) :
  videoSlot_ p = Some v ->
  (length quartileEvents_ <= lastQuartileIndex_ p)%nat ->
  timeUpdateHandler_ currentTime video_duration p =
  Result
    (set_attributes
       (set_remainingTime (num_sub video_duration currentTime) (attributes_ p)) p)
    [] (Normal tt).
Proof.
  intros Hv Hlen. unfold timeUpdateHandler_.
  pose proof (the_videoSlot_spec p) as Hslot. rewrite Hv in Hslot.
  rewrite (bind_silent _ _ _ _ _ Hslot). cbv beta.
  unfold update_attributes at 1. rewrite bind_modify. cbv beta.
  rewrite bind_get. cbv beta. cbn [lastQuartileIndex_ set_attributes].
  apply Nat.leb_le in Hlen. rewrite Hlen. reflexivity.
Qed.

Lemma tick_after_last_quartile_witness :
  let p :=
    set_lastQuartileIndex 5
      (post (subscribe 9%nat "AdDurationChange"
               (set_videoSlot (Some createElement_video) VpaidVideoPlayer))) in
  let r := timeUpdateHandler_ (num_of_Z 30) (num_of_Z 45) p in
  emitted r = [] /\ getAdDuration (post r) = num_of_Z 30 /\
  getAdRemainingTime (post r) = num_of_Z 15.
Proof.
  intros p r. subst r.
  rewrite (tick_after_last_quartile (num_of_Z 30) (num_of_Z 45) p createElement_video
             eq_refl (le_n 5)).
  repeat split.
Defined.



(** X27: the callback of a quartile event is called without the test that
    [callEvent_] makes: when the percent played, as the doubles give it,
    has reached the threshold under the cursor and no callback is bound to
    that event (the wrapper
    has not subscribed to it, or has unsubscribed), the progress tick
    throws a [TypeError].  It has updated the remaining time; it leaves
    the cursor where it was, so that the next tick throws again, and it
    does not get to the check of the duration. *)
Theorem tick_throws_without_quartile_callback (currentTime video_duration : num)
    (p : player) (v : video) (name : string) (value : num) :
  videoSlot_ p = Some v ->
  quartileEvents_ !! lastQuartileIndex_ p = Some (name, value) ->
  double_geb (percentPlayed currentTime video_duration) (to_double value) = true ->
  (forall cb, eventsCallbacks_ p !! name <> Some (Some cb)) ->
  timeUpdateHandler_ currentTime video_duration p =
  Result
    (set_attributes
       (set_remainingTime (num_sub video_duration currentTime) (attributes_ p)) p)
    [] (Throw TypeError).
Proof.
  intros Hv Hq Hge Hcb. unfold timeUpdateHandler_.
  pose proof (the_videoSlot_spec p) as Hslot. rewrite Hv in Hslot.
  rewrite (bind_silent _ _ _ _ _ Hslot). cbv beta.
  unfold update_attributes at 1. rewrite bind_modify. cbv beta.
  rewrite bind_get. cbv beta.
  set (p1 := set_attributes _ p).
  change (lastQuartileIndex_ p1) with (lastQuartileIndex_ p).
  assert (Hlen : (length quartileEvents_ <=? lastQuartileIndex_ p)%nat = false).
  { apply Nat.leb_gt. eapply lookup_lt_Some, Hq. }
  cbv zeta. rewrite Hlen, Hq, Hge.
  assert (Hcall : call_callback name p1 = Result p1 [] (Throw TypeError)).
  { rewrite call_callback_spec.
    change (eventsCallbacks_ p1) with (eventsCallbacks_ p).
    destruct (quartile_is_quartile _ _ _ Hq) as [_ Hinh]. rewrite Hinh.
    destruct (eventsCallbacks_ p !! name) as [[cb|]|] eqn:E; try reflexivity.
    by destruct (Hcb cb). }
  match goal with |- bind (bind ?m ?k) ?k' p1 = _ =>
    assert (H1 : bind m k p1 = Result p1 [] (Throw TypeError))
      by (by rewrite (bind_thrown _ _ _ _ _ _ Hcall))
  end.
  by rewrite (bind_thrown _ _ _ _ _ _ H1).
Qed.

Lemma tick_throws_without_quartile_callback_witness :
  let p := set_videoSlot (Some createElement_video) VpaidVideoPlayer in
  let r := timeUpdateHandler_ (num_of_Z 0) (num_of_Z 30) p in
  outcome r = Throw TypeError /\ lastQuartileIndex_ (post r) = 0%nat /\
  getAdRemainingTime (post r) = num_of_Z 30 /\ getAdDuration (post r) = num_of_Z 30.
Proof.
  intros p r. subst r.
  rewrite (tick_throws_without_quartile_callback (num_of_Z 0) (num_of_Z 30) p
             createElement_video "AdVideoStart" (num_of_Z 0)
             eq_refl eq_refl eq_refl ltac:(discriminate)).
  repeat split.
Defined.
(** ** How [initAd] fails *)

(** X15: [initAd] stores the size, the view mode, the bitrate and the two
    slots before it parses the payload.  When [AdParameters] is not valid
    JSON it throws a [SyntaxError] with those stored, the payload of the ad
    unchanged, and no event dispatched.  When it is given neither a slot
    nor a video slot, it throws a [TypeError] at [appendChild]: the payload
    is stored and a new video element is the video slot, but no candidate
    was looked at, and neither [AdError] nor [AdLoaded] is dispatched. *)
Theorem initAd_failures (canPlayType : string -> string) (w h : num) (vm : string)
    (br : num) (env : environmentVars) (p : player) :
  let stored :=
    set_slots (env_slot env) (env_videoSlot env)
      (set_attributes
         (set_desiredBitrate br (set_size w h vm (attributes_ p))) p) in
  initAd canPlayType w h vm br None env p = Result stored [] (Throw SyntaxError) /\
  (forall creativeData,
     env_slot env = false -> env_videoSlot env = None ->
     initAd canPlayType w h vm br (Some creativeData) env p =
     Result (set_videoSlot (Some createElement_video) (set_parameters creativeData stored))
       [] (Throw TypeError)).
Proof.
  cbv zeta. unfold initAd, update_attributes. rewrite !bind_modify. cbv beta.
  split; [reflexivity|].
  intros creativeData Hslot Hvideo. rewrite !bind_modify. cbv beta.
  match goal with |- bind (updateVideoSlot_ _) _ ?p4 = _ =>
    assert (Hupd : updateVideoSlot_ canPlayType p4
                   = Result (set_videoSlot (Some createElement_video) p4) []
                       (Throw TypeError))
  end.
  { unfold updateVideoSlot_. rewrite bind_get. cbv beta.
    cbn [videoSlot_ slot_ set_parameters set_slots]. rewrite Hslot, Hvideo.
    reflexivity. }
  by rewrite (bind_thrown _ _ _ _ _ _ Hupd).
Qed.

Lemma initAd_failures_witness :
  let silent := fun _ : string => "" in
  let r := initAd silent (num_of_Z 640) (num_of_Z 360) "normal" (num_of_Z 256)
             (Some (Parameters None (PoiId None) None)) (EnvironmentVars false None)
             VpaidVideoPlayer in
  outcome r = Throw TypeError /\ emitted r = [] /\
  videoSlot_ (post r) = Some createElement_video /\ getAdWidth (post r) = num_of_Z 640.
Proof.
  intros silent r. subst r.
  rewrite (proj2 (initAd_failures silent (num_of_Z 640) (num_of_Z 360) "normal"
                    (num_of_Z 256) (EnvironmentVars false None) VpaidVideoPlayer)
             (Parameters None (PoiId None) None) eq_refl eq_refl).
  repeat split.
Defined.

(** ** The volume of the video element *)

Lemma assign_volume_spec (x : num) (p : player) (v : video) :
  videoSlot_ p = Some v ->
  assign_volume x p =
  match x with
  | Fin _ =>
      if num_leb (num_of_Z 0) x && num_leb x (num_of_Z 1)
      then Result (set_videoSlot (Some (set_video_volume x v)) p) [] (Normal tt)
      else Result p [] (Throw IndexSizeError)
  | _ => Result p [] (Throw TypeError)
  end.
Proof.
  intros Hv. unfold assign_volume.
  pose proof (the_videoSlot_spec p) as Hslot. rewrite Hv in Hslot.
  rewrite (bind_silent _ _ _ _ _ Hslot). cbv beta.
  destruct x as [|b|q]; try reflexivity.
  destruct (_ && _); [|reflexivity].
  rewrite update_videoSlot_spec, Hv. reflexivity.
Qed.

(** X17: [setAdVolume(value)] takes its argument for a percentage when it
    sets the volume of the video element, and stores it as it is.  For a
    value from 0 to 100 the element gets [value / 100] and, the
    subscription to [AdVolumeChange] not having been cleared by
    [unsubscribe], [AdVolumeChange] is dispatched and the method returns.
    For a finite value outside of
    that range the element refuses the volume: the method throws an
    [IndexSizeError], with the value stored all the same, the volume of
    the element unchanged and no event dispatched. *)
Theorem setAdVolume_is_a_percentage (q : Q) (p : player) (v : video) :
  videoSlot_ p = Some v ->
  let r := setAdVolume (Fin q) p in
  getAdVolume (post r) = Fin q /\
  ((0 <= q)%Q -> (q <= 100)%Q -> not_cleared "AdVolumeChange" p ->
   outcome r = Normal tt /\ emitted r = dispatched "AdVolumeChange" p /\
   exists x, video_volume <$> videoSlot_ (post r) = Some (Fin x) /\ (x == q / 100)%Q) /\
  (~ (0 <= q <= 100)%Q ->
   outcome r = Throw IndexSizeError /\ emitted r = [] /\
   videoSlot_ (post r) = Some v).
Proof.
  intros Hv r. split; [apply setAdVolume_stores|]. subst r.
  unfold setAdVolume, update_attributes. rewrite bind_modify. cbv beta.
  set (p1 := set_attributes _ p).
  assert (Hv1 : videoSlot_ p1 = Some v) by exact Hv.
  pose proof (assign_volume_spec (num_div (Fin q) (num_of_Z 100)) p1 v Hv1) as Hassign.
  change (num_div (Fin q) (num_of_Z 100)) with (Fin (Qred (q / inject_Z 100))) in *.
  assert (Hred : Qred (q / inject_Z 100) == q / 100) by apply Qred_correct.
  set (x := Qred (q / inject_Z 100)) in *.
  assert (Hrange :
    num_leb (num_of_Z 0) (Fin x) && num_leb (Fin x) (num_of_Z 1) = true
    <-> (0 <= q <= 100)%Q).
  { unfold num_leb, num_ltb, num_eqb, num_of_Z.
    rewrite andb_true_iff, !orb_true_iff, !negb_true_iff.
    rewrite <- !not_true_iff_false, !Qle_bool_iff, !Qeq_bool_iff.
    change (inject_Z 0) with 0%Q. change (inject_Z 1) with 1%Q.
    assert (Hx : q == x * 100) by (rewrite Hred; field).
    clear Hred Hassign. clearbody x. split.
    - intros [[H|H] [H'|H']]; split; lra.
    - intros [H H']. split.
      + destruct (Qlt_le_dec 0 x); [left; lra|right; lra].
      + destruct (Qlt_le_dec x 1); [left; lra|right; lra]. }
  split.
  - intros H0 H100 Hn. apply proj2 in Hrange. rewrite Hrange in Hassign by (split; assumption).
    rewrite (bind_silent _ _ _ _ _ Hassign). cbv beta.
    rewrite callEvent_not_cleared; [|exact Hn|reflexivity].
    cbn [outcome emitted post videoSlot_ set_videoSlot]. unfold dispatched.
    split; [reflexivity|]. split; [reflexivity|]. exists x. split; [reflexivity|exact Hred].
  - intros Hout.
    destruct (num_leb (num_of_Z 0) (Fin x) && num_leb (Fin x) (num_of_Z 1)) eqn:E.
    { destruct Hout. by apply Hrange. }
    rewrite (bind_thrown _ _ _ _ _ _ Hassign). repeat split. exact Hv.
Qed.

Lemma setAdVolume_is_a_percentage_witness :
  let p := set_videoSlot (Some createElement_video) VpaidVideoPlayer in
  let half := setAdVolume (Fin 50) p in
  let one := setAdVolume (Fin 1) p in
  let loud := setAdVolume (Fin 150) p in
  (outcome half = Normal tt /\ getAdVolume (post half) = Fin 50 /\
   exists x, video_volume <$> videoSlot_ (post half) = Some (Fin x) /\ (x == 50 / 100)%Q) /\
  (exists x, video_volume <$> videoSlot_ (post one) = Some (Fin x) /\ (x == 1 / 100)%Q) /\
  (outcome loud = Throw IndexSizeError /\ getAdVolume (post loud) = Fin 150).
Proof.
  intros p half one loud.
  destruct (setAdVolume_is_a_percentage 50 p createElement_video eq_refl)
    as (Hget & Hin & _).
  destruct Hin as (Hout & _ & Hx); [lra | lra | vm_compute; discriminate |].
  destruct (setAdVolume_is_a_percentage 1 p createElement_video eq_refl)
    as (_ & Hin1 & _).
  destruct Hin1 as (_ & _ & Hx1); [lra | lra | vm_compute; discriminate |].
  destruct (setAdVolume_is_a_percentage 150 p createElement_video eq_refl)
    as (Hget' & _ & Hover).
  destruct Hover as (Hout' & _ & _); [lra|].
  repeat split; assumption.
Defined.


(** ** The constant parameters *)

Lemma NoDup_keys_merge (from to : object) :
  NoDup (keys to) -> NoDup (keys from) -> NoDup (keys (mergeTwoObjects to from)).
Proof.
  intros Hto Hfrom. rewrite keys_merge by exact Hfrom.
  apply NoDup_app. split; [exact Hto|]. split.
  - intros k Hk Hin. apply list_elem_of_In, List.filter_In in Hin as [_ Hin].
    apply has_key_keys in Hk. by rewrite Hk in Hin.
  - apply NoDup_ListNoDup, List.NoDup_filter, NoDup_ListNoDup, Hfrom.
Qed.

Lemma constant_frame (k : string) (v : jsval) (t t' : tracker) :
  constant_params t' = constant_params t -> screenX t' = screenX t ->
  screenY t' = screenY t -> constant k v t -> constant k v t'.
Proof. unfold constant. intros -> -> ->. tauto. Qed.

Ltac constant_side :=
  first
    [ exact Logic.I
    | intros ? ?; eapply constant_frame; [| | |eassumption]; reflexivity ].

(** A constant parameter stays, and every event pixel has it. *)
Lemma constant_kept (k : string) (v : jsval) (op : closure_op) :
  hoare (constant k v) (carries k v) (closure_handle op).
Proof.
  destruct op; cbn [closure_handle].
  - (* event.trigger *)
    intros t Ht. destruct (may_fire eventName t) eqn:Hf.
    + destruct (trigger_exact eventName eventType params now t Hf) as (z & _ & Heq).
      cbv zeta in Heq. rewrite Heq. cbn [post emitted].
      destruct (record_fire_frame eventName (effective_type eventType) t)
        as (_ & _ & _ & _ & Hc & _ & Hx & Hy).
      split; [by eapply constant_frame|].
      repeat constructor. cbn [carries].
      destruct Ht as (Hnd & Hk & Hv & _).
      by rewrite merge_get_present.
    + rewrite trigger_suppressed by exact Hf. split; [exact Ht|constructor].
  - hoare_run constant_side.
  - hoare_run constant_side.
  - (* init_load *)
    unfold init_load. hoare_run constant_side.
    apply hoare_modify. intros t (Hnd & Hk & Hv & Hw & Hh).
    unfold constant. cbn [constant_params set_constant_params screenX screenY].
    assert (Hnd' : NoDup (keys [("w", VNum (screenX t)); ("h", VNum (screenY t))]))
      by (apply (bool_decide_unpack _); reflexivity).
    split; [by apply NoDup_keys_merge|].
    split; [by rewrite has_key_merge, Hk|].
    split; [|split; assumption].
    destruct (has_key k [("w", VNum (screenX t)); ("h", VNum (screenY t))]) eqn:E.
    + rewrite merge_get_present by assumption.
      cbn [has_key existsb fst] in E. cbn [obj_get].
      destruct (String.eqb k "w") eqn:E1.
      { apply String.eqb_eq in E1. symmetry. by apply Hw. }
      destruct (String.eqb k "h") eqn:E2; [|discriminate].
      apply String.eqb_eq in E2. symmetry. by apply Hh.
    + by rewrite merge_get_absent.
  - hoare_run constant_side.
Qed.

Lemma constant_session (k : string) (v : jsval) (ops : list closure_op) (t : tracker) :
  constant k v t -> Forall (carries k v) (snd (run_all (map closure_handle ops) t)).
Proof.
  intros Ht. apply (hoare_run_all (constant k v) (carries k v)); [|exact Ht].
  apply Forall_fmap, Forall_forall. intros op _. apply constant_kept.
Qed.

(** No handler of a closure changes the size of the viewport it has read
    or gives the constant parameters a key twice. *)
Lemma closure_keeps_screen (sx sy : num) (op : closure_op) :
  hoare
    (fun t => NoDup (keys (constant_params t)) /\ screenX t = sx /\ screenY t = sy)
    (fun _ => True) (closure_handle op).
Proof.
  destruct op; hoare_go ltac:(first
    [ exact Logic.I
    | intros ? (? & ? & ?);
      match goal with
      | |- context [record_fire ?n ?ty ?s] =>
          destruct (record_fire_frame n ty s) as (_ & _ & _ & _ & -> & _ & -> & ->)
      end; auto
    | intros ? (? & ? & ?); repeat split; assumption ]).
  apply hoare_modify. intros t (Hnd & Hx & Hy).
  cbn [constant_params set_constant_params screenX screenY].
  split; [|split; assumption].
  apply NoDup_keys_merge; [exact Hnd|]. apply (bool_decide_unpack _). reflexivity.
Qed.

(** X6: once [init_load] has run (on [DOMContentLoaded]), every event
    pixel of the closure carries the size of the viewport, as read by
    [createEvent], as its parameters [w] and [h]: whatever handlers have
    run before, and whatever handlers run in between. *)
Theorem screen_size_in_every_pixel cfg (created : Z) (sx sy : num) (found : bool)
    (before ops : list closure_op) :
  let t0 := fst (run_all (map closure_handle before) (createEvent cfg created sx sy)) in
  let t := post (init_load found t0) in
  let es := snd (run_all (map closure_handle ops) t) in
  Forall (carries "w" (VNum sx)) es /\ Forall (carries "h" (VNum sy)) es.
Proof.
  intros t0 t es.
  assert (H0 : NoDup (keys (constant_params t0)) /\ screenX t0 = sx /\ screenY t0 = sy).
  { apply (hoare_run_all
             (fun t => NoDup (keys (constant_params t)) /\ screenX t = sx /\ screenY t = sy)
             (fun _ => True) (map closure_handle before)).
    - apply Forall_fmap, Forall_forall. intros op _. apply closure_keeps_screen.
    - repeat split. constructor. }
  destruct H0 as (Hnd & Hx & Hy).
  assert (Hnd' : NoDup (keys [("w", VNum (screenX t0)); ("h", VNum (screenY t0))]))
    by (apply (bool_decide_unpack _); reflexivity).
  subst es t. unfold init_load. rewrite bind_modify. cbn [post modify].
  split; apply constant_session; unfold constant;
    cbn [constant_params set_constant_params set_aElement screenX screenY];
    (split; [by apply NoDup_keys_merge|]);
    (split; [by rewrite has_key_merge, orb_true_r|]);
    (split; [rewrite merge_get_present by done; cbn; congruence|]);
    split; congruence.
Qed.

(** X7: a parameter given to [event.setParam] is sent with every event
    pixel from then on, and with the value given: it takes the place of a
    parameter of the same name that [event.trigger] is given or that
    [event.addParams] computes, such as the elapsed time [t].  (The
    parameter is taken not to be [w] or [h], which [init_load] sets.) *)
Theorem setParam_overrides (fromObject : object) (k : string) (t0 : tracker)
    (ops : list closure_op) :
  NoDup (keys (constant_params t0)) -> NoDup (keys fromObject) ->
  has_key k fromObject = true -> k <> "w" -> k <> "h" ->
  let t := post (setParam fromObject t0) in
  Forall (carries k (obj_get k fromObject))
    (snd (run_all (map closure_handle ops) t)).
Proof.
  intros Hnd0 Hnd Hk Hw Hh t. apply constant_session. subst t.
  unfold setParam. rewrite bind_modify, bind_get. cbn [post ret].
  unfold constant. cbn [constant_params set_constant_params].
  split; [by apply NoDup_keys_merge|].
  split; [by rewrite has_key_merge, Hk, orb_true_r|].
  split; [by apply merge_get_present|]. split; intros ->; [by destruct Hw|by destruct Hh].
Qed.

Lemma setParam_overrides_witness :
  let t0 := createEvent (Macro "https://t/click?r=x" "1" "https://x/c") 1000
              (num_of_Z 400) (num_of_Z 800) in
  let fromObject := [("t", VNum (num_of_Z 7)); ("campaign", VStr "a3")] in
  let t := post (setParam fromObject t0) in
  snd (run_all [trigger "time-3s" (Some "t") None 4000] t)
  = [LoadPixel (EventPixel "time-3s"
       [("et", VStr "t"); ("t", VNum (num_of_Z 7)); ("campaign", VStr "a3")])] /\
  Forall (carries "t" (VNum (num_of_Z 7)))
    (snd (run_all (map closure_handle [Trigger "time-3s" (Some "t") None 4000]) t)).
Proof.
  intros t0 fromObject t. split; [reflexivity|].
  apply (setParam_overrides fromObject "t" t0 [Trigger "time-3s" (Some "t") None 4000]).
  - constructor.
  - apply (bool_decide_unpack _). reflexivity.
  - reflexivity.
  - discriminate.
  - discriminate.
Defined.
(** ** The count and the position that a pixel carries *)

Lemma NoDup_keys_set (k : string) (v : jsval) (o : object) :
  NoDup (keys o) -> NoDup (keys (obj_set k v o)).
Proof.
  intros H. rewrite keys_obj_set. destruct (has_key k o) eqn:E.
  - by rewrite app_nil_r.
  - apply NoDup_app. split; [exact H|]. split; [|apply NoDup_singleton].
    intros k' Hk' Hin. apply list_elem_of_singleton in Hin. subst k'.
    apply has_key_keys in Hk'. congruence.
Qed.

Lemma record_fire_wf (name ty : string) (t : tracker) :
  records_wf t -> records_wf (record_fire name ty t).
Proof.
  intros Hwf. unfold record_fire, read_property.
  assert (Hins : forall r, NoDup (keys r) ->
    records_wf (set_eventAlreadyFired (<[name := r]> (eventAlreadyFired t)) t)).
  { intros r Hr name' r'. cbn [eventAlreadyFired set_eventAlreadyFired].
    destruct (decide (name' = name)) as [->|Hne].
    - rewrite lookup_insert_eq. by intros [= <-].
    - rewrite lookup_insert_ne by done. apply Hwf. }
  assert (Het : NoDup (keys [("et", VStr ty)])) by apply NoDup_singleton.
  destruct (eventAlreadyFired t !! name) as [r|] eqn:Hr.
  - apply Hins, NoDup_keys_set, (Hwf _ _ Hr).
  - destruct (inherited name); [exact Hwf|].
    destruct (String.eqb name "click").
    + intros name' r'. cbn [eventAlreadyFired set_eventAlreadyFired set_alreadyClicked].
      apply (Hins (obj_set "ni" (VNum (num_of_Z 30)) [("et", VStr ty)])).
      by apply NoDup_keys_set.
    + destruct (String.eqb ty "i"); apply Hins; [by apply NoDup_keys_set|exact Het].
Qed.

Lemma closure_keeps_wf (op : closure_op) :
  hoare records_wf (fun _ => True) (closure_handle op).
Proof.
  destruct op; hoare_go ltac:(first
    [ exact Logic.I | intros ? ?; by apply record_fire_wf | intros ? ?; assumption ]).
Qed.

(** No handler of a closure adds a constant parameter, but for ["w"] and
    ["h"]. *)
Lemma closure_keeps_no_key (k : string) (op : closure_op) :
  k <> "w" -> k <> "h" ->
  hoare (fun t => has_key k (constant_params t) = false) (fun _ => True)
    (closure_handle op).
Proof.
  intros Hw Hh. destruct op; hoare_go frame_side.
  apply hoare_modify. intros s Hs. unfold set_constant_params; cbn [constant_params].
  rewrite has_key_merge, Hs. cbn [has_key existsb fst orb].
  apply String.eqb_neq in Hw, Hh. by rewrite Hw, Hh.
Qed.

Lemma obj_get_has_key (k : string) (o : object) :
  obj_get k o <> VUndefined -> has_key k o = true.
Proof.
  unfold has_key. induction o as [|[k' v] o IH]; simpl; [done|].
  destruct (String.eqb k k'); [done|exact IH].
Qed.

Section Count.
Variable name : string.
Hypothesis not_click : name <> "click".
Hypothesis not_inherited : inherited name = false.

Lemma counted_from (ops : list closure_op) (k : nat) (t : tracker) :
  all_of_type name "i" ops -> counted name "i" k t ->
  counted name "i" (k + occurrences name ops) (fst (run_all (map closure_handle ops) t)).
Proof.
  revert k t. induction ops as [|op ops IH]; intros k t Hall Hk.
  - by rewrite Nat.add_0_r.
  - assert (Hall' : all_of_type name "i" ops).
    { intros n' e p nw Hin. apply (Hall n' e p nw). by right. }
    cbn [map run_all]. rewrite occurrences_cons.
    destruct (run_all (map closure_handle ops) (post (closure_handle op t)))
      as [s' es] eqn:Hrun.
    cbn [fst].
    destruct (is_trigger_of name op) eqn:Hop.
    + destruct op as [n' e p nw| | | |]; try discriminate.
      simpl in Hop. apply String.eqb_eq in Hop. subst n'.
      destruct (trigger_counted name "i" not_click not_inherited k t e p nw) as [Hk' _];
        [apply (Hall name e p nw); [by left|reflexivity] | exact Hk |].
      cbn [closure_handle] in *.
      specialize (IH (S k) _ Hall' Hk'). rewrite Hrun in IH. cbn [fst] in IH.
      replace (k + (1 + occurrences name ops))%nat
        with (S k + occurrences name ops)%nat by lia.
      exact IH.
    + destruct (closure_other_event name op (eventAlreadyFired t !! name) Hop t
                  eq_refl) as [Hpost _].
      assert (Hk' : counted name "i" k (post (closure_handle op t))).
      { destruct k; simpl in *; rewrite Hpost; exact Hk. }
      specialize (IH k _ Hall' Hk'). rewrite Hrun in IH. exact IH.
Qed.

(** X4: the pixel of an interaction event tells which occurrence of the
    event it is: over all the handlers a closure runs from [createEvent]
    on, the call of [event.trigger] that follows [k] calls for the same
    event, with [k] below 30, loads a pixel whose parameter [ni] is
    [k + 1]; its [et] is ["i"] and its [p] is the position that
    [getPosition] has cached last, whatever parameters of these names the
    call is given. *)
Theorem pixel_carries_occurrence cfg (created : Z) (sx sy : num)
    (ops : list closure_op) (params : option object) (now : Z) :
  all_of_type name "i" ops ->
  (occurrences name ops < 30)%nat ->
  let t := fst (run_all (map closure_handle ops) (createEvent cfg created sx sy)) in
  exists query,
    emitted (trigger name (Some "i") params now t) = [LoadPixel (EventPixel name query)] /\
    obj_get "ni" query = VNum (num_of_Z (Z.of_nat (S (occurrences name ops)))) /\
    obj_get "et" query = VStr "i" /\
    obj_get "p" query = VStr (pos_interact t).
Proof.
  intros Hall Hlt t.
  assert (Hk : counted name "i" (occurrences name ops) t).
  { apply (counted_from ops 0); [exact Hall|reflexivity]. }
  assert (Hinv : forall (I : tracker -> Prop),
    (forall op, hoare I (fun _ => True) (closure_handle op)) ->
    I (createEvent cfg created sx sy) -> I t).
  { intros I HI H0.
    apply (hoare_run_all I (fun _ => True) (map closure_handle ops)); [|exact H0].
    apply Forall_fmap, Forall_forall. intros op _. apply HI. }
  assert (Hwf : records_wf t).
  { apply Hinv; [apply closure_keeps_wf|]. intros n r H. cbn in H.
    by rewrite lookup_empty in H. }
  assert (Hno : forall k, k <> "w" -> k <> "h" -> has_key k (constant_params t) = false).
  { intros k Hw Hh.
    apply (Hinv (fun t => has_key k (constant_params t) = false));
      [intros op; by apply closure_keeps_no_key|reflexivity]. }
  destruct (trigger_counted name "i" not_click not_inherited _ t (Some "i") params now
              eq_refl Hk) as [Hk' Hpx].
  cbv zeta in Hk', Hpx.
  apply Nat.ltb_lt in Hlt. change (fire_limit "i") with 30%nat in Hpx.
  rewrite Hlt in Hpx.
  destruct (may_fire name t) eqn:Hf.
  2:{ rewrite trigger_suppressed in Hpx by exact Hf. discriminate. }
  destruct (trigger_exact name (Some "i") params now t Hf) as (z & _ & Heq).
  cbv zeta in Heq. change (effective_type (Some "i")) with "i" in Heq.
  rewrite Heq in Hk' |- *. cbn [post emitted] in *.
  destruct Hk' as (r & Hr & Het & Hni). specialize (Hni eq_refl).
  unfold read_property. rewrite Hr.
  eexists. split; [reflexivity|].
  change (String.eqb "i" "i") with true. cbv iota.
  assert (Hr_wf : NoDup (keys r)) by exact (record_fire_wf name "i" t Hwf _ _ Hr).
  rewrite !merge_get_absent by (apply Hno; discriminate).
  rewrite obj_get_set_eq.
  rewrite (obj_get_set_ne "ni" "p"), (obj_get_set_ne "ni" "et"),
    (obj_get_set_ne "ni" "t") by discriminate.
  rewrite (obj_get_set_ne "et" "p") by discriminate. rewrite obj_get_set_eq.
  split; [|split; reflexivity].
  rewrite merge_get_present; [| exact Hr_wf |].
  - rewrite Hni. do 3 f_equal. apply Nat.ltb_lt in Hlt. lia.
  - apply obj_get_has_key. rewrite Hni. discriminate.
Qed.

End Count.

Lemma pixel_carries_occurrence_witness :
  let cfg := Macro "https://t/click?r=x" "1" "https://x/c" in
  let ops :=
    [ Trigger "swipe" (Some "i") None 2000;
      GetPosition (DomEvent (Some (num_of_Z 100)) (Some (num_of_Z 200)) None);
      Trigger "swipe" (Some "i") None 3000 ] in
  let t := fst (run_all (map closure_handle ops)
                  (createEvent cfg 1000 (num_of_Z 400) (num_of_Z 800))) in
  exists query,
    emitted (trigger "swipe" (Some "i") (Some [("ni", VNum (num_of_Z 9))]) 4000 t)
    = [LoadPixel (EventPixel "swipe" query)] /\
    obj_get "ni" query = VNum (num_of_Z 3) /\
    obj_get "p" query = VStr "25_25".
Proof.
  intros cfg ops t.
  destruct (pixel_carries_occurrence "swipe" ltac:(discriminate) eq_refl cfg 1000
              (num_of_Z 400) (num_of_Z 800) ops (Some [("ni", VNum (num_of_Z 9))]) 4000)
    as (query & Hem & Hni & _ & Hp).
  - intros name' eventType params now Hin _. unfold ops in Hin.
    repeat (apply elem_of_cons in Hin as [Hin|Hin]; [try discriminate; by simplify_eq|]).
    by apply elem_of_nil in Hin.
  - vm_compute. lia.
  - exists query. split; [exact Hem|]. split; [exact Hni|exact Hp].
Defined.
(** ** The position, within the viewport *)

Lemma Math_round_nearest (q : Q) :
  Math_round (Fin q) = num_of_Z (Qfloor (q + (1 # 2))) /\
  nearest_integer q (Qfloor (q + (1 # 2))).
Proof.
  split; [reflexivity|]. unfold nearest_integer.
  pose proof (Qfloor_le (q + (1 # 2))) as H1.
  pose proof (Qlt_floor (q + (1 # 2))) as H2.
  rewrite inject_Z_plus in H2. change (inject_Z 1) with 1%Q in H2. split; lra.
Qed.

Lemma num_to_string_of_Z (z : Z) : num_to_string (num_of_Z z) = string_of_Z z.
Proof. unfold num_to_string, num_of_Z. by rewrite Qfloor_Z. Qed.

Lemma getPosition_of_touch (t : tracker) (x y : Q) (rest : list touch) :
  let r := getPosition
             (DomEvent None None (Some (Touch (Some (Fin x)) (Some (Fin y)) :: rest))) t in
  outcome r = Normal tt /\
  pos_interact (post r) =
    num_to_string (Math_round (of_double (percent_of (Fin x) (screenX t))))
    +:+ "_" +:+
    num_to_string (Math_round (of_double (percent_of (Fin y) (screenY t)))).
Proof. unfold getPosition, coordinate, bind. cbn. auto. Qed.

(** X9: for a mouse event, or a touch event with a first target touch,
    at a point off the left and top edges, [getPosition] returns and
    caches the position as two integers joined by ["_"]: each is the
    integer nearest, the upper one at a tie, to the percentage that the
    doubles give for the coordinate over the size of the viewport times
    100, when that percentage is finite. *)
Theorem position_is_a_percentage (t : tracker) (x y px py : Q) (evt : dom_event) :
  (0 < x)%Q -> (0 < y)%Q ->
  at_point x y evt ->
  of_double (percent_of (Fin x) (screenX t)) = Fin px ->
  of_double (percent_of (Fin y) (screenY t)) = Fin py ->
  let r := getPosition evt t in
  exists a b : Z,
    nearest_integer px a /\ nearest_integer py b /\
    outcome r = Normal tt /\
    pos_interact (post r) = string_of_Z a +:+ "_" +:+ string_of_Z b.
Proof.
  intros Hx Hy Hevt Hpx Hpy.
  assert (Htruthy : forall q : Q, (0 < q)%Q -> num_truthy (Fin q) = true).
  { intros [n d] Hq. unfold num_truthy, Qzero_b. apply negb_true_iff, Z.eqb_neq.
    unfold Qlt in Hq. cbn in *. lia. }
  assert (Hget :
    outcome (getPosition evt t) = Normal tt /\
    pos_interact (post (getPosition evt t)) =
      num_to_string (Math_round (of_double (percent_of (Fin x) (screenX t))))
      +:+ "_" +:+
      num_to_string (Math_round (of_double (percent_of (Fin y) (screenY t))))).
  { destruct evt as [cx cy touches]. unfold at_point in Hevt. cbn in Hevt.
    destruct Hevt as [[-> ->]|(-> & -> & rest & ->)].
    - exact (getPosition_of_coordinates t (Fin x) (Fin y) touches
               (Htruthy x Hx) (Htruthy y Hy)).
    - exact (getPosition_of_touch t x y rest). }
  destruct Hget as [Hout Hpos].
  destruct (Math_round_nearest px) as [Ha Hna].
  destruct (Math_round_nearest py) as [Hb Hnb].
  cbv zeta. exists (Qfloor (px + (1 # 2))), (Qfloor (py + (1 # 2))).
  split; [exact Hna|]. split; [exact Hnb|]. split; [exact Hout|].
  rewrite Hpos, Hpx, Hpy, Ha, Hb, !num_to_string_of_Z. reflexivity.
Qed.

Lemma position_is_a_percentage_witness :
  let t := createEvent (Macro "https://t/click?r=x" "1" "https://x/c") 1000
             (num_of_Z 400) (num_of_Z 800) in
  let touch := DomEvent None None (Some [Touch (Some (Fin 58)) (Some (Fin 116))]) in
  let r := getPosition touch t in
  of_double (percent_of (Fin 58) (num_of_Z 400))
    = Fin (8162774324609023 # 562949953421312) /\
  pos_interact (post r) = "14_14".
Proof.
  intros t touch r. split; [vm_compute; reflexivity|].
  destruct (position_is_a_percentage t 58 116
              (8162774324609023 # 562949953421312)
              (8162774324609023 # 562949953421312) touch)
    as (a & b & Ha & Hb & _ & Hpos).
  - reflexivity.
  - reflexivity.
  - right. repeat split. by exists [].
  - vm_compute. reflexivity.
  - vm_compute. reflexivity.
  - assert (Hnear : forall z : Z,
              nearest_integer (8162774324609023 # 562949953421312) z -> z = 14).
    { intros z [Hl Hu]. unfold Qle, Qlt in Hl, Hu. cbn in Hl, Hu. lia. }
    rewrite (Hnear a Ha), (Hnear b Hb) in Hpos. exact Hpos.
Defined.

(** ** Subscribing *)

(** X20: [subscribe] binds the callback that the next dispatch of the
    event calls, once: it replaces a callback bound before, it makes the
    event dispatchable again after [unsubscribe], and it leaves the
    dispatch of every other event as it was.  (The event is taken not to
    be named [__proto__].) *)
Theorem subscribe_binds (p : player) (aCallback other : callback) (eventName : string) :
  eventName <> "__proto__" ->
  let bound := post (subscribe aCallback eventName p) in
  callEvent_ eventName bound = Result bound [Invoke eventName aCallback] (Normal tt) /\
  callEvent_ eventName (post (subscribe aCallback eventName
                                (post (subscribe other eventName p))))
  = Result bound [Invoke eventName aCallback] (Normal tt) /\
  callEvent_ eventName (post (subscribe aCallback eventName
                                (post (unsubscribe eventName p))))
  = Result bound [Invoke eventName aCallback] (Normal tt) /\
  (forall name, name <> eventName ->
     emitted (callEvent_ name bound) = emitted (callEvent_ name p) /\
     outcome (callEvent_ name bound) = outcome (callEvent_ name p)).
Proof.
  intros _. cbv zeta. unfold subscribe, unsubscribe, modify. cbn [post].
  assert (Hover : forall x : option callback,
    set_eventsCallbacks
      (<[eventName := Some aCallback]>
         (eventsCallbacks_ (set_eventsCallbacks (<[eventName := x]> (eventsCallbacks_ p)) p)))
      (set_eventsCallbacks (<[eventName := x]> (eventsCallbacks_ p)) p)
    = set_eventsCallbacks (<[eventName := Some aCallback]> (eventsCallbacks_ p)) p).
  { intros x. unfold set_eventsCallbacks. cbn. by rewrite insert_insert_eq. }
  rewrite !Hover.
  assert (Hcall :
    callEvent_ eventName
      (set_eventsCallbacks (<[eventName := Some aCallback]> (eventsCallbacks_ p)) p)
    = Result
        (set_eventsCallbacks (<[eventName := Some aCallback]> (eventsCallbacks_ p)) p)
        [Invoke eventName aCallback] (Normal tt)).
  { apply callEvent_bound. cbn. by rewrite lookup_insert_eq. }
  do 3 (split; [exact Hcall|]).
  intros name Hne. unfold callEvent_. rewrite !bind_get. cbv beta.
  unfold js_in. cbn [eventsCallbacks_ set_eventsCallbacks].
  rewrite lookup_insert_ne by done.
  destruct (_ || _); [|split; reflexivity].
  rewrite !call_callback_spec. cbn [eventsCallbacks_ set_eventsCallbacks].
  rewrite lookup_insert_ne by done.
  destruct (eventsCallbacks_ p !! name) as [[cb|]|]; try (split; reflexivity).
  destruct (inherited name); [|split; reflexivity].
  unfold call_inherited. by destruct (bool_decide _).
Qed.

Lemma subscribe_binds_witness :
  let p := post (unsubscribe "AdPaused" (post (subscribe 1%nat "AdPaused" VpaidVideoPlayer))) in
  outcome (callEvent_ "AdPaused" p) = Throw TypeError /\
  emitted (callEvent_ "AdPaused" (post (subscribe 2%nat "AdPaused" p)))
  = [Invoke "AdPaused" 2%nat].
Proof.
  intros p. split; [reflexivity|].
  by rewrite (proj1 (subscribe_binds p 2%nat 0%nat "AdPaused" ltac:(discriminate))).
Defined.

(** ** Methods on an ad without a video slot *)

(** X19: an ad that has no video slot (one that [initAd] was not called
    on, or not with a slot) throws a [TypeError] from [pauseAd],
    [resumeAd], [setAdVolume], the mute button and the progress tick, and
    none of them dispatches an event or sets a timer; [setAdVolume] and
    the mute button have stored the new volume when they throw. *)
Theorem methods_need_a_video_slot (p : player) :
  videoSlot_ p = None ->
  pauseAd p = Result p [] (Throw TypeError) /\
  (forall id, resumeAd id p = Result p [] (Throw TypeError)) /\
  (forall currentTime video_duration,
     timeUpdateHandler_ currentTime video_duration p = Result p [] (Throw TypeError)) /\
  (forall value,
     setAdVolume value p
     = Result (set_attributes (set_volume value (attributes_ p)) p) []
         (Throw TypeError)) /\
  outcome (muteButtonOnClick_ p) = Throw TypeError /\
  emitted (muteButtonOnClick_ p) = [] /\
  getAdVolume (post (muteButtonOnClick_ p))
  = (if num_eqb (getAdVolume p) (num_of_Z 0) then num_of_Z 1 else num_of_Z 0).
Proof.
  intros Hv.
  assert (Hslot : forall p', videoSlot_ p' = None ->
            the_videoSlot p' = Result p' [] (Throw TypeError)).
  { intros p' Hp'. by rewrite the_videoSlot_spec, Hp'. }
  assert (Hassign : forall x p', videoSlot_ p' = None ->
            assign_volume x p' = Result p' [] (Throw TypeError)).
  { intros x p' Hp'. unfold assign_volume.
    by rewrite (bind_thrown _ _ _ _ _ _ (Hslot p' Hp')). }
  assert (Hstore : forall x,
            (update_attributes (set_volume x) ;;; assign_volume x) p
            = Result (set_attributes (set_volume x (attributes_ p)) p) []
                (Throw TypeError)).
  { intros x. unfold update_attributes. rewrite bind_modify. cbv beta.
    exact (Hassign x (set_attributes (set_volume x (attributes_ p)) p) Hv). }
  split; [|split; [|split; [|split]]].
  - unfold pauseAd. by rewrite (bind_thrown _ _ _ _ _ _ (Hslot p Hv)).
  - intros id. unfold resumeAd. by rewrite (bind_thrown _ _ _ _ _ _ (Hslot p Hv)).
  - intros ct d. unfold timeUpdateHandler_.
    by rewrite (bind_thrown _ _ _ _ _ _ (Hslot p Hv)).
  - intros value. unfold setAdVolume, update_attributes. rewrite bind_modify. cbv beta.
    by rewrite (bind_thrown _ _ _ _ _ _
                  (Hassign _ (set_attributes (set_volume value (attributes_ p)) p) Hv)).
  - unfold muteButtonOnClick_, getAdVolume. rewrite bind_get. cbv beta.
    destruct (num_eqb (volume (attributes_ p)) (num_of_Z 0));
      rewrite (bind_thrown _ _ _ _ _ _ (Hstore _)); repeat split.
Qed.

Lemma methods_need_a_video_slot_witness :
  pauseAd VpaidVideoPlayer = Result VpaidVideoPlayer [] (Throw TypeError) /\
  getAdVolume (post (setAdVolume (num_of_Z 50) VpaidVideoPlayer)) = num_of_Z 50.
Proof.
  destruct (methods_need_a_video_slot VpaidVideoPlayer eq_refl) as (Hp & _ & _ & Hs & _).
  split; [exact Hp|]. by rewrite Hs.
Defined.
(** ** The timers of [event.setTimer] *)

Lemma timer_name_ordinary (s : string) :
  "time-" +:+ s <> "click" /\ inherited ("time-" +:+ s) = false.
Proof.
  split; [discriminate|]. unfold inherited. apply bool_decide_eq_false.
  unfold Object_prototype. intros Hin.
  repeat (apply elem_of_cons in Hin as [Hin|Hin]; [discriminate|]).
  by apply elem_of_nil in Hin.
Qed.

(** X8: [event.setTimer] sets as many timeouts as [interval] has
    entries ([3, 6, 9, 12, 20] when it is given none), in their order:
    the timeout of the entry [x] has the delay [x * 1000] ms and its
    callback triggers the timing event ["time-<x>s"].  The first run of
    such a callback on a closure where the event has not fired loads the
    pixel of the event, with the type ["t"]; a later run of it loads
    nothing. *)
Theorem setTimer_events_fire_once (interval : option (list Z)) :
  let entries := default [3; 6; 9; 12; 20] interval in
  length (setTimer interval) = length entries /\
  map fst (setTimer interval) = map (fun x => x * 1000) entries /\
  (forall (i : nat) (x : Z),
     entries !! i = Some x ->
     exists callback,
       setTimer interval !! i = Some (x * 1000, callback) /\
       let name := "time-" +:+ string_of_Z x +:+ "s" in
       forall (t : tracker) (now now' : Z),
         eventAlreadyFired t !! name = None ->
         exists query,
           emitted (callback now t) = [LoadPixel (EventPixel name query)] /\
           (has_key "et" (constant_params t) = false ->
            obj_get "et" query = VStr "t") /\
           emitted (callback now' (post (callback now t))) = []).
Proof.
  intros entries. unfold setTimer. fold entries.
  split; [apply length_map|]. split; [by rewrite map_map|].
  intros i x Hx.
  eexists. split.
  { change (map ?f entries) with (f <$> entries).
    rewrite list_lookup_fmap, Hx. reflexivity. }
  cbv beta zeta. intros t now now' Hnone.
  set (name := "time-" +:+ string_of_Z x +:+ "s") in *.
  destruct (timer_name_ordinary (string_of_Z x +:+ "s")) as [Hclick Hinh].
  fold name in Hclick, Hinh.
  destruct (trigger_counted name "t" Hclick Hinh 0 t (Some "t") None now eq_refl Hnone)
    as [Hk1 Hpx1].
  cbv zeta in Hk1, Hpx1.
  destruct (may_fire name t) eqn:Hf.
  2:{ rewrite trigger_suppressed in Hpx1 by exact Hf. discriminate. }
  destruct (trigger_exact name (Some "t") None now t Hf) as (z & _ & Heq).
  cbv zeta in Heq. change (effective_type (Some "t")) with "t" in Heq.
  change (String.eqb "t" "i") with false in Heq. cbv iota in Heq.
  eexists. split; [exact (f_equal emitted Heq)|]. split.
  - intros Hc. rewrite merge_get_absent by exact Hc. apply obj_get_set_eq.
  - destruct (trigger_counted name "t" Hclick Hinh 1 _ (Some "t") None now' eq_refl Hk1)
      as [_ Hpx2].
    cbv zeta in Hpx2. change (1 <? fire_limit "t")%nat with false in Hpx2.
    destruct (may_fire name (post (trigger name (Some "t") None now t))) eqn:Hf2.
    + destruct (trigger_fired name (Some "t") None now' _ Hf2) as (q & Hq & _).
      rewrite Hq in Hpx2. cbn [emitted] in Hpx2.
      rewrite event_pixels_one in Hpx2. discriminate.
    + by rewrite trigger_suppressed.
Qed.

Lemma setTimer_events_fire_once_witness :
  let t := createEvent (Macro "https://t/click?r=x" "1" "https://x/c") 1000
             (num_of_Z 400) (num_of_Z 800) in
  length (setTimer (Some [5; 7])) = 2%nat /\
  map fst (setTimer None) = [3000; 6000; 9000; 12000; 20000] /\
  exists callback query,
    setTimer None !! 2%nat = Some (9000, callback) /\
    emitted (callback 9100 t) = [LoadPixel (EventPixel "time-9s" query)] /\
    emitted (callback 9200 (post (callback 9100 t))) = [].
Proof.
  intros t.
  split; [exact (proj1 (setTimer_events_fire_once (Some [5; 7])))|].
  split; [exact (proj1 (proj2 (setTimer_events_fire_once None)))|].
  destruct (proj2 (proj2 (setTimer_events_fire_once None)) 2%nat 9 eq_refl)
    as (callback & Hat & Hrun).
  destruct (Hrun t 9100 9200 eq_refl) as (query & Hem & _ & Hagain).
  exists callback, query. split; [exact Hat|]. split; [exact Hem|exact Hagain].
Defined.

(** ** What a session dispatches and loads *)

Ltac among_side :=
  first
    [ intros ? ?; exact Logic.I
    | exact Logic.I
    | cbn [dispatches_among events_of]; rewrite !elem_of_cons; tauto
    | match goal with
      | E : quartileEvents_ !! _ = Some (?name, _) |- _ =>
          cbn [dispatches_among events_of]; apply elem_of_app; left;
          exact (quartile_name _ _ _ E)
      end
    | cbn [dispatches_among events_of]; apply elem_of_app; right;
      rewrite !elem_of_cons; tauto ].

(** X28: each method, listener and timer of the ad dispatches its own
    events only: [initAd] dispatches [AdError] and [AdLoaded] and no other
    event, [startAd] [AdStarted] and [AdImpression], [pauseAd] and the end
    of the video [AdPaused], [resumeAd] [AdPlaying], a progress tick the
    quartile events and [AdDurationChange], the timeout of [stopAd]
    [AdStopped], and so on; [stopAd] itself, [expandAd], [collapseAd],
    [subscribe], [unsubscribe] and the handlers of the tracking closures
    dispatch nothing. *)
Theorem methods_dispatch_their_events (canPlayType : string -> string) (i : input)
    (s : page) :
  Forall (of_the_ad (dispatches_among (events_of i)))
    (emitted (handle canPlayType i s)).
Proof.
  assert (H : hoare (fun s => True) (of_the_ad (dispatches_among (events_of i)))
                (handle canPlayType i)); [|exact (proj2 (H s Logic.I))].
  destruct i; cbn [handle events_of];
    match goal with |- hoare _ (of_the_ad ?X) _ =>
      try (unfold startAd, elementClick;
           page_run (fun _ : player => True) X among_side; fail)
    end.
  - apply (of_the_ad_lift (fun _ => True)). intros p _. rewrite expandAd_spec.
    split; [exact Logic.I|constructor].
  - apply (of_the_ad_lift (fun _ => True)). unfold timeUpdateHandler_.
    hoare_run among_side.
Qed.

Ltac pixel_side :=
  first [ intros ? ?; exact Logic.I | exact Logic.I | reflexivity ].

Lemma of_the_closures_lift {A} (X : tracker_effect -> Prop) (m : M player ad_effect A) :
  hoare (fun _ : page => True) (of_the_closures X) (lift_ad m).
Proof.
  intros s _. split; [exact Logic.I|]. unfold lift_ad; cbn [emitted].
  apply Forall_fmap, Forall_forall. intros e _. exact Logic.I.
Qed.

Lemma of_the_closures_on (X : tracker_effect -> Prop) (k : nat)
    (m : M tracker tracker_effect unit) :
  hoare (fun _ : tracker => True) X m ->
  hoare (fun _ : page => True) (of_the_closures X) (on_closure k m).
Proof.
  intros Hm s _. split; [exact Logic.I|]. unfold on_closure.
  destruct (closures s !! k) as [c|]; cbn [emitted]; [|constructor].
  apply Forall_fmap. exact (proj2 (Hm (vars c) Logic.I)).
Qed.

(** The only event that a handler of the page triggers is the impression
    of [startAd]. *)
Lemma impression_event_handle (canPlayType : string -> string) (i : input) :
  hoare (fun _ : page => True) (of_the_closures impression_event)
    (handle canPlayType i).
Proof.
  destruct i; cbn [handle]; try apply of_the_closures_lift;
    unfold startAd, elementClick;
    repeat first
      [ hoare_step
      | apply of_the_closures_lift
      | apply of_the_closures_on; hoare_go pixel_side
      | apply hoare_modify; intros ? ?; exact Logic.I ].
Qed.

Lemma impression_only_handle (canPlayType : string -> string) (i : input) :
  hoare all_idle loads_impression_only (handle canPlayType i).
Proof.
  intros s Hs. destruct (idle_handle canPlayType i s Hs) as [Hidle Hconf].
  split; [exact Hidle|].
  pose proof (proj2 (impression_event_handle canPlayType i s Logic.I)) as Hev.
  apply Forall_forall. intros e He.
  pose proof (proj1 (Forall_forall _ _) Hconf e He) as H1.
  pose proof (proj1 (Forall_forall _ _) Hev e He) as H2.
  destruct e as [e|k [[name q|u]|]]; cbn in *; try exact Logic.I; try assumption.
  discriminate.
Qed.

(** X29: in a session of the page, whatever the wrapper calls and whatever
    listeners and timers of the script the browser runs, the only pixel
    that the tracking closures ever load is the impression pixel
    [loaded_imp] of [startAd]: no other event of the tracker, no timing
    event and no click is ever reported, and the confirmation pixel is
    never loaded. *)
Theorem session_loads_impressions_only (canPlayType : string -> string)
    (inputs : list input) :
  Forall loads_impression_only (snd (session canPlayType inputs getVPAIDAd)).
Proof.
  apply (hoare_run_all all_idle loads_impression_only).
  - apply Forall_fmap, Forall_forall. intros i _. apply impression_only_handle.
  - constructor.
Qed.
